(** * Hamiltonian simulation notebook: a shallow embedding

    The notebook [hamiltonian_simulation.ipynb] reads a list of weighted
    Pauli strings, groups them greedily into mutually commuting subsets,
    diagonalizes every subset with a Clifford circuit ([sim_cliff_diag]),
    implements the diagonal operators with CNOT and RZ gates
    ([walk_paulis]) and concatenates the per-group circuits twice in a
    fixed order.

    Arrays of booleans are lists of lists of [bool]; Python integers are
    [Z]; a [QuantumCircuit] is the list of its instructions; exceptions
    are values of [exn] carried by [result].  Floating-point coefficients
    are kept abstract: the type [C] and its arithmetic are the class
    [Float], and the value returned by [numpy.linalg.matrix_rank] is the
    class [Numpy].  The operators of one run act on the same number of
    qubits, as the lines of the file do; qiskit refuses to compare or to
    compose operators and circuits of different widths. *)

From Stdlib Require Import String Ascii.
From Stdlib Require Import List Bool Arith ZArith QArith Lia.
From Stdlib Require Import Permutation Sorted.
Close Scope Q_scope.
Import ListNotations.

Set Implicit Arguments.

(** ** Exceptions *)

Inductive exn : Type :=
| SweepRowsUnexpected      (* raise Exception("Unexpected result in sweep_rows") *)
| AssertionError (msg : string)
| IndexError
| ValueError
| QiskitError
| CircuitError
| RecursionError.

Inductive result (A : Type) : Type :=
| Ok (a : A)
| Raise (e : exn).

Arguments Ok {A} a.
Arguments Raise {A} e.

Definition bind {A B} (m : result A) (f : A -> result B) : result B :=
  match m with
  | Ok a => f a
  | Raise e => Raise e
  end.

Notation "x <- m ;; k" := (bind m (fun x => k))
  (at level 61, m at next level, right associativity).

(** [for x in l: s = body x s], stopping at the first exception. *)
Fixpoint forM {A S} (l : list A) (body : A -> S -> result S) (s : S) : result S :=
  match l with
  | [] => Ok s
  | a :: l' => s' <- body a s ;; forM l' body s'
  end.

(** [range(a, b)] *)
Definition range (a b : nat) : list nat := seq a (b - a).

(** ** Boolean arrays *)

Definition bmatrix := list (list bool).

Fixpoint zipw {A B D} (f : A -> B -> D) (l : list A) (l' : list B) : list D :=
  match l, l' with
  | a :: t, b :: t' => f a b :: zipw f t t'
  | _, _ => []
  end.

Fixpoint set_nth {A} (i : nat) (v : A) (l : list A) : list A :=
  match l, i with
  | [], _ => []
  | _ :: t, O => v :: t
  | a :: t, S i' => a :: set_nth i' v t
  end.

(** numpy's [logical_xor] and [logical_and] on two arrays of one shape *)
Definition lx : list bool -> list bool -> list bool := zipw xorb.
Definition la : list bool -> list bool -> list bool := zipw andb.

Definition nrows (M : bmatrix) : nat := length M.            (* M.shape[0] *)
Definition ncols (M : bmatrix) : nat := length (nth 0 M []). (* M.shape[1] *)

Definition row (M : bmatrix) (i : nat) : list bool := nth i M [].
Definition get (M : bmatrix) (i j : nat) : bool := nth j (row M i) false.   (* M[i,j] *)
Definition col (M : bmatrix) (j : nat) : list bool :=                       (* M[:,[j]] *)
  map (fun r => nth j r false) M.

Definition set_row (M : bmatrix) (i : nat) (r : list bool) : bmatrix := set_nth i r M.
Definition set_col (M : bmatrix) (j : nat) (c : list bool) : bmatrix :=
  zipw (fun r b => set_nth j b r) M c.

(** [M[[i, k], :] = M[[k, i], :]]: the right-hand side is a copy *)
Definition swap_rows (M : bmatrix) (i k : nat) : bmatrix :=
  set_row (set_row M i (row M k)) k (row M i).

(** [M[:, [j, k]] = M[:, [k, j]]] *)
Definition swap_cols (M : bmatrix) (j k : nat) : bmatrix :=
  set_col (set_col M j (col M k)) k (col M j).

Definition all_false (M : bmatrix) : bool :=                  (* np.logical_not(M).all() *)
  forallb (fun r => forallb negb r) M.

Definition int (b : bool) : Z := if b then 1%Z else 0%Z.

Definition zsum (l : list Z) : Z := fold_left Z.add l 0%Z.

(** ** Pauli operators (qiskit.quantum_info.Pauli)

    [pz], [px] are the arrays [p.z], [p.x], indexed by qubit; [pphase] is
    the group phase, the exponent of [-i]. *)

Record Pauli : Type := mkPauli { pz : list bool; px : list bool; pphase : Z }.

Definition num_qubits (p : Pauli) : nat := length (px p).

Definition count_true (l : list bool) : nat := length (filter (fun b => b) l).

(** [Pauli.commutes]: the two mixed products have the same parity *)
Definition commutes (p q : Pauli) : bool :=
  Nat.eqb (count_true (la (px p) (pz q)) mod 2) (count_true (la (px q) (pz p)) mod 2).

(** ** The symplectic tableau: the arrays X, Z, S passed together *)

Record tableau : Type := Tab { tX : bmatrix; tZ : bmatrix; tS : list bool }.

Definition g (x1 z1 x2 z2 : Z) : Z :=
  if (x1 =? 0)%Z && (z1 =? 0)%Z then 0%Z
  else if negb (x1 =? 0)%Z && negb (z1 =? 0)%Z then (z2 - x2)%Z
  else if negb (x1 =? 0)%Z && (z1 =? 0)%Z then (z2 * (2 * x2 - 1))%Z
  else (x2 * (1 - 2 * z2))%Z.

(** the quantity [t] of [sweep_rows] *)
Definition sweep_t (t : tableau) (i j : nat) : Z :=
  (2 * int (nth j (tS t) false) + 2 * int (nth i (tS t) false)
   + zsum (map (fun k => g (int (get (tX t) i k)) (int (get (tZ t) i k))
                           (int (get (tX t) j k)) (int (get (tZ t) j k)))
               (range 0 (ncols (tX t)))))%Z.

Definition sweep_rows (t : tableau) (i j : nat) : result tableau :=
  let u := sweep_t t i j in
  S' <- (if (u mod 4 =? 0)%Z then Ok (set_nth j false (tS t))
         else if (u mod 4 =? 2)%Z then Ok (set_nth j true (tS t))
         else Raise SweepRowsUnexpected) ;;
  Ok (Tab (set_row (tX t) j (lx (row (tX t) j) (row (tX t) i)))
          (set_row (tZ t) j (lx (row (tZ t) j) (row (tZ t) i)))
          S').

Definition h (t : tableau) (i : nat) : tableau :=
  let S' := lx (tS t) (la (col (tX t) i) (col (tZ t) i)) in
  Tab (set_col (tX t) i (col (tZ t) i)) (set_col (tZ t) i (col (tX t) i)) S'.

Definition s (t : tableau) (i : nat) : tableau :=
  let S' := lx (tS t) (la (col (tX t) i) (col (tZ t) i)) in
  Tab (tX t) (set_col (tZ t) i (lx (col (tZ t) i) (col (tX t) i))) S'.

Definition cnot (t : tableau) (i j : nat) : tableau :=
  let Xb_Za_1 := lx (lx (col (tX t) j) (col (tZ t) i)) (repeat true (length (tS t))) in
  let S' := lx (tS t) (la Xb_Za_1 (la (col (tX t) i) (col (tZ t) j))) in
  Tab (set_col (tX t) j (lx (col (tX t) j) (col (tX t) i)))
      (set_col (tZ t) i (lx (col (tZ t) i) (col (tZ t) j)))
      S'.

Definition cz (t : tableau) (i j : nat) : tableau :=
  h (cnot (h t j) i j) j.

(** row swap and column swap as the diagonalization writes them: a row
    swap moves X, Z and S, a column swap moves X and Z only *)
Definition swap_rows_t (t : tableau) (i k : nat) : tableau :=
  Tab (swap_rows (tX t) i k) (swap_rows (tZ t) i k)
      (set_nth k (nth i (tS t) false) (set_nth i (nth k (tS t) false) (tS t))).

Definition swap_cols_t (t : tableau) (j k : nat) : tableau :=
  Tab (swap_cols (tX t) j k) (swap_cols (tZ t) j k) (tS t).

(** the first [(i, j)], rows first, with [k <= i], [k <= j] and [M[i,j]] *)
Fixpoint first_in_rows (M : bmatrix) (k : nat) (rows : list nat) : option (nat * nat) :=
  match rows with
  | [] => None
  | i :: rest =>
      match find (fun j => get M i j) (range k (ncols M)) with
      | Some j => Some (i, j)
      | None => first_in_rows M k rest
      end
  end.

Definition find_pivot (M : bmatrix) (k : nat) : option (nat * nat) :=
  first_in_rows M k (range k (nrows M)).

(** [for l in range(M.shape[0])]: sweep row [k] into every other row
    that has a one in column [k] of the matrix [sel] *)
Definition sweep_column (sel : tableau -> bmatrix) (k : nat) (t : tableau) : result tableau :=
  forM (range 0 (nrows (sel t)))
       (fun l t => if l =? k then Ok t
                   else if get (sel t) l k then sweep_rows t k l else Ok t)
       t.

(** insertion sort stands for [list.sort] on integers *)
Fixpoint insert_sorted (x : nat) (l : list nat) : list nat :=
  match l with
  | [] => [x]
  | y :: t => if x <=? y then x :: l else y :: insert_sorted x t
  end.

Definition sort (l : list nat) : list nat := fold_right insert_sorted [] l.

(** [l.pop(i)] for [0 <= i] *)
Definition pop {A} (i : nat) (l : list A) : result (list A) :=
  if i <? length l then Ok (firstn i l ++ skipn (S i) l) else Raise IndexError.

(** [l.pop()] *)
Definition pop_last {A} (l : list A) : result (list A) :=
  match l with
  | [] => Raise IndexError
  | _ :: _ => Ok (removelast l)
  end.

(** ** Strings

    A Python string is modelled by the list of its characters, each of
    them a code point below 256: the characters 128 to 255 are the
    code points U+0080 to U+00FF. *)

Fixpoint string_rev (s : string) : string :=                 (* s[::-1] *)
  match s with
  | EmptyString => EmptyString
  | String c s' => (string_rev s' ++ String c EmptyString)%string
  end.

Fixpoint contains (c : ascii) (s : string) : bool :=         (* c in s *)
  match s with
  | EmptyString => false
  | String d s' => Ascii.eqb d c || contains c s'
  end.

(** [s.find(c)] when [c] occurs in [s] (the length of [s] otherwise;
    the notebook calls it under the guard ['Z' in start]) *)
Fixpoint str_find (c : ascii) (s : string) : nat :=
  match s with
  | EmptyString => O
  | String d s' => if Ascii.eqb d c then O else S (str_find c s')
  end.

Fixpoint str_repeat (c : ascii) (n : nat) : string :=        (* c * n *)
  match n with
  | O => EmptyString
  | S n' => String c (str_repeat c n')
  end.

(** [s.split(sep)] for a one-character separator *)
Fixpoint split_on (sep : ascii) (s : string) : list string :=
  match s with
  | EmptyString => [EmptyString]
  | String c s' =>
      if Ascii.eqb c sep then EmptyString :: split_on sep s'
      else match split_on sep s' with
           | w :: ws => String c w :: ws
           | [] => [String c EmptyString]
           end
  end.

(** the characters that [str.strip] removes: tab to carriage return, the
    separators 28 to 31, the space, the next line U+0085 and the no-break
    space U+00A0 *)
Definition is_space (c : ascii) : bool :=                     (* str.isspace *)
  let n := nat_of_ascii c in
  (((9 <=? n) && (n <=? 13)) || ((28 <=? n) && (n <=? 32))
   || (n =? 133) || (n =? 160))%nat.

(** the characters at which [str.splitlines] breaks: line feed to carriage
    return, the separators 28 to 30 and the next line U+0085 *)
Definition is_linebreak (c : ascii) : bool :=                 (* str.splitlines *)
  let n := nat_of_ascii c in
  (((10 <=? n) && (n <=? 13)) || ((28 <=? n) && (n <=? 30)) || (n =? 133))%nat.

Fixpoint lstrip (s : string) : string :=
  match s with
  | EmptyString => EmptyString
  | String c s' => if is_space c then lstrip s' else s
  end.

Definition strip (s : string) : string :=
  string_rev (lstrip (string_rev (lstrip s))).

Fixpoint splitlines (s : string) : list string :=
  match s with
  | EmptyString => []
  | String c s' =>
      if is_linebreak c then
        match s' with
        | String d s'' =>
            if Ascii.eqb c "013"%char && Ascii.eqb d "010"%char
            then EmptyString :: splitlines s''
            else EmptyString :: splitlines s'
        | EmptyString => [EmptyString]
        end
      else match splitlines s' with
           | w :: ws => String c w :: ws
           | [] => [String c EmptyString]
           end
  end.

(** ** Labels of Pauli operators *)

Definition pauli_char (x z : bool) : ascii :=
  match x, z with
  | false, false => "I"
  | true, false => "X"
  | true, true => "Y"
  | false, true => "Z"
  end%char.

Definition phase_prefix (ph : Z) : string :=
  match (ph mod 4)%Z with
  | 0%Z => ""
  | 1%Z => "-i"
  | 2%Z => "-"
  | _ => "i"
  end%string.

(** [Pauli.to_label]: qubit 0 is the rightmost character *)
Definition to_label (p : Pauli) : string :=
  (phase_prefix (pphase p)
   ++ string_of_list_ascii (rev (zipw pauli_char (px p) (pz p))))%string.

Definition char_xz (c : ascii) : option (bool * bool) :=
  if Ascii.eqb c "I"%char then Some (false, false)
  else if Ascii.eqb c "X"%char then Some (true, false)
  else if Ascii.eqb c "Y"%char then Some (true, true)
  else if Ascii.eqb c "Z"%char then Some (false, true)
  else None.

Fixpoint label_xz (l : list ascii) : option (list (bool * bool)) :=
  match l with
  | [] => Some []
  | c :: t =>
      match char_xz c, label_xz t with
      | Some b, Some bs => Some (b :: bs)
      | _, _ => None
      end
  end.

(** the coefficient in front of a label, which qiskit matches with
    [[+-]?1?[ij]?]: whether it holds a minus sign, whether it holds [i] or
    [j], and the rest of the label *)
Definition label_coeff (l : list ascii) : bool * bool * list ascii :=
  let '(minus, l1) :=
    match l with
    | c :: t => if Ascii.eqb c "+"%char then (false, t)
                else if Ascii.eqb c "-"%char then (true, t)
                else (false, l)
    | [] => (false, l)
    end in
  let l2 :=
    match l1 with
    | c :: t => if Ascii.eqb c "1"%char then t else l1
    | [] => l1
    end in
  match l2 with
  | c :: t => if Ascii.eqb c "i"%char || Ascii.eqb c "j"%char
              then (minus, true, t) else (minus, false, l2)
  | [] => (minus, false, l2)
  end.

(** the phase of a coefficient, the exponent of -i: 0 without sign and
    i, 1 for -i, 2 for the minus sign alone, 3 for i alone *)
Definition coeff_phase (minus imag : bool) : Z :=
  match minus, imag with
  | false, false => 0
  | true, true => 1
  | true, false => 2
  | false, true => 3
  end.

(** [Pauli(label)]: a coefficient, then characters I, X, Y, Z, the last
    of them for qubit 0; any other label is refused with a QiskitError *)
Definition Pauli_of_label (lbl : string) : result Pauli :=
  let '(minus, imag, body) := label_coeff (list_ascii_of_string lbl) in
  match label_xz (rev body) with
  | Some bs => Ok (mkPauli (map snd bs) (map fst bs) (coeff_phase minus imag))
  | None => Raise QiskitError
  end.

(** ** Floats and numpy

    The arithmetic of Python floats and the rank computed by numpy are
    interfaces of the embedding. *)

Class Float (C : Type) : Type := {
  of_int : Z -> C;                 (* an int operand of a float operation *)
  cadd : C -> C -> C;              (* + *)
  cmul : C -> C -> C;              (* * *)
  cdiv : C -> C -> C;              (* / *)
  cneg : C -> C;                   (* unary - *)
  truthy : C -> bool;              (* the truth value of a float: x != 0 *)
  float : string -> result C       (* float(str) *)
}.

Class Numpy : Type := {
  matrix_rank : bmatrix -> nat     (* np.linalg.matrix_rank *)
}.

(** ** Circuits: the list [QuantumCircuit.data] *)

Record instr (C : Type) : Type :=
  Instr { name : string; params : list C; qubits : list nat }.

Arguments Instr {C} name params qubits.
Arguments name {C} i.
Arguments params {C} i.
Arguments qubits {C} i.

Definition circuit (C : Type) : Type := list (instr C).

(** ** Weighted Pauli terms (qiskit.opflow.PauliOp) *)

Record PauliOp (C : Type) : Type := mkPauliOp { primitive : Pauli; coeff : C }.

Arguments mkPauliOp {C} primitive coeff.
Arguments primitive {C} p.
Arguments coeff {C} p.

(** ** The notebook *)

Section Notebook.

Context {C : Type} {FL : Float C} {NP : Numpy}.

Definition qc_h (q : nat) : instr C := Instr "h" [] [q].
Definition qc_s (q : nat) : instr C := Instr "s" [] [q].
Definition qc_x (q : nat) : instr C := Instr "x" [] [q].
Definition qc_cnot (c t : nat) : instr C := Instr "cx" [] [c; t].
Definition qc_rz (theta : C) (q : nat) : instr C := Instr "rz" [theta] [q].
Definition qc_p (lam : C) (q : nat) : instr C := Instr "p" [lam] [q].

(** [Gate.inverse] for the gates of the notebook *)
Definition inverse_gate (i : instr C) : instr C :=
  if (name i =? "s")%string then Instr "sdg" (params i) (qubits i)
  else if (name i =? "sdg")%string then Instr "s" (params i) (qubits i)
  else if (name i =? "rz")%string || (name i =? "p")%string
       then Instr (name i) (map cneg (params i)) (qubits i)
  else i.

Definition inverse (qc : circuit C) : circuit C := map inverse_gate (rev qc).

(** *** Step 2: [sim_cliff_diag] *)

(** the arrays X, Z, S, their copies X2, Z2, S2 and the circuit *)
Record work : Type := Work { wT : tableau; wT2 : tableau; wqc : circuit C }.

(** the body run at the pivot [(i, j)] of step [k] *)
Definition pivot (sel : tableau -> bmatrix) (k i j : nat) (w : work) : result work :=
  let w1 := if negb (i =? k) then Work (swap_rows_t (wT w) i k) (wT2 w) (wqc w) else w in
  let w2 := if negb (j =? k)
            then Work (swap_cols_t (wT w1) j k) (swap_cols_t (wT2 w1) j k)
                      (wqc w1 ++ [qc_cnot j k; qc_cnot k j; qc_cnot j k])
            else w1 in
  T' <- sweep_column sel k (wT w2) ;;
  Ok (Work T' (wT2 w2) (wqc w2)).

(** [for k in ks]: look for a pivot of [sel] and record [k+1] when found *)
Definition diagonalize (sel : tableau -> bmatrix) (ks : list nat) (k0 : nat) (w : work)
  : result (work * nat) :=
  forM ks
       (fun k (st : work * nat) =>
          match find_pivot (sel (wT (fst st))) k with
          | Some (i, j) => w' <- pivot sel k i j (fst st) ;; Ok (w', S k)
          | None => Ok st
          end)
       (w, k0).

Definition apply_h (w : work) (j : nat) : work :=
  Work (h (wT w) j) (h (wT2 w) j) (wqc w ++ [qc_h j]).

Definition apply_s (w : work) (i : nat) : work :=
  Work (s (wT w) i) (s (wT2 w) i) (wqc w ++ [qc_s i]).

Definition apply_cnot (w : work) (i j : nat) : work :=
  Work (cnot (wT w) i j) (cnot (wT2 w) i j) (wqc w ++ [qc_cnot i j]).

Definition apply_cz (w : work) (i j : nat) : work :=
  Work (cz (wT w) i j) (cz (wT2 w) i j) (wqc w ++ [qc_h j; qc_cnot i j; qc_h j]).

(** swap diag Z to X *)
Definition swap_diag (kx kz : nat) (w : work) : work :=
  fold_left apply_h (range kx kz) w.

(** eliminate off-diag X *)
Definition elim_off_X (kz : nat) (w : work) : work :=
  fold_left (fun w i =>
     fold_left (fun w j => if get (tX (wT w)) i j then apply_cnot w i j else w)
               (range kz (ncols (tX (wT w)))) w)
    (range 0 kz) w.

(** eliminate off-diag Z *)
Definition elim_off_Z (kz : nat) (w : work) : work :=
  fold_left (fun w i =>
     fold_left (fun w j => if get (tZ (wT w)) i j then apply_cz w i j else w)
               (range 0 i) w)
    (range 1 kz) w.

(** eliminate diag Z, then switch X and Z *)
Definition elim_diag_Z (kz : nat) (w : work) : work :=
  fold_left (fun w i =>
     let w1 := if get (tZ (wT w)) i i then apply_s w i else w in
     apply_h w1 i)
    (range 0 kz) w.

(** the circuit and the arrays when the cleanup starts *)
Definition diag_work (paulis : list Pauli) : result work :=
  let X := map px paulis in
  let Z := map pz paulis in
  let S := map (fun _ => false) paulis in
  let r := matrix_rank (zipw (@app bool) X Z) in
  st <- diagonalize tX (range 0 r) 0 (Work (Tab X Z S) (Tab X Z S) []) ;;
  let kx := snd st in
  st <- diagonalize tZ (range kx r) kx (fst st) ;;
  let kz := snd st in
  Ok (elim_diag_Z kz (elim_off_Z kz (elim_off_X kz (swap_diag kx kz (fst st))))).

(** the scan that fills [h_to_remove]; [last_h] is the dict with the keys
    [0 .. q.size-1] *)
Definition scan_step (st : list (option nat) * list nat) (ig : nat * instr C)
  : list (option nat) * list nat :=
  let '(last_h, h_to_remove) := st in
  let '(i, gate) := ig in
  if (name gate =? "h")%string then
    match nth (hd O (qubits gate)) last_h None with
    | Some a => (last_h, h_to_remove ++ [a; i])
    | None => (set_nth (hd O (qubits gate)) (Some i) last_h, h_to_remove)
    end
  else (fold_left (fun lh q => set_nth q None lh) (qubits gate) last_h, h_to_remove).

Definition h_to_remove (size : nat) (data : circuit C) : list nat :=
  snd (fold_left scan_step (combine (seq 0 (length data)) data) (repeat None size, [])).

(** remove redundant hadamards *)
Definition cleanup (size : nat) (data : circuit C) : result (circuit C) :=
  forM (rev (sort (h_to_remove size data))) (fun i d => pop i d) data.

Definition sim_cliff_diag (paulis : list Pauli) : result (circuit C * list Pauli) :=
  match paulis with
  | [] => Raise IndexError                                    (* paulis[0] *)
  | p0 :: _ =>
      w <- diag_work paulis ;;
      qc <- cleanup (num_qubits p0) (wqc w) ;;
      if negb (all_false (tX (wT w)))
      then Raise (AssertionError "Failed Clifford diagonalization")
      else if negb (all_false (tX (wT2 w)))
      then Raise (AssertionError "Diagnolization worked in theory only")
      else Ok (qc, map (fun i => mkPauli (row (tZ (wT2 w)) i) (row (tX (wT2 w)) i)
                                         (if nth i (tS (wT2 w)) false then 2 else 0))
                       (range 0 (nrows (tX (wT2 w)))))
  end.

(** *** Step 0: reading the Pauli strings *)

Definition parse_line (line : string) : result (PauliOp C) :=
  match split_on " "%char (strip line) with
  | [sign; prefactor; _; lbl] =>
      p <- Pauli_of_label lbl ;;
      c <- float prefactor ;;
      Ok (mkPauliOp p (cmul (of_int (if (sign =? "-")%string then (-1)%Z else 1%Z)) c))
  | _ => Raise ValueError                                     (* unpacking *)
  end.

Fixpoint mapM {A B} (f : A -> result B) (l : list A) : result (list B) :=
  match l with
  | [] => Ok []
  | a :: l' => b <- f a ;; bs <- mapM f l' ;; Ok (b :: bs)
  end.

Definition nonempty (line : string) : bool :=
  match line with
  | EmptyString => false
  | String _ _ => true
  end.

(** the list comprehension over the text that [read] returns *)
Definition parse (contents : string) : result (list (PauliOp C)) :=
  mapM parse_line (filter nonempty (splitlines contents)).

(** *** Step 1: grouping commuting Paulis *)

Fixpoint first_fit (pauli : PauliOp C) (subsets : list (list (PauliOp C))) : list (list (PauliOp C)) :=
  match subsets with
  | [] => [[pauli]]
  | subset :: rest =>
      if forallb (fun p => commutes (primitive pauli) (primitive p)) subset
      then (subset ++ [pauli]) :: rest
      else subset :: first_fit pauli rest
  end.

Definition commuting_subsets (paulis : list (PauliOp C)) : list (list (PauliOp C)) :=
  fold_left (fun subsets pauli => first_fit pauli subsets) paulis [].

(** *** Step 3: [walk_paulis] *)

(** the loop of a leaf: one RZ for every Pauli with the label [start] *)
Definition walk_leaf (diag_paulis : list (PauliOp C)) (start : string) (rotating_qubit : nat)
           (qc : circuit C) : list nat * circuit C :=
  fold_left (fun (st : list nat * circuit C) (ip : nat * PauliOp C) =>
               if (to_label (primitive (snd ip)) =? start)%string
               then (fst st ++ [fst ip],
                     snd st ++ [qc_rz (cmul (of_int 2) (coeff (snd ip))) rotating_qubit])
               else st)
            (combine (seq 0 (length diag_paulis)) diag_paulis) ([], qc).

(** [walk start]: the visited indices and the circuit after the call.
    From the empty string the recursion is at most [nq + 1] calls deep;
    [fuel] bounds the depth and running out of it is a RecursionError. *)
Fixpoint walk (fuel : nat) (diag_paulis : list (PauliOp C)) (nq : nat) (start : string)
         (qc : circuit C) : result (list nat * circuit C) :=
  match fuel with
  | O => Raise RecursionError
  | S fuel' =>
      if contains "Z"%char start then
        let rotating_qubit := str_find "Z"%char (string_rev start) in
        if String.length start =? nq then Ok (walk_leaf diag_paulis start rotating_qubit qc)
        else
          r1 <- walk fuel' diag_paulis nq (String "I"%char start) qc ;;
          let visited := fst r1 in
          let qc2 := snd r1 ++ [qc_cnot (String.length start) rotating_qubit] in
          r2 <- walk fuel' diag_paulis nq (String "Z"%char start) qc2 ;;
          let visited_after_cnot := fst r2 in
          match visited_after_cnot with
          | [] => qc3 <- pop_last (snd r2) ;; Ok (visited, qc3)
          | _ => Ok (visited ++ visited_after_cnot,
                     snd r2 ++ [qc_cnot (String.length start) rotating_qubit])
          end
      else if String.length start <? nq then
        r1 <- walk fuel' diag_paulis nq (String "I"%char start) qc ;;
        r2 <- walk fuel' diag_paulis nq (String "Z"%char start) (snd r1) ;;
        Ok (fst r1 ++ fst r2, snd r2)
      else Ok ([], qc)
  end.

Definition walk_paulis (diag_paulis : list (PauliOp C)) : result (circuit C) :=
  match diag_paulis with
  | [] => Raise IndexError                                    (* diag_paulis[0] *)
  | p0 :: _ =>
      let nq := num_qubits (primitive p0) in
      r <- walk (S nq) diag_paulis nq "" [] ;;
      let paulis_qc := snd r in
      let global_phase :=
        fold_left cadd
          (map coeff (filter (fun p => (to_label (primitive p) =? str_repeat "I"%char nq)%string)
                             diag_paulis))
          (of_int 0) in
      if truthy global_phase then
        if nq =? 0 then Raise CircuitError                    (* qubit 0 of an empty register *)
        else Ok (paulis_qc ++ [qc_p (cneg global_phase) 0; qc_x 0;
                               qc_p (cneg global_phase) 0; qc_x 0])
      else Ok paulis_qc
  end.

(** *** Step 4: trotterize *)

Definition n : Z := 2.

Definition order : list nat :=
  [6; 7; 9; 1; 11; 18; 4; 13; 12; 0; 19; 15; 17; 3; 5; 2; 20; 10; 8; 16; 14].

Definition new_pauli (p : PauliOp C) (dp : Pauli) : PauliOp C :=
  mkPauliOp (mkPauli (pz dp) (px dp) 0)
            (cmul (cdiv (coeff p) (of_int n))
                  (of_int (if (pphase dp =? 0)%Z then 1%Z else (-1)%Z))).

(** the circuit appended to [circuits] for one commuting subset *)
Definition group_circuit (paulis : list (PauliOp C)) : result (circuit C) :=
  d <- sim_cliff_diag (map primitive paulis) ;;
  let diag_qc := fst d in
  let diag_paulis := snd d in
  let new_paulis := zipw new_pauli paulis diag_paulis in
  diag_paulis_qc <- walk_paulis new_paulis ;;
  Ok (diag_qc ++ diag_paulis_qc ++ inverse diag_qc).

Definition master_circuit (circuits : list (circuit C)) : result (circuit C) :=
  match circuits with
  | [] => Raise IndexError                                    (* circuits[0] *)
  | _ :: _ =>
      forM (range 0 (Z.to_nat n))
           (fun _ mc =>
              forM order
                   (fun i mc => match nth_error circuits i with
                                | Some c => Ok (mc ++ c)
                                | None => Raise IndexError    (* circuits[i] *)
                                end)
                   mc)
           []
  end.

(** steps 1 to 4, from the parsed terms to the master circuit *)
Definition run (paulis : list (PauliOp C)) : result (circuit C) :=
  circuits <- mapM group_circuit (commuting_subsets paulis) ;;
  master_circuit circuits.

(** the statements of the notebook that build the master circuit, from
    the text of the file on: the list comprehension of step 0, then steps
    1 to 4.  The matrices [H] and [eiH] that step 0 computes after the
    terms are read, and the last cell ([qasm], [Operator], [norm],
    [depth]), are floating-point and library computations that do not
    change the terms or the circuit; they are not part of the embedding,
    so a result here is the value of [master_circuit] when step 4 ends
    and says nothing on whether those computations succeed. *)
Definition master_circuit_of_file (contents : string) : result (circuit C) :=
  paulis <- parse contents ;;
  run paulis.

End Notebook.


(** * Exact stand-ins for the two interfaces, and sample inputs

    The examples run the notebook with rational numbers for floats and
    with the exact rank over the rationals for [matrix_rank]. *)

(** ** The rank of a 0/1 matrix over the rationals, by elimination *)

(** the first row that starts with a non-zero entry, and the other rows *)
Fixpoint extract_pivot (rows : list (list Q)) : option (list Q * list (list Q)) :=
  match rows with
  | [] => None
  | r :: rest =>
      if negb (Qeq_bool (hd 0%Q r) 0)
      then Some (r, rest)
      else match extract_pivot rest with
           | Some (p, others) => Some (p, r :: others)
           | None => None
           end
  end.

(** the row [r] minus the multiple of the pivot row that clears its first
    entry, without that entry *)
Definition reduce_row (p r : list Q) : list Q :=
  zipw (fun pj rj => Qred (rj - (hd 0 r / hd 0 p) * pj)%Q) (tl p) (tl r).

Fixpoint rank_cols (cols : nat) (rows : list (list Q)) : nat :=
  match cols with
  | O => O
  | S cols' =>
      match extract_pivot rows with
      | None => rank_cols cols' (map (@tl Q) rows)
      | Some (p, rest) => S (rank_cols cols' (map (reduce_row p) rest))
      end
  end.

#[export] Instance exact_rank : Numpy := {|
  matrix_rank M :=
    rank_cols (ncols M) (map (map (fun b : bool => if b then 1%Q else 0%Q)) M)
|}.

(** ** Decimal numbers as rationals *)

Definition digit (c : ascii) : option Z :=
  let k := nat_of_ascii c in
  if ((48 <=? k) && (k <=? 57))%nat then Some (Z.of_nat (k - 48)) else None.

(** the digits of [s] read after [acc], with the number of digits read *)
Fixpoint digits (s : string) (acc : Z) (count : nat) : option (Z * nat) :=
  match s with
  | EmptyString => Some (acc, count)
  | String c s' =>
      match digit c with
      | Some d => digits s' (10 * acc + d)%Z (S count)
      | None => None
      end
  end.

(** [float(s)] for a plain decimal number such as [0.125] *)
Definition decimal (s : string) : result Q :=
  match split_on "."%char s with
  | [ip] =>
      match ip, digits ip 0 0 with
      | String _ _, Some (v, _) => Ok (inject_Z v)
      | _, _ => Raise ValueError
      end
  | [ip; fp] =>
      match digits ip 0 0, digits fp 0 0 with
      | Some (v, a), Some (w, b) =>
          if ((a + b =? 0)%nat) then Raise ValueError
          else Ok (Qred (inject_Z v + inject_Z w / inject_Z (10 ^ Z.of_nat b))%Q)
      | _, _ => Raise ValueError
      end
  | _ => Raise ValueError
  end.

#[export] Instance rational : Float Q := {|
  of_int := inject_Z;
  cadd := Qplus;
  cmul := Qmult;
  cdiv := Qdiv;
  cneg := Qopp;
  truthy q := negb (Qeq_bool q 0);
  float := decimal
|}.

(** ** Sample inputs *)

Definition newline : string := String "010"%char EmptyString.

(** the text of a file with the given lines *)
Definition unlines (lines : list string) : string :=
  fold_right (fun l acc => (l ++ newline ++ acc)%string) EmptyString lines.

(** two commuting operators on two qubits: X (x) Y and Y (x) X *)
Definition two_commuting : list Pauli :=
  [mkPauli [false; true] [true; true] 0; mkPauli [true; false] [true; true] 0].

(** 21 Pauli strings on 10 qubits of which no two commute, so that the
    grouping makes 21 subsets of one term *)
Definition anticommuting_file : string :=
  unlines [ "+ 0.5 * IIIIIIIIIX"; "- 0.25 * IIIIIIIIIY";
            "+ 0.5 * IIIIIIIIXZ"; "- 0.25 * IIIIIIIIYZ";
            "+ 0.5 * IIIIIIIXZZ"; "- 0.25 * IIIIIIIYZZ";
            "+ 0.5 * IIIIIIXZZZ"; "- 0.25 * IIIIIIYZZZ";
            "+ 0.5 * IIIIIXZZZZ"; "- 0.25 * IIIIIYZZZZ";
            "+ 0.5 * IIIIXZZZZZ"; "- 0.25 * IIIIYZZZZZ";
            "+ 0.5 * IIIXZZZZZZ"; "- 0.25 * IIIYZZZZZZ";
            "+ 0.5 * IIXZZZZZZZ"; "- 0.25 * IIYZZZZZZZ";
            "+ 0.5 * IXZZZZZZZZ"; "- 0.25 * IYZZZZZZZZ";
            "+ 0.5 * XZZZZZZZZZ"; "- 0.25 * YZZZZZZZZZ";
            "+ 0.125 * ZZZZZZZZZZ" ]%string.

(** the 10-character string over I and Z that spells [k] in binary *)
Fixpoint binary_label (width k : nat) : string :=
  match width with
  | O => EmptyString
  | S width' =>
      (binary_label width' (k / 2) ++
       String (if Nat.even k then "I" else "Z")%char EmptyString)%string
  end.

(** a file of 276 lines in the format of the input: a sign, a
    coefficient, a star and a 10-character Pauli string; the strings are
    pairwise different and all diagonal *)
Definition diagonal_file : string :=
  unlines (map (fun k => ("+ 0.5 * " ++ binary_label 10 k)%string) (seq 1 276)).

(** the terms of the 21-line file *)
Definition anticommuting_terms : list (PauliOp Q) :=
  match parse anticommuting_file with
  | Ok terms => terms
  | Raise _ => []
  end.

(** the no-break space U+00A0 and the line break U+0085 *)
Definition nbsp : string := String (ascii_of_nat 160) EmptyString.
Definition next_line : string := String (ascii_of_nat 133) EmptyString.

(** a file of three lines; the second starts with a no-break space and
    ends with the line break U+0085 *)
Definition three_lines : string :=
  ("+ 0.5 * IIIIIIIIIX" ++ newline ++
   nbsp ++ "- 0.25 * IIIIIIIIYZ" ++ next_line ++
   "+ 0.125 * ZZZZZZZZZZ" ++ newline)%string.

(** three commuting operators on three qubits, ZZI, IZZ and XXX: the
    circuit that diagonalizes them holds two pairs of Hadamard gates on
    qubit 0, which the cleanup removes *)
Definition three_commuting : list Pauli :=
  [mkPauli [false; true; true] [false; false; false] 0;
   mkPauli [true; true; false] [false; false; false] 0;
   mkPauli [false; false; false] [true; true; true] 0].

(** a [matrix_rank] that returns 0: a rank below the rank over GF(2) *)
Definition rank_zero : Numpy := {| matrix_rank := fun _ => 0 |}.

(** * Notions used to state the properties *)

(** [m] rows of [n] entries *)
Definition wf (m n : nat) (M : bmatrix) : Prop :=
  length M = m /\ Forall (fun r => length r = n) M.

Definition twf (m n : nat) (t : tableau) : Prop :=
  wf m n (tX t) /\ wf m n (tZ t) /\ length (tS t) = m.

(** the sum modulo 2 of [f 0 .. f (n-1)] *)
Fixpoint xsum (f : nat -> bool) (n : nat) : bool :=
  match n with
  | O => false
  | S n' => xorb (xsum f n') (f n')
  end.

(** the symplectic product of two rows [(xa, za)] and [(xb, zb)] of [n]
    entries: [false] when the two Pauli operators commute *)
Definition spf (n : nat) (xa za xb zb : nat -> bool) : bool :=
  xsum (fun k => xorb (xa k && zb k) (za k && xb k)) n.

(** the symplectic product of the rows [a] and [b] of a tableau *)
Definition sp (n : nat) (t : tableau) (a b : nat) : bool :=
  spf n (get (tX t) a) (get (tZ t) a) (get (tX t) b) (get (tZ t) b).

Definition commuting (m n : nat) (t : tableau) : Prop :=
  forall a b, a < m -> b < m -> sp n t a b = false.

(** every row of [t2] is a sum modulo 2 of rows of [t] *)
Definition spanned (m n : nat) (t t2 : tableau) : Prop :=
  forall a, a < m ->
    exists c : nat -> bool,
      forall b, b < n ->
        get (tX t2) a b = xsum (fun i => c i && get (tX t) i b) m /\
        get (tZ t2) a b = xsum (fun i => c i && get (tZ t) i b) m.

(** the rank over GF(2) is at most [r]: some [r] vectors span the rows *)
Definition rank_le (m n : nat) (M : bmatrix) (r : nat) : Prop :=
  exists (k : nat) (B : nat -> nat -> bool),
    k <= r /\
    forall a, a < m ->
      exists c : nat -> bool,
        forall b, b < n -> get M a b = xsum (fun i => c i && B i b) k.

(** the exchange of the indices [j] and [k] *)
Definition transp (j k x : nat) : nat :=
  if x =? k then j else if x =? j then k else x.

(** [t'] is [t] with row [i] added to row [j] *)
Definition rowadd_of (t t' : tableau) (i j : nat) : Prop :=
  forall a b,
    get (tX t') a b = (if a =? j then xorb (get (tX t) j b) (get (tX t) i b)
                       else get (tX t) a b) /\
    get (tZ t') a b = (if a =? j then xorb (get (tZ t) j b) (get (tZ t) i b)
                       else get (tZ t) a b).


(** [T'] is [T] after the pivot step at [(i, j)] for the diagonal position
    [k]: rows [i] and [k] exchanged, columns [j] and [k] exchanged, then
    row [k] added to every other row with a one in column [k] of [sel] *)
Definition pivot_rel (sel : tableau -> bmatrix) (m n k i j : nat) (T T' : tableau) : Prop :=
  forall a b, a < m -> b < n ->
    let u := negb (a =? k) && get (sel T) (transp i k a) j in
    get (tX T') a b = xorb (get (tX T) (transp i k a) (transp j k b))
                           (u && get (tX T) i (transp j k b)) /\
    get (tZ T') a b = xorb (get (tZ T) (transp i k a) (transp j k b))
                           (u && get (tZ T) i (transp j k b)).

(** the columns [k0 .. k-1] of [M] are unit vectors *)
Definition unit_cols (m k0 k : nat) (M : bmatrix) : Prop :=
  forall a b, a < m -> k0 <= b < k -> get M a b = (a =? b).

(** no entry of [M] from row [k] and column [k] on *)
Definition zero_from (m n k : nat) (M : bmatrix) : Prop :=
  forall a b, k <= a < m -> k <= b < n -> get M a b = false.

(** the rows from [k] on are zero *)
Definition zero_rows (m n k : nat) (M : bmatrix) : Prop :=
  forall a b, k <= a < m -> b < n -> get M a b = false.

(** the state of a diagonalization loop before step [k]: [kk] pivots were
    found, the columns [k0 .. kk-1] of [sel] are unit vectors, and once a
    step found no pivot nothing is left below and right of [(kk, kk)] *)
Definition stage_inv {C} (m n : nat) (sel : tableau -> bmatrix) (k0 : nat)
           (P : tableau -> Prop) (k : nat) (st : work (C:=C) * nat) : Prop :=
  let T := wT (fst st) in
  let kk := snd st in
  twf m n T /\ twf m n (wT2 (fst st)) /\ commuting m n T /\
  spanned m n T (wT2 (fst st)) /\ P T /\
  k0 <= kk /\ kk <= k /\ kk <= m /\ kk <= n /\
  unit_cols m k0 kk (sel T) /\
  (kk < k -> zero_from m n kk (sel T)).

(** [M] is the identity on its first [kz] columns and zero elsewhere *)
Definition diag_form (m n kz : nat) (M : bmatrix) : Prop :=
  forall a b, a < m -> b < n -> get M a b = (a =? b) && (b <? kz).

(** what every step of [sim_cliff_diag] keeps: the shapes, the commuting
    rows, and the copies in the span of the working rows *)
Definition base_inv {C} (m n : nat) (w : work (C:=C)) : Prop :=
  twf m n (wT w) /\ twf m n (wT2 w) /\
  commuting m n (wT w) /\ spanned m n (wT w) (wT2 w).

(** ** Well-formed inputs of [sim_cliff_diag] *)

(** every operator acts on [n] qubits *)
Definition on_qubits (n : nat) (paulis : list Pauli) : Prop :=
  Forall (fun p => length (px p) = n /\ length (pz p) = n) paulis.

Definition pairwise_commute (paulis : list Pauli) : Prop :=
  forall p q, In p paulis -> In q paulis -> commutes p q = true.

(** the array handed to [matrix_rank]: X and Z side by side *)
Definition XZ (paulis : list Pauli) : bmatrix :=
  zipw (@app bool) (map px paulis) (map pz paulis).

(** the value returned by [matrix_rank] bounds the rank over GF(2) of its
    argument, as the rank over the reals of a 0/1 matrix does *)
Definition rank_ok {NP : Numpy} (n : nat) (paulis : list Pauli) : Prop :=
  rank_le (length paulis) (n + n) (XZ paulis) (matrix_rank (XZ paulis)).

(** the tableau built from the operators *)
Definition tab0 (paulis : list Pauli) : tableau :=
  Tab (map px paulis) (map pz paulis) (map (fun _ => false) paulis).


(** ** Notions on circuits *)

Section CircuitNotions.

Context {C : Type}.

Definition is_h (gate : instr C) : bool := (name gate =? "h")%string.

(** the number of Hadamard gates at the end of the circuit on every qubit,
    with no other gate on that qubit in between *)
Definition hcount_step (cnt : nat -> nat) (gate : instr C) (q : nat) : nat :=
  if is_h gate then (if q =? hd 0 (qubits gate) then S (cnt q) else cnt q)
  else (if existsb (Nat.eqb q) (qubits gate) then 0 else cnt q).

Definition hcount (c : circuit C) : nat -> nat :=
  fold_left hcount_step c (fun _ => 0).

(** never three Hadamard gates in a row on one qubit *)
Definition hruns_ok (c : circuit C) : Prop :=
  forall p t, c = p ++ t -> forall q, hcount p q <= 2.

Definition clifford_gate (gate : instr C) : Prop :=
  (exists q, gate = qc_h q) \/ (exists q, gate = qc_s q) \/
  (exists a b, gate = qc_cnot a b).

(** a circuit of H, S and CNOT gates whose runs of Hadamard gates are
    bounded by [f] at its end *)
Definition shape (f : nat -> nat) (c : circuit C) : Prop :=
  Forall clifford_gate c /\ hruns_ok c /\ forall q, hcount c q <= f q.

(** [enumerate(l)], counting from [a] *)
Definition enum_from {A} (a : nat) (l : list A) : list (nat * A) :=
  combine (seq a (length l)) l.

(** the elements of [l] whose index is not in [R] *)
Definition keep {A} (R : list nat) (l : list A) : list (nat * A) :=
  filter (fun ig => negb (existsb (Nat.eqb (fst ig)) R)) (enum_from 0 l).

(** the cleanup scan over the whole of [data] *)
Definition scan (size : nat) (data : circuit C) : list (option nat) * list nat :=
  fold_left scan_step (enum_from 0 data) (repeat None size, []).

(** the operator of a circuit in a monoid of operators, gates in program order *)
Definition sem {M} (mul : M -> M -> M) (one : M) (den : instr C -> M) (c : circuit C) : M :=
  fold_right (fun gate acc => mul (den gate) acc) one c.

End CircuitNotions.

(** strictly decreasing *)
Inductive desc : list nat -> Prop :=
| desc_nil : desc []
| desc_cons x l : (forall y, In y l -> y < x) -> desc l -> desc (x :: l).

(** what the cleanup scan knows after reading [data]: the indices to
    remove are distinct positions of [data]; the circuit without them has
    the operator of [data]; and a qubit with a recorded Hadamard gate
    either still has it as its last gate or has used it in a pair *)
Definition scan_inv {C M} (mul : M -> M -> M) (one : M) (den : instr C -> M)
           (data : circuit C) (st : list (option nat) * list nat) : Prop :=
  let last_h := fst st in
  let R := snd st in
  (forall x, In x R -> x < length data) /\
  NoDup R /\
  sem mul one den (map snd (keep R data)) = sem mul one den data /\
  forall q a, nth q last_h None = Some a ->
    nth_error data a = Some (qc_h q) /\
    1 <= hcount data q /\
    (In a R -> 2 <= hcount data q) /\
    (~ In a R ->
     exists A B, keep R data = A ++ (a, qc_h q) :: B /\
                 forall ig, In ig B -> ~ In q (qubits (snd ig))).

(** the rows [i] and [j] of a tableau, read as Pauli operators, commute *)
Definition rows_commute (t : tableau) (i j : nat) : Prop :=
  commutes (mkPauli (row (tZ t) i) (row (tX t) i) 0)
           (mkPauli (row (tZ t) j) (row (tX t) j) 0) = true.

(** a product of identity and Pauli-Z factors only *)
Definition diagonal (p : Pauli) : Prop := forallb negb (px p) = true.

(** a CNOT, Hadamard or S gate *)
Definition cnot_h_s {C} (gate : instr C) : Prop :=
  name gate = "cx"%string \/ name gate = "h"%string \/ name gate = "s"%string.

(** a gate named in [names] on one qubit, or a CNOT on two qubits *)
Definition allowed_gate {C} (names : list string) (gate : instr C) : Prop :=
  (In (name gate) names /\ length (qubits gate) = 1) \/
  (name gate = "cx"%string /\ length (qubits gate) = 2).

(** the gates appended by [walk] *)
Definition walk_gate {C} (gate : instr C) : Prop :=
  (exists theta q, gate = qc_rz theta q) \/ (exists a b, gate = qc_cnot a b).

(** [l1] is [l2] with some elements left out, the order kept *)
Inductive subseq {A} : list A -> list A -> Prop :=
| subseq_nil : subseq [] []
| subseq_skip x l1 l2 : subseq l1 l2 -> subseq l1 (x :: l2)
| subseq_take x l1 l2 : subseq l1 l2 -> subseq (x :: l1) (x :: l2).

(** every pair of terms of the subset commutes *)
Definition commuting_group {C} (subset : list (PauliOp C)) : Prop :=
  forall p q, In p subset -> In q subset -> commutes (primitive p) (primitive q) = true.

(** the gate names of the claim on the master circuit, and with the
    inverse of S *)
Definition stated_names : list string := ["h"; "s"; "rz"; "p"; "x"]%string.
Definition emitted_names : list string := ["h"; "s"; "sdg"; "rz"; "p"; "x"]%string.

(** [circuit] is built for [group] as step 4 does: the diagonalizing
    circuit, the circuit of the diagonal terms, the inverse *)
Definition group_circuit_of {C} {FL : Float C} {NP : Numpy}
           (group : list (PauliOp C)) (c : circuit C) : Prop :=
  exists diag_qc diag_paulis diag_paulis_qc,
    sim_cliff_diag (map primitive group) = Ok (diag_qc, diag_paulis) /\
    walk_paulis (zipw new_pauli group diag_paulis) = Ok diag_paulis_qc /\
    c = diag_qc ++ diag_paulis_qc ++ inverse diag_qc.

(** one Trotter step: the circuits of the groups in the hard-coded order *)
Definition trotter_step {C} (circuits : list (circuit C)) : circuit C :=
  concat (map (fun i => nth i circuits []) order).

(** every subset of the grouping gets a rank that bounds its rank over GF(2) *)
Definition ranks_ok {C} {NP : Numpy} (n : nat) (paulis : list (PauliOp C)) : Prop :=
  forall subset, In subset (commuting_subsets paulis) ->
                 rank_ok n (map primitive subset).

(** ** Lines of the input file *)

(** a line with four fields separated by single spaces, the second a
    number and the fourth a Pauli string *)
Definition well_formed_line {C} {FL : Float C} (line : string) : Prop :=
  exists sign prefactor discarded lbl,
    split_on " "%char (strip line) = [sign; prefactor; discarded; lbl] /\
    (exists c, float prefactor = Ok c) /\
    (exists p, Pauli_of_label lbl = Ok p).

(** a label without a coefficient: characters I, X, Y, Z only *)
Definition plain_label (lbl : string) : bool :=
  forallb (fun c => match char_xz c with Some _ => true | None => false end)
          (list_ascii_of_string lbl).

(** [term] is what the claim says of [line]: the operator of the Pauli
    string, weighted by the parsed number, negated exactly when the sign
    field is "-"; the label of the operator is the Pauli string when that
    is written with I, X, Y, Z only *)
Definition parsed_as {C} {FL : Float C} (line : string) (term : PauliOp C) : Prop :=
  exists sign prefactor discarded lbl c p,
    split_on " "%char (strip line) = [sign; prefactor; discarded; lbl] /\
    float prefactor = Ok c /\
    Pauli_of_label lbl = Ok p /\
    (plain_label lbl = true -> to_label p = lbl) /\
    term = mkPauliOp p (if (sign =? "-")%string then cneg c else c).

(** * Further notions: the grouping, the tableau updates, the circuits *)

From Stdlib Require Import FunctionalExtensionality.

(** some term of [subset] does not commute with [pauli] *)
Definition conflict {C} (pauli : PauliOp C) (subset : list (PauliOp C)) : Prop :=
  exists q, In q subset /\ commutes (primitive pauli) (primitive q) = false.

(** no two terms at different positions of the list commute *)
Definition none_commute {C} (paulis : list (PauliOp C)) : Prop :=
  forall l1 p l2 q l3,
    paulis = l1 ++ p :: l2 ++ q :: l3 ->
    commutes (primitive q) (primitive p) = false.

(** the update of the arrays that goes with a gate of the circuit: H, S
    and CNOT gates update as [h], [s] and [cnot] do *)
Definition apply_gate {C} (gate : instr C) (t : tableau) : tableau :=
  if (name gate =? "h")%string then
    match qubits gate with [q] => h t q | _ => t end
  else if (name gate =? "s")%string then
    match qubits gate with [q] => s t q | _ => t end
  else if (name gate =? "cx")%string then
    match qubits gate with [a; b] => cnot t a b | _ => t end
  else t.

(** the arrays after the gates of a circuit, in program order *)
Definition replay {C} (qc : circuit C) (t : tableau) : tableau :=
  fold_left (fun t gate => apply_gate gate t) qc t.

(** the operators read off the arrays, as [sim_cliff_diag] returns them *)
Definition paulis_of (t : tableau) : list Pauli :=
  map (fun i => mkPauli (row (tZ t) i) (row (tX t) i)
                        (if nth i (tS t) false then 2 else 0)%Z)
      (range 0 (nrows (tX t))).

(** a gate on qubits of a register of [n] qubits, no qubit twice *)
Definition gate_ok {C} (n : nat) (gate : instr C) : Prop :=
  (forall q, In q (qubits gate) -> q < n) /\ NoDup (qubits gate).

(** what the steps of the diagonalization keep from the start [T0]: the
    shapes of the arrays, the copies as the replay of the circuit, and
    the gates within the register *)
Definition track {C} (m n : nat) (T0 : tableau) (w : work (C:=C)) : Prop :=
  twf m n (wT w) /\ twf m n (wT2 w) /\
  wT2 w = replay (wqc w) T0 /\ Forall (gate_ok n) (wqc w).

(** the shape test of [twf] *)
Definition twfb (m n : nat) (t : tableau) : bool :=
  (length (tX t) =? m) && forallb (fun r => length r =? n) (tX t) &&
  ((length (tZ t) =? m) && forallb (fun r => length r =? n) (tZ t)) &&
  (length (tS t) =? m).

Definition gate_okb {C} (n : nat) (gate : instr C) : bool :=
  forallb (fun q => q <? n) (qubits gate) &&
  match qubits gate with
  | [a; b] => negb (a =? b)
  | _ => true
  end.

(** a gate as an operator on the arrays of [m] rows and [n] columns: its
    update on well-shaped arrays when it fits the register, the identity
    otherwise *)
Definition den_t {C} (m n : nat) (gate : instr C) : tableau -> tableau :=
  fun t => if twfb m n t && gate_okb n gate then apply_gate gate t else t.

(** operators on the arrays compose in program order *)
Definition then_t (f f' : tableau -> tableau) : tableau -> tableau :=
  fun t => f' (f t).

(** ** Notions on [walk_paulis] *)

(** [lbl] ends with [start] *)
Definition ends_with (start lbl : string) : Prop :=
  String.length start <= String.length lbl /\
  forall k, k < String.length start ->
            String.get (String.length lbl - String.length start + k) lbl =
            String.get k start.

(** a label over I and Z *)
Definition only_IZ (lbl : string) : Prop :=
  forall k c, String.get k lbl = Some c -> c = "I"%char \/ c = "Z"%char.

(** a term with a Pauli-Z factor, and the rotation that [walk] appends
    for it: by twice its coefficient, on its lowest qubit with a Z *)
Definition has_Z {C} (p : PauliOp C) : bool :=
  contains "Z"%char (to_label (primitive p)).

Definition rz_of {C} {FL : Float C} (p : PauliOp C) : instr C :=
  qc_rz (cmul (of_int 2) (coeff p))
        (str_find "Z"%char (string_rev (to_label (primitive p)))).

Definition is_rz {C} (gate : instr C) : bool := (name gate =? "rz")%string.

Definition term_at {C} {FL : Float C} (dp : list (PauliOp C)) (i : nat) : PauliOp C :=
  nth i dp (mkPauliOp (mkPauli [] [] 0) (of_int 0)).

(** the indices that [walk start] visits: once each, the terms with a Z
    whose label ends with [start] *)
Definition visits {C} {FL : Float C} (dp : list (PauliOp C)) (start : string)
           (v : list nat) : Prop :=
  NoDup v /\
  forall i, In i v <->
            i < length dp /\ ends_with start (to_label (primitive (term_at dp i))) /\
            has_Z (term_at dp i) = true.

(** rotations inside nested pairs of equal CNOT gates, on a register of
    [nq] qubits *)
Inductive ladder {C} (nq : nat) : circuit C -> Prop :=
| ladder_nil : ladder nq []
| ladder_rz theta q : q < nq -> ladder nq [qc_rz theta q]
| ladder_app a b : ladder nq a -> ladder nq b -> ladder nq (a ++ b)
| ladder_cnot c t a :
    c < nq -> t < nq -> c <> t -> ladder nq a ->
    ladder nq (qc_cnot c t :: a ++ [qc_cnot c t]).

(** diagonal terms with no sign of their own on [nq] qubits, as
    [walk_paulis] gets them *)
Definition diag_terms {C} (nq : nat) (dp : list (PauliOp C)) : Prop :=
  forall p, In p dp ->
    length (px (primitive p)) = nq /\ length (pz (primitive p)) = nq /\
    diagonal (primitive p) /\ pphase (primitive p) = 0%Z.

(** the sum of the coefficients of the identity terms, and the gates that
    [walk_paulis] appends for it *)
Definition global_phase {C} {FL : Float C} (nq : nat) (dp : list (PauliOp C)) : C :=
  fold_left cadd
    (map coeff (filter (fun p => (to_label (primitive p) =? str_repeat "I"%char nq)%string) dp))
    (of_int 0).

Definition global_phase_gates {C} {FL : Float C} (nq : nat) (dp : list (PauliOp C))
  : circuit C :=
  if truthy (global_phase nq dp)
  then [qc_p (cneg (global_phase nq dp)) 0; qc_x 0;
        qc_p (cneg (global_phase nq dp)) 0; qc_x 0]
  else [].

(** ** Notions on the cleanup *)

(** the number of Hadamard gates on the qubit [q] *)
Definition h_on {C} (q : nat) (c : circuit C) : nat :=
  length (filter (fun gate => is_h gate && (hd 0 (qubits gate) =? q)) c).

Definition not_h {C} (gate : instr C) : bool := negb (is_h gate).

(** ** Sample inputs *)

(** X and Z on one qubit, which do not commute *)
Definition x_and_z : list (PauliOp Q) :=
  [mkPauliOp (mkPauli [false] [true] 0) (1 # 2)%Q;
   mkPauliOp (mkPauli [true] [false] 0) (1 # 4)%Q].

(** the two commuting operators as weighted terms *)
Definition two_commuting_terms : list (PauliOp Q) :=
  map (fun p => mkPauliOp p (1 # 2)%Q) two_commuting.

(** diagonal terms on two qubits: ZI, IZ, ZZ and the identity *)
Definition four_diagonal : list (PauliOp Q) :=
  [mkPauliOp (mkPauli [false; true] [false; false] 0) (1 # 2)%Q;
   mkPauliOp (mkPauli [true; false] [false; false] 0) (1 # 4)%Q;
   mkPauliOp (mkPauli [true; true] [false; false] 0) (1 # 8)%Q;
   mkPauliOp (mkPauli [false; false] [false; false] 0) (1 # 2)%Q].

(** CNOT gates counted modulo 2: an operator monoid in which a CNOT gate
    is its own inverse and rotations are left out *)
Definition cx_parity (gate : instr Q) : bool := (name gate =? "cx")%string.

(** a file whose second line has three fields *)
Definition three_fields : string :=
  unlines [ "+ 0.5 * IIIIIIIIIX"; "- 0.25 IIIIIIIIYZ" ]%string.

(** ** Rows of the arrays *)

(** row [a] of [t] and row [a'] of [t'] hold the same X and Z entries *)
Definition rows_agree (n : nat) (t : tableau) (a : nat) (t' : tableau) (a' : nat) : Prop :=
  (forall b, b < n -> get (tX t) a b = get (tX t') a' b) /\
  (forall b, b < n -> get (tZ t) a b = get (tZ t') a' b).

(** the updates of a circuit taken back, last gate first: three times the
    update of a gate undo it *)
Definition unreplay {C} (qc : circuit C) (t : tableau) : tableau :=
  fold_right (fun gate t => apply_gate gate (apply_gate gate (apply_gate gate t))) t qc.

(** never two Hadamard gates in a row on one qubit *)
Definition hruns1 {C} (c : circuit C) : Prop :=
  forall p t, c = p ++ t -> forall q, hcount p q <= 1.

(** what the scan has found after reading [p], on the circuit without the
    collected indices: no two Hadamard gates in a row, and a last
    Hadamard gate on a qubit is the one recorded for it *)
Definition scan_done {C} (size : nat) (p : circuit C) : Prop :=
  let st := scan size p in
  let kept := map snd (keep (snd st) p) in
  hruns1 kept /\
  forall q, hcount kept q = 1 ->
            exists a, nth q (fst st) None = Some a /\ ~ In a (snd st).

(** * Properties *)

(** ** Lists and boolean arrays *)

Lemma length_set_nth A (i : nat) (v : A) l : length (set_nth i v l) = length l.
Proof.
  revert i; induction l as [|a l IH]; intros [|i]; simpl; auto.
Qed.

Lemma nth_set_nth_eq A (i : nat) (v d : A) l :
  i < length l -> nth i (set_nth i v l) d = v.
Proof.
  revert i; induction l as [|a l IH]; intros [|i]; simpl; intros; try lia; auto.
  apply IH; lia.
Qed.

Lemma nth_set_nth_neq A (i j : nat) (v d : A) l :
  i <> j -> nth j (set_nth i v l) d = nth j l d.
Proof.
  revert i j; induction l as [|a l IH]; intros [|i] [|j]; simpl; intros; try lia; auto.
Qed.

Lemma nth_set_nth A (i j : nat) (v d : A) l :
  i < length l ->
  nth j (set_nth i v l) d = if j =? i then v else nth j l d.
Proof.
  intros Hi. destruct (Nat.eqb_spec j i) as [->|Hne].
  - now apply nth_set_nth_eq.
  - apply nth_set_nth_neq; auto.
Qed.

Lemma length_zipw A B D (f : A -> B -> D) l l' :
  length (zipw f l l') = Nat.min (length l) (length l').
Proof.
  revert l'; induction l as [|a l IH]; intros [|b l']; simpl; auto.
Qed.

Lemma nth_zipw A B D (f : A -> B -> D) l l' i d d1 d2 :
  i < length l -> i < length l' ->
  nth i (zipw f l l') d = f (nth i l d1) (nth i l' d2).
Proof.
  revert l' i; induction l as [|a l IH]; intros [|b l'] [|i]; simpl; intros; try lia; auto.
  apply IH; lia.
Qed.

Lemma length_lx l l' : length (lx l l') = Nat.min (length l) (length l').
Proof. apply length_zipw. Qed.

Lemma length_la l l' : length (la l l') = Nat.min (length l) (length l').
Proof. apply length_zipw. Qed.

Lemma nth_lx l l' i :
  length l = length l' ->
  nth i (lx l l') false = xorb (nth i l false) (nth i l' false).
Proof.
  intros Hl. destruct (Nat.lt_ge_cases i (length l)) as [Hi|Hi].
  - apply nth_zipw; lia.
  - rewrite !nth_overflow; auto; try lia. rewrite length_lx; lia.
Qed.

Lemma nth_la l l' i :
  length l = length l' ->
  nth i (la l l') false = nth i l false && nth i l' false.
Proof.
  intros Hl. destruct (Nat.lt_ge_cases i (length l)) as [Hi|Hi].
  - apply nth_zipw; lia.
  - rewrite !nth_overflow; auto; try lia. rewrite length_la; lia.
Qed.

Lemma wf_row m n M a : wf m n M -> a < m -> length (row M a) = n.
Proof.
  intros [Hm Hn] Ha. unfold row.
  rewrite Forall_forall in Hn. apply Hn, nth_In. lia.
Qed.

Lemma get_overflow_row m n M a b : wf m n M -> m <= a -> get M a b = false.
Proof.
  intros [Hm _] Ha. unfold get, row. rewrite (nth_overflow M); [|lia]. now destruct b.
Qed.

Lemma get_overflow_col m n M a b : wf m n M -> n <= b -> get M a b = false.
Proof.
  intros Hwf Hb. destruct (Nat.lt_ge_cases a m) as [Ha|Ha].
  - unfold get. apply nth_overflow. rewrite (wf_row Hwf Ha). lia.
  - eapply get_overflow_row; eauto.
Qed.

Lemma length_col M j : length (col M j) = length M.
Proof. apply length_map. Qed.

Lemma nth_col M j a : nth a (col M j) false = get M a j.
Proof.
  unfold col, get, row.
  revert a; induction M as [|r M IH]; intros [|a]; simpl; auto; now destruct j.
Qed.

Lemma wf_set_row m n M i r : wf m n M -> length r = n -> wf m n (set_row M i r).
Proof.
  intros [Hm Hn] Hr. split.
  - unfold set_row. now rewrite length_set_nth.
  - unfold set_row. clear Hm. revert i. induction Hn; intros [|i]; simpl; auto.
Qed.

Lemma get_set_row m n M i r a b :
  wf m n M -> i < m ->
  get (set_row M i r) a b = if a =? i then nth b r false else get M a b.
Proof.
  intros [Hm Hn] Hi. unfold get, row, set_row.
  rewrite nth_set_nth by lia. now destruct (a =? i).
Qed.

Lemma wf_set_col m n M j c : wf m n M -> length c = m -> wf m n (set_col M j c).
Proof.
  intros [Hm Hn] Hc. split.
  - unfold set_col. rewrite length_zipw. lia.
  - unfold set_col. clear Hm Hc. revert c.
    induction Hn; intros [|b c]; simpl; auto.
    constructor; auto. now rewrite length_set_nth.
Qed.

Lemma get_set_col m n M j c a b :
  wf m n M -> length c = m -> j < n -> a < m ->
  get (set_col M j c) a b = if b =? j then nth a c false else get M a b.
Proof.
  intros Hwf Hc Hj Ha. pose proof Hwf as [Hm Hn].
  unfold get at 1. unfold row, set_col.
  rewrite (nth_zipw _ _ _ [] [] false) by lia.
  rewrite nth_set_nth; auto.
  fold (row M a). rewrite (wf_row Hwf Ha). auto.
Qed.

Lemma wf_swap_rows m n M i k : wf m n M -> i < m -> k < m -> wf m n (swap_rows M i k).
Proof.
  intros Hwf Hi Hk. unfold swap_rows.
  apply wf_set_row; [apply wf_set_row|]; auto; eapply wf_row; eauto.
Qed.

Lemma get_swap_rows m n M i k a b :
  wf m n M -> i < m -> k < m ->
  get (swap_rows M i k) a b =
  get M (if a =? k then i else if a =? i then k else a) b.
Proof.
  intros Hwf Hi Hk. unfold swap_rows.
  rewrite (@get_set_row m n); auto.
  2:{ apply wf_set_row; auto. eapply wf_row; eauto. }
  destruct (a =? k); auto.
  rewrite (@get_set_row m n); auto.
  destruct (a =? i); auto.
Qed.

Lemma wf_swap_cols m n M j k : wf m n M -> wf m n (swap_cols M j k).
Proof.
  intros Hwf. pose proof Hwf as [Hm _]. unfold swap_cols.
  apply wf_set_col; [apply wf_set_col|]; auto; rewrite length_col; auto.
Qed.

Lemma get_swap_cols m n M j k a b :
  wf m n M -> j < n -> k < n -> a < m ->
  get (swap_cols M j k) a b =
  get M a (if b =? k then j else if b =? j then k else b).
Proof.
  intros Hwf Hj Hk Ha. pose proof Hwf as [Hm _]. unfold swap_cols.
  rewrite (@get_set_col m n); auto.
  2:{ apply wf_set_col; auto. now rewrite length_col. }
  2:{ now rewrite length_col. }
  destruct (b =? k); [apply nth_col|].
  rewrite (@get_set_col m n); auto.
  2:{ now rewrite length_col. }
  destruct (b =? j); auto. apply nth_col.
Qed.

Lemma all_false_get m n M :
  wf m n M ->
  (all_false M = true <-> forall a b, a < m -> b < n -> get M a b = false).
Proof.
  intros Hwf. unfold all_false. rewrite forallb_forall. split.
  - intros H a b Ha Hb. pose proof Hwf as [Hm _].
    assert (Hin : In (row M a) M) by (apply nth_In; lia).
    specialize (H _ Hin). rewrite forallb_forall in H.
    unfold get.
    assert (Hinb : In (nth b (row M a) false) (row M a)).
    { apply nth_In. rewrite (wf_row Hwf Ha). auto. }
    specialize (H _ Hinb). now destruct (nth b (row M a) false).
  - intros H r Hr. rewrite forallb_forall. intros x Hx.
    pose proof Hwf as [Hm Hn].
    destruct (In_nth _ _ [] Hr) as [a [Ha Hra]].
    destruct (In_nth _ _ false Hx) as [b [Hb Hxb]].
    subst r x. fold (row M a). fold (get M a b).
    rewrite H; auto; try lia.
    fold (row M a) in Hb. rewrite (wf_row Hwf) in Hb; lia.
Qed.

(** ** The tableau operations, entry by entry *)

Lemma twf_X m n t : twf m n t -> wf m n (tX t).
Proof. now intros [? _]. Qed.

Lemma twf_Z m n t : twf m n t -> wf m n (tZ t).
Proof. now intros (_ & ? & _). Qed.

Lemma twf_S m n t : twf m n t -> length (tS t) = m.
Proof. now intros (_ & _ & ?). Qed.

Create HintDb twf.
#[local] Hint Resolve twf_X twf_Z twf_S : twf.

Lemma length_col_X m n t j : twf m n t -> length (col (tX t) j) = m.
Proof. intros H. rewrite length_col. apply H. Qed.

Lemma length_col_Z m n t j : twf m n t -> length (col (tZ t) j) = m.
Proof. intros H. rewrite length_col. apply H. Qed.

Lemma twf_h m n t i : twf m n t -> twf m n (h t i).
Proof.
  intros H. pose proof (length_col_X i H). pose proof (length_col_Z i H).
  destruct H as (HX & HZ & HS). unfold h; split; [|split]; simpl.
  - apply wf_set_col; auto.
  - apply wf_set_col; auto.
  - rewrite length_lx, length_la. lia.
Qed.

Lemma getX_h m n t i a b :
  twf m n t -> i < n -> a < m ->
  get (tX (h t i)) a b = if b =? i then get (tZ t) a i else get (tX t) a b.
Proof.
  intros H Hi Ha. simpl.
  rewrite (@get_set_col m n); eauto with twf.
  - now rewrite nth_col.
  - eapply length_col_Z; eauto.
Qed.

Lemma getZ_h m n t i a b :
  twf m n t -> i < n -> a < m ->
  get (tZ (h t i)) a b = if b =? i then get (tX t) a i else get (tZ t) a b.
Proof.
  intros H Hi Ha. simpl.
  rewrite (@get_set_col m n); eauto with twf.
  - now rewrite nth_col.
  - eapply length_col_X; eauto.
Qed.

Lemma twf_s m n t i : twf m n t -> twf m n (s t i).
Proof.
  intros H. pose proof (length_col_X i H). pose proof (length_col_Z i H).
  destruct H as (HX & HZ & HS). unfold s; split; [|split]; simpl; auto.
  - apply wf_set_col; auto. rewrite length_lx. lia.
  - rewrite length_lx, length_la. lia.
Qed.

Lemma getX_s t i a b : get (tX (s t i)) a b = get (tX t) a b.
Proof. reflexivity. Qed.

Lemma getZ_s m n t i a b :
  twf m n t -> i < n -> a < m ->
  get (tZ (s t i)) a b =
  if b =? i then xorb (get (tZ t) a i) (get (tX t) a i) else get (tZ t) a b.
Proof.
  intros H Hi Ha. pose proof (length_col_X i H). pose proof (length_col_Z i H).
  simpl. rewrite (@get_set_col m n); eauto with twf.
  - rewrite nth_lx by lia. now rewrite !nth_col.
  - rewrite length_lx. lia.
Qed.

Lemma twf_cnot m n t i j : twf m n t -> twf m n (cnot t i j).
Proof.
  intros H.
  pose proof (length_col_X i H). pose proof (length_col_Z i H).
  pose proof (length_col_X j H). pose proof (length_col_Z j H).
  destruct H as (HX & HZ & HS). unfold cnot; split; [|split]; simpl; auto.
  - apply wf_set_col; auto. rewrite length_lx. lia.
  - apply wf_set_col; auto. rewrite length_lx. lia.
  - rewrite !length_lx, !length_la, !length_lx, repeat_length. lia.
Qed.

Lemma getX_cnot m n t i j a b :
  twf m n t -> j < n -> a < m ->
  get (tX (cnot t i j)) a b =
  if b =? j then xorb (get (tX t) a j) (get (tX t) a i) else get (tX t) a b.
Proof.
  intros H Hj Ha. pose proof (length_col_X i H). pose proof (length_col_X j H).
  simpl. rewrite (@get_set_col m n); eauto with twf.
  - rewrite nth_lx by lia. now rewrite !nth_col.
  - rewrite length_lx. lia.
Qed.

Lemma getZ_cnot m n t i j a b :
  twf m n t -> i < n -> a < m ->
  get (tZ (cnot t i j)) a b =
  if b =? i then xorb (get (tZ t) a i) (get (tZ t) a j) else get (tZ t) a b.
Proof.
  intros H Hj Ha. pose proof (length_col_Z i H). pose proof (length_col_Z j H).
  simpl. rewrite (@get_set_col m n); eauto with twf.
  - rewrite nth_lx by lia. now rewrite !nth_col.
  - rewrite length_lx. lia.
Qed.

Lemma twf_cz m n t i j : twf m n t -> twf m n (cz t i j).
Proof. intros H. unfold cz. now apply twf_h, twf_cnot, twf_h. Qed.

Lemma getX_cz m n t i j a b :
  twf m n t -> i < n -> j < n -> i <> j -> a < m ->
  get (tX (cz t i j)) a b = get (tX t) a b.
Proof.
  intros H Hi Hj Hij Ha. unfold cz.
  rewrite (@getX_h m n); auto using twf_cnot, twf_h.
  rewrite (@getZ_cnot m n); auto using twf_h.
  rewrite (@getX_cnot m n); auto using twf_h.
  rewrite !(@getZ_h m n), !(@getX_h m n); auto.
  rewrite Nat.eqb_refl.
  destruct (Nat.eqb_spec b j) as [->|Hb]; auto.
  destruct (Nat.eqb_spec j i); [lia|]. reflexivity.
Qed.

Lemma getZ_cz m n t i j a b :
  twf m n t -> i < n -> j < n -> i <> j -> a < m ->
  get (tZ (cz t i j)) a b =
  if b =? i then xorb (get (tZ t) a i) (get (tX t) a j)
  else if b =? j then xorb (get (tZ t) a j) (get (tX t) a i)
  else get (tZ t) a b.
Proof.
  intros H Hi Hj Hij Ha. unfold cz.
  rewrite (@getZ_h m n); auto using twf_cnot, twf_h.
  rewrite (@getX_cnot m n); auto using twf_h.
  rewrite (@getZ_cnot m n); auto using twf_h.
  rewrite !(@getZ_h m n), !(@getX_h m n); auto.
  rewrite Nat.eqb_refl.
  destruct (Nat.eqb_spec i j); [lia|].
  destruct (Nat.eqb_spec b j) as [->|Hb].
  - destruct (Nat.eqb_spec j i); [lia|]. reflexivity.
  - destruct (Nat.eqb_spec b i) as [->|Hb']; auto.
Qed.

Lemma twf_swap_rows_t m n t i k :
  twf m n t -> i < m -> k < m -> twf m n (swap_rows_t t i k).
Proof.
  intros (HX & HZ & HS) Hi Hk. unfold swap_rows_t; split; [|split]; simpl.
  - now apply wf_swap_rows.
  - now apply wf_swap_rows.
  - now rewrite !length_set_nth.
Qed.

Lemma twf_swap_cols_t m n t j k : twf m n t -> twf m n (swap_cols_t t j k).
Proof.
  intros (HX & HZ & HS). unfold swap_cols_t; split; [|split]; simpl; auto using wf_swap_cols.
Qed.

(** *** [sweep_rows] *)

Lemma g_odd (x1 z1 x2 z2 : bool) :
  Z.odd (g (int x1) (int z1) (int x2) (int z2)) = xorb (x1 && z2) (z1 && x2).
Proof. destruct x1, z1, x2, z2; reflexivity. Qed.

Lemma zsum_app l l' : zsum (l ++ l') = (zsum l + zsum l')%Z.
Proof.
  assert (H : forall l z, fold_left Z.add l z = (z + fold_left Z.add l 0)%Z).
  { clear. induction l as [|x l IH]; simpl; intros z.
    - lia.
    - rewrite IH. rewrite (IH x). lia. }
  unfold zsum. rewrite fold_left_app. apply H.
Qed.

Lemma zsum_odd (f : nat -> Z) n :
  Z.odd (zsum (map f (range 0 n))) = xsum (fun k => Z.odd (f k)) n.
Proof.
  unfold range. rewrite Nat.sub_0_r. induction n as [|n IH]; auto.
  rewrite seq_S, map_app, zsum_app. simpl.
  rewrite Z.odd_add, IH. f_equal.
Qed.

Lemma sweep_t_odd n t i j :
  ncols (tX t) = n -> Z.odd (sweep_t t i j) = sp n t i j.
Proof.
  intros Hn. unfold sweep_t, sp, spf. rewrite Hn.
  rewrite !Z.odd_add, !Z.odd_mul. simpl. rewrite zsum_odd. clear Hn.
  induction n as [|k IH]; simpl; auto.
  rewrite g_odd. f_equal. apply IH.
Qed.

Lemma even_mod4 (u : Z) :
  Z.odd u = false -> (u mod 4 = 0 \/ u mod 4 = 2)%Z.
Proof.
  intros Hu. rewrite <- Z.negb_even in Hu. apply negb_false_iff in Hu.
  apply Z.even_spec in Hu. destruct Hu as [k ->].
  pose proof (Z.mod_pos_bound (2 * k) 4 ltac:(lia)).
  pose proof (Z.div_mod (2 * k) 4 ltac:(lia)). lia.
Qed.

Lemma ncols_wf m n M : wf m n M -> 0 < m -> ncols M = n.
Proof. intros H Hm. unfold ncols. now apply (wf_row H). Qed.

(** on commuting rows [sweep_rows] returns, and adds row [i] to row [j] *)
Lemma sweep_rows_ok m n t i j :
  twf m n t -> i < m -> j < m -> sp n t i j = false ->
  exists t', sweep_rows t i j = Ok t' /\ twf m n t' /\
    forall a b,
      get (tX t') a b = (if a =? j then xorb (get (tX t) j b) (get (tX t) i b)
                         else get (tX t) a b) /\
      get (tZ t') a b = (if a =? j then xorb (get (tZ t) j b) (get (tZ t) i b)
                         else get (tZ t) a b).
Proof.
  intros H Hi Hj Hsp. pose proof H as (HX & HZ & HS).
  assert (Hodd : Z.odd (sweep_t t i j) = false).
  { rewrite (@sweep_t_odd n); auto. eapply ncols_wf; eauto. lia. }
  unfold sweep_rows.
  assert (Hrows : forall M, wf m n M ->
            wf m n (set_row M j (lx (row M j) (row M i))) /\
            forall a b, get (set_row M j (lx (row M j) (row M i))) a b =
                        if a =? j then xorb (get M j b) (get M i b) else get M a b).
  { intros M HM. pose proof (wf_row HM Hi). pose proof (wf_row HM Hj). split.
    - apply wf_set_row; auto. rewrite length_lx. lia.
    - intros a b. rewrite (@get_set_row m n); auto.
      destruct (a =? j); auto. apply nth_lx. lia. }
  destruct (even_mod4 _ Hodd) as [E|E]; rewrite E; simpl;
    eexists; (split; [reflexivity|]); (split; [split; [|split]|]); simpl;
    try apply Hrows; auto; try (rewrite length_set_nth; auto);
    intros a b; split; apply Hrows; auto.
Qed.

(** ** Sums modulo 2 *)

Lemma xsum_ext f f' n :
  (forall k, k < n -> f k = f' k) -> xsum f n = xsum f' n.
Proof.
  induction n as [|n IH]; simpl; intros H; auto.
  rewrite IH, H; auto.
Qed.

Lemma xsum_false n : xsum (fun _ => false) n = false.
Proof. induction n as [|n IH]; simpl; auto. now rewrite IH. Qed.

Lemma xsum_false_ext f n :
  (forall k, k < n -> f k = false) -> xsum f n = false.
Proof. intros H. rewrite (xsum_ext f (fun _ => false)); auto using xsum_false. Qed.

Lemma xsum_xor f f' n :
  xsum (fun k => xorb (f k) (f' k)) n = xorb (xsum f n) (xsum f' n).
Proof.
  induction n as [|n IH]; simpl; auto. rewrite IH.
  destruct (xsum f n), (xsum f' n), (f n), (f' n); reflexivity.
Qed.

Lemma xsum_and_l c f n :
  xsum (fun k => c && f k) n = c && xsum f n.
Proof.
  induction n as [|n IH]; simpl.
  - now destruct c.
  - rewrite IH. destruct c; reflexivity.
Qed.

Lemma xsum_and_r c f n :
  xsum (fun k => f k && c) n = xsum f n && c.
Proof.
  induction n as [|n IH]; simpl; auto.
  rewrite IH. destruct c, (xsum f n), (f n); reflexivity.
Qed.

Lemma xsum_and_xor c f f' n :
  xsum (fun k => c k && xorb (f k) (f' k)) n =
  xorb (xsum (fun k => c k && f k) n) (xsum (fun k => c k && f' k) n).
Proof.
  rewrite <- xsum_xor. apply xsum_ext. intros k _.
  destruct (c k), (f k), (f' k); reflexivity.
Qed.

(** the term [i] taken out of the sum *)
Lemma xsum_split f n i :
  i < n ->
  xsum f n = xorb (f i) (xsum (fun k => if k =? i then false else f k) n).
Proof.
  induction n as [|n IH]; simpl; intros Hi; [lia|].
  destruct (Nat.eqb_spec n i) as [->|Hn].
  - rewrite (xsum_ext (fun k => if k =? i then false else f k) f).
    + destruct (f i), (xsum f i); reflexivity.
    + intros k Hk. destruct (Nat.eqb_spec k i); auto; lia.
  - rewrite IH by lia.
    destruct (f i), (f n), (xsum (fun k => if k =? i then false else f k) n); reflexivity.
Qed.

Lemma xsum_single f n i :
  i < n -> xsum (fun k => (k =? i) && f k) n = f i.
Proof.
  intros Hi. rewrite (xsum_split _ Hi), Nat.eqb_refl. simpl.
  rewrite xsum_false_ext; [now destruct (f i)|].
  intros k _. now destruct (k =? i).
Qed.

(** a sum is invariant under the exchange of two indices *)
Lemma xsum_transp f n j k :
  j < n -> k < n -> xsum (fun x => f (transp j k x)) n = xsum f n.
Proof.
  intros Hj Hk. unfold transp. destruct (Nat.eq_dec j k) as [->|Hjk].
  - apply xsum_ext. intros x _. destruct (Nat.eqb_spec x k); congruence.
  - rewrite (xsum_split _ Hj), (xsum_split f Hj).
    rewrite (xsum_split _ Hk), (xsum_split (fun x => if x =? j then false else f x) Hk).
    rewrite !Nat.eqb_refl.
    destruct (Nat.eqb_spec j k); [lia|]. destruct (Nat.eqb_spec k j); [lia|].
    rewrite (xsum_ext
               (fun x => if x =? k then false else if x =? j then false
                         else f (if x =? k then j else if x =? j then k else x))
               (fun x => if x =? k then false else if x =? j then false else f x)).
    + destruct (f j), (f k),
        (xsum (fun x => if x =? k then false else if x =? j then false else f x) n);
        reflexivity.
    + intros x _. destruct (x =? k); auto. destruct (x =? j); auto.

Qed.

Lemma xsum_exchange (F : nat -> nat -> bool) m k :
  xsum (fun i => xsum (fun t => F i t) k) m =
  xsum (fun t => xsum (fun i => F i t) m) k.
Proof.
  induction m as [|m IH]; simpl.
  - now rewrite xsum_false.
  - rewrite IH, <- xsum_xor. reflexivity.
Qed.

(** ** The symplectic product *)

Lemma sp_sym n t a b : sp n t a b = sp n t b a.
Proof.
  unfold sp, spf. apply xsum_ext. intros k _.
  destruct (get (tX t) a k), (get (tZ t) b k), (get (tZ t) a k), (get (tX t) b k);
    reflexivity.
Qed.

Lemma sp_self n t a : sp n t a a = false.
Proof.
  unfold sp, spf. apply xsum_false_ext. intros k _.
  destruct (get (tX t) a k), (get (tZ t) a k); reflexivity.
Qed.

(** two tableaux with the same entries have the same products *)
Lemma sp_ext n t t' a b :
  (forall k, k < n ->
     get (tX t') a k = get (tX t) a k /\ get (tZ t') a k = get (tZ t) a k /\
     get (tX t') b k = get (tX t) b k /\ get (tZ t') b k = get (tZ t) b k) ->
  sp n t' a b = sp n t a b.
Proof.
  intros H. unfold sp, spf. apply xsum_ext. intros k Hk.
  destruct (H k Hk) as (-> & -> & -> & ->). reflexivity.
Qed.

Lemma count_true_odd l :
  Nat.odd (count_true l) = xsum (fun k => nth k l false) (length l).
Proof.
  unfold count_true. induction l as [|b l IH] using rev_ind; auto.
  rewrite filter_app, !length_app, Nat.add_comm with (m := length [b]). simpl.
  rewrite (xsum_ext _ (fun k => nth k l false)).
  2:{ intros k Hk. now rewrite app_nth1. }
  rewrite <- IH. rewrite nth_middle.
  destruct b; simpl.
  - rewrite Nat.add_1_r, Nat.odd_succ, <- Nat.negb_odd.
    now destruct (Nat.odd (length (filter (fun b => b) l))).
  - rewrite Nat.add_0_r. now destruct (Nat.odd _).
Qed.

Lemma mod2_eqb_odd a b :
  (a mod 2 =? b mod 2) = negb (xorb (Nat.odd a) (Nat.odd b)).
Proof.
  rewrite <- !Nat.bit0_mod, !Nat.bit0_odd.
  now destruct (Nat.odd a), (Nat.odd b).
Qed.

(** Qiskit's test on two Pauli operators of [n] qubits is the symplectic
    product of their rows *)
Lemma commutes_sp n (p q : Pauli) :
  length (px p) = n -> length (pz p) = n ->
  length (px q) = n -> length (pz q) = n ->
  commutes p q =
  negb (xsum (fun k => xorb (nth k (px p) false && nth k (pz q) false)
                            (nth k (pz p) false && nth k (px q) false)) n).
Proof.
  intros H1 H2 H3 H4. unfold commutes.
  rewrite mod2_eqb_odd, !count_true_odd, !length_la, H1, H2, H3, H4, Nat.min_id.
  f_equal. rewrite <- xsum_xor. apply xsum_ext. intros k _.
  rewrite !nth_la by congruence.
  destruct (nth k (px p) false), (nth k (pz q) false), (nth k (pz p) false),
    (nth k (px q) false); reflexivity.
Qed.

(** ** Row and column operations keep the rows commuting *)

Lemma xsum_two f f' n i j :
  i < n -> j < n -> i <> j ->
  (forall k, k < n -> k <> i -> k <> j -> f' k = f k) ->
  xorb (f' i) (f' j) = xorb (f i) (f j) ->
  xsum f' n = xsum f n.
Proof.
  intros Hi Hj Hij Hk Hx.
  rewrite (xsum_split f' Hi), (xsum_split f Hi).
  rewrite (xsum_split (fun k => if k =? i then false else f' k) Hj),
          (xsum_split (fun k => if k =? i then false else f k) Hj).
  destruct (Nat.eqb_spec j i); [lia|].
  rewrite (xsum_ext
             (fun k => if k =? j then false else if k =? i then false else f' k)
             (fun k => if k =? j then false else if k =? i then false else f k)).
  - rewrite <- (xorb_assoc_reverse (f' i)), <- (xorb_assoc_reverse (f i)), Hx. reflexivity.
  - intros k Hlt. destruct (Nat.eqb_spec k j); auto.
    destruct (Nat.eqb_spec k i); auto.
Qed.

Lemma spf_ext n xa za xb zb xa' za' xb' zb' :
  (forall k, k < n -> xa' k = xa k) -> (forall k, k < n -> za' k = za k) ->
  (forall k, k < n -> xb' k = xb k) -> (forall k, k < n -> zb' k = zb k) ->
  spf n xa' za' xb' zb' = spf n xa za xb zb.
Proof.
  intros H1 H2 H3 H4. unfold spf. apply xsum_ext. intros k Hk.
  now rewrite H1, H2, H3, H4.
Qed.

Lemma spf_sym n xa za xb zb : spf n xa za xb zb = spf n xb zb xa za.
Proof.
  unfold spf. apply xsum_ext. intros k _.
  destruct (xa k), (za k), (xb k), (zb k); reflexivity.
Qed.

Lemma spf_add_l n xa za xa' za' xb zb :
  spf n (fun k => xorb (xa k) (xa' k)) (fun k => xorb (za k) (za' k)) xb zb =
  xorb (spf n xa za xb zb) (spf n xa' za' xb zb).
Proof.
  unfold spf. rewrite <- xsum_xor. apply xsum_ext. intros k _.
  destruct (xa k), (za k), (xa' k), (za' k), (xb k), (zb k); reflexivity.
Qed.

Lemma spf_add_r n xa za xb zb xb' zb' :
  spf n xa za (fun k => xorb (xb k) (xb' k)) (fun k => xorb (zb k) (zb' k)) =
  xorb (spf n xa za xb zb) (spf n xa za xb' zb').
Proof.
  rewrite spf_sym, spf_add_l. f_equal; apply spf_sym.
Qed.

Lemma commuting_rowadd m n t t' i j :
  rowadd_of t t' i j -> i < m -> j < m ->
  commuting m n t -> commuting m n t'.
Proof.
  intros Hspec Hi Hj Hc a b Ha Hb. unfold sp.
  assert (Hrow : forall a,
            (forall k, get (tX t') a k =
               if a =? j then xorb (get (tX t) j k) (get (tX t) i k) else get (tX t) a k) /\
            (forall k, get (tZ t') a k =
               if a =? j then xorb (get (tZ t) j k) (get (tZ t) i k) else get (tZ t) a k)).
  { intros a0. split; intros k; apply Hspec. }
  pose proof (Hc j j Hj Hj) as Hjj. pose proof (Hc j i Hj Hi) as Hji.
  pose proof (Hc i j Hi Hj) as Hij. pose proof (Hc i i Hi Hi) as Hii.
  pose proof (Hc j b Hj Hb) as Hjb. pose proof (Hc i b Hi Hb) as Hib.
  pose proof (Hc a j Ha Hj) as Haj. pose proof (Hc a i Ha Hi) as Hai.
  pose proof (Hc a b Ha Hb) as Hab.
  unfold sp in *.
  destruct (Hrow a) as [HXa HZa]. destruct (Hrow b) as [HXb HZb].
  destruct (Nat.eqb_spec a j) as [->|Haj']; destruct (Nat.eqb_spec b j) as [->|Hbj'].
  - rewrite (@spf_ext n _ _ _ _ _ _ _ _ (fun k _ => HXa k) (fun k _ => HZa k)
                        (fun k _ => HXb k) (fun k _ => HZb k)).
    rewrite spf_add_l, !spf_add_r, Hjj, Hji, Hij, Hii. reflexivity.
  - rewrite (@spf_ext n _ _ _ _ _ _ _ _ (fun k _ => HXa k) (fun k _ => HZa k)
                        (fun k _ => HXb k) (fun k _ => HZb k)).
    rewrite spf_add_l, Hjb, Hib. reflexivity.
  - rewrite (@spf_ext n _ _ _ _ _ _ _ _ (fun k _ => HXa k) (fun k _ => HZa k)
                        (fun k _ => HXb k) (fun k _ => HZb k)).
    rewrite spf_add_r, Haj, Hai. reflexivity.
  - rewrite (@spf_ext n _ _ _ _ _ _ _ _ (fun k _ => HXa k) (fun k _ => HZa k)
                        (fun k _ => HXb k) (fun k _ => HZb k)).
    exact Hab.
Qed.

Lemma transp_lt j k x m : j < m -> k < m -> x < m -> transp j k x < m.
Proof.
  intros. unfold transp. destruct (x =? k); auto. destruct (x =? j); auto.
Qed.

Lemma transp_invol j k x : transp j k (transp j k x) = x.
Proof.
  unfold transp.
  destruct (Nat.eqb_spec x k) as [->|H1].
  - destruct (Nat.eqb_spec j k); [congruence|]. now rewrite Nat.eqb_refl.
  - destruct (Nat.eqb_spec x j) as [->|H2].
    + now rewrite Nat.eqb_refl.
    + destruct (Nat.eqb_spec x k); [lia|]. destruct (Nat.eqb_spec x j); [lia|]. auto.
Qed.

Lemma getX_swap_rows_t m n t i k a b :
  twf m n t -> i < m -> k < m ->
  get (tX (swap_rows_t t i k)) a b = get (tX t) (transp i k a) b.
Proof. intros H Hi Hk. simpl. erewrite get_swap_rows; eauto with twf. Qed.

Lemma getZ_swap_rows_t m n t i k a b :
  twf m n t -> i < m -> k < m ->
  get (tZ (swap_rows_t t i k)) a b = get (tZ t) (transp i k a) b.
Proof. intros H Hi Hk. simpl. erewrite get_swap_rows; eauto with twf. Qed.

Lemma getX_swap_cols_t m n t j k a b :
  twf m n t -> j < n -> k < n -> a < m ->
  get (tX (swap_cols_t t j k)) a b = get (tX t) a (transp j k b).
Proof. intros H Hi Hk Ha. simpl. erewrite get_swap_cols; eauto with twf. Qed.

Lemma getZ_swap_cols_t m n t j k a b :
  twf m n t -> j < n -> k < n -> a < m ->
  get (tZ (swap_cols_t t j k)) a b = get (tZ t) a (transp j k b).
Proof. intros H Hi Hk Ha. simpl. erewrite get_swap_cols; eauto with twf. Qed.

Lemma commuting_swap_rows_t m n t i k :
  twf m n t -> i < m -> k < m ->
  commuting m n t -> commuting m n (swap_rows_t t i k).
Proof.
  intros H Hi Hk Hc a b Ha Hb.
  rewrite <- (Hc (transp i k a) (transp i k b)) by (apply transp_lt; auto).
  unfold sp. apply spf_ext; intros x _;
    first [eapply getX_swap_rows_t | eapply getZ_swap_rows_t]; eauto.
Qed.

Lemma commuting_swap_cols_t m n t j k :
  twf m n t -> j < n -> k < n ->
  commuting m n t -> commuting m n (swap_cols_t t j k).
Proof.
  intros H Hj Hk Hc a b Ha Hb.
  rewrite <- (Hc a b Ha Hb). unfold sp, spf.
  rewrite <- (xsum_transp
                (fun k0 => xorb (get (tX t) a k0 && get (tZ t) b k0)
                                (get (tZ t) a k0 && get (tX t) b k0)) Hj Hk).
  apply xsum_ext. intros x _.
  rewrite !(@getX_swap_cols_t m n), !(@getZ_swap_cols_t m n); auto.
Qed.

Lemma commuting_h m n t i :
  twf m n t -> i < n -> commuting m n t -> commuting m n (h t i).
Proof.
  intros H Hi Hc a b Ha Hb.
  rewrite <- (Hc a b Ha Hb). unfold sp, spf. apply xsum_ext. intros k _.
  rewrite !(@getX_h m n), !(@getZ_h m n); auto.
  destruct (Nat.eqb_spec k i) as [->|]; auto.
  destruct (get (tX t) a i), (get (tZ t) b i), (get (tZ t) a i), (get (tX t) b i);
    reflexivity.
Qed.

Lemma commuting_s m n t i :
  twf m n t -> i < n -> commuting m n t -> commuting m n (s t i).
Proof.
  intros H Hi Hc a b Ha Hb.
  rewrite <- (Hc a b Ha Hb). unfold sp, spf. apply xsum_ext. intros k _.
  rewrite !getX_s, !(@getZ_s m n); auto.
  destruct (Nat.eqb_spec k i) as [->|]; auto.
  destruct (get (tX t) a i), (get (tZ t) b i), (get (tZ t) a i), (get (tX t) b i);
    reflexivity.
Qed.

Lemma commuting_cnot m n t i j :
  twf m n t -> i < n -> j < n -> i <> j ->
  commuting m n t -> commuting m n (cnot t i j).
Proof.
  intros H Hi Hj Hij Hc a b Ha Hb.
  rewrite <- (Hc a b Ha Hb). unfold sp, spf.
  apply (@xsum_two _ _ n i j); auto.
  - intros k Hk Hki Hkj.
    rewrite !(@getX_cnot m n), !(@getZ_cnot m n); auto.
    destruct (Nat.eqb_spec k j); [lia|]. destruct (Nat.eqb_spec k i); [lia|]. reflexivity.
  - rewrite !(@getX_cnot m n), !(@getZ_cnot m n); auto.
    rewrite !Nat.eqb_refl.
    destruct (Nat.eqb_spec i j); [lia|]. destruct (Nat.eqb_spec j i); [lia|].
    destruct (get (tX t) a i), (get (tZ t) b i), (get (tZ t) a i), (get (tX t) b i),
      (get (tX t) a j), (get (tZ t) b j), (get (tZ t) a j), (get (tX t) b j);
      reflexivity.
Qed.

Lemma commuting_cz m n t i j :
  twf m n t -> i < n -> j < n -> i <> j ->
  commuting m n t -> commuting m n (cz t i j).
Proof.
  intros H Hi Hj Hij Hc. unfold cz.
  apply commuting_h; auto using twf_cnot, twf_h.
  apply commuting_cnot; auto using twf_h.
  apply commuting_h; auto.
Qed.

(** ** The copies stay in the span of the working rows *)

Lemma spanned_refl m n t : spanned m n t t.
Proof.
  intros a Ha. exists (fun i => i =? a). intros b _.
  now rewrite !xsum_single.
Qed.

Lemma spanned_swap_rows_t m n t t2 i k :
  twf m n t -> i < m -> k < m ->
  spanned m n t t2 -> spanned m n (swap_rows_t t i k) t2.
Proof.
  intros H Hi Hk Hs a Ha. destruct (Hs a Ha) as [c Hc].
  exists (fun x => c (transp i k x)). intros b Hb.
  destruct (Hc b Hb) as [-> ->]. split.
  - rewrite <- (xsum_transp (fun x => c x && get (tX t) x b) Hi Hk).
    apply xsum_ext. intros x _. now rewrite (@getX_swap_rows_t m n).
  - rewrite <- (xsum_transp (fun x => c x && get (tZ t) x b) Hi Hk).
    apply xsum_ext. intros x _. now rewrite (@getZ_swap_rows_t m n).
Qed.

Lemma spanned_rowadd m n t t' t2 i j :
  rowadd_of t t' i j -> i < m -> j < m -> i <> j ->
  spanned m n t t2 -> spanned m n t' t2.
Proof.
  intros Hspec Hi Hj Hij Hs a Ha. destruct (Hs a Ha) as [c Hc].
  exists (fun x => if x =? i then xorb (c i) (c j) else c x). intros b Hb.
  destruct (Hc b Hb) as [-> ->].
  split; symmetry; apply (@xsum_two _ _ m i j); auto.
  - intros x Hx Hxi Hxj. destruct (Hspec x b) as [-> _].
    destruct (Nat.eqb_spec x i); [lia|]. destruct (Nat.eqb_spec x j); [lia|]. auto.
  - destruct (Hspec i b) as [-> _]. destruct (Hspec j b) as [-> _].
    rewrite !Nat.eqb_refl.
    destruct (Nat.eqb_spec i j); [lia|]. destruct (Nat.eqb_spec j i); [lia|].
    destruct (c i), (c j), (get (tX t) i b), (get (tX t) j b); reflexivity.
  - intros x Hx Hxi Hxj. destruct (Hspec x b) as [_ ->].
    destruct (Nat.eqb_spec x i); [lia|]. destruct (Nat.eqb_spec x j); [lia|]. auto.
  - destruct (Hspec i b) as [_ ->]. destruct (Hspec j b) as [_ ->].
    rewrite !Nat.eqb_refl.
    destruct (Nat.eqb_spec i j); [lia|]. destruct (Nat.eqb_spec j i); [lia|].
    destruct (c i), (c j), (get (tZ t) i b), (get (tZ t) j b); reflexivity.
Qed.

Lemma spanned_swap_cols_t m n t t2 j k :
  twf m n t -> twf m n t2 -> j < n -> k < n ->
  spanned m n t t2 -> spanned m n (swap_cols_t t j k) (swap_cols_t t2 j k).
Proof.
  intros H H2 Hj Hk Hs a Ha. destruct (Hs a Ha) as [c Hc].
  exists c. intros b Hb.
  rewrite (@getX_swap_cols_t m n), (@getZ_swap_cols_t m n); auto.
  destruct (Hc (transp j k b) (transp_lt Hj Hk Hb)) as [-> ->].
  split; apply xsum_ext; intros x Hx.
  - now rewrite (@getX_swap_cols_t m n).
  - now rewrite (@getZ_swap_cols_t m n).
Qed.

Lemma spanned_h m n t t2 i :
  twf m n t -> twf m n t2 -> i < n ->
  spanned m n t t2 -> spanned m n (h t i) (h t2 i).
Proof.
  intros H H2 Hi Hs a Ha. destruct (Hs a Ha) as [c Hc].
  exists c. intros b Hb.
  rewrite (@getX_h m n), (@getZ_h m n); auto.
  destruct (Hc b Hb) as [Eb1 Eb2]. destruct (Hc i Hi) as [Ei1 Ei2].
  split.
  - rewrite (xsum_ext _ (fun x => c x && if b =? i then get (tZ t) x i else get (tX t) x b)).
    + destruct (b =? i); auto.
    + intros x Hx. now rewrite (@getX_h m n).
  - rewrite (xsum_ext _ (fun x => c x && if b =? i then get (tX t) x i else get (tZ t) x b)).
    + destruct (b =? i); auto.
    + intros x Hx. now rewrite (@getZ_h m n).
Qed.

Lemma spanned_s m n t t2 i :
  twf m n t -> twf m n t2 -> i < n ->
  spanned m n t t2 -> spanned m n (s t i) (s t2 i).
Proof.
  intros H H2 Hi Hs a Ha. destruct (Hs a Ha) as [c Hc].
  exists c. intros b Hb.
  rewrite getX_s, (@getZ_s m n); auto.
  destruct (Hc b Hb) as [Eb1 Eb2]. destruct (Hc i Hi) as [Ei1 Ei2].
  split; auto.
  rewrite (xsum_ext _ (fun x => c x && if b =? i
                                       then xorb (get (tZ t) x i) (get (tX t) x i)
                                       else get (tZ t) x b)).
  - destruct (b =? i); auto. now rewrite xsum_and_xor, Ei1, Ei2.
  - intros x Hx. now rewrite (@getZ_s m n).
Qed.

Lemma spanned_cnot m n t t2 i j :
  twf m n t -> twf m n t2 -> i < n -> j < n ->
  spanned m n t t2 -> spanned m n (cnot t i j) (cnot t2 i j).
Proof.
  intros H H2 Hi Hj Hs a Ha. destruct (Hs a Ha) as [c Hc].
  exists c. intros b Hb.
  rewrite (@getX_cnot m n), (@getZ_cnot m n); auto.
  destruct (Hc b Hb) as [Eb1 Eb2]. destruct (Hc i Hi) as [Ei1 Ei2].
  destruct (Hc j Hj) as [Ej1 Ej2].
  split.
  - rewrite (xsum_ext _ (fun x => c x && if b =? j
                                         then xorb (get (tX t) x j) (get (tX t) x i)
                                         else get (tX t) x b)).
    + destruct (b =? j); auto. now rewrite xsum_and_xor, Ei1, Ej1.
    + intros x Hx. now rewrite (@getX_cnot m n).
  - rewrite (xsum_ext _ (fun x => c x && if b =? i
                                         then xorb (get (tZ t) x i) (get (tZ t) x j)
                                         else get (tZ t) x b)).
    + destruct (b =? i); auto. now rewrite xsum_and_xor, Ei2, Ej2.
    + intros x Hx. now rewrite (@getZ_cnot m n).
Qed.

Lemma spanned_cz m n t t2 i j :
  twf m n t -> twf m n t2 -> i < n -> j < n ->
  spanned m n t t2 -> spanned m n (cz t i j) (cz t2 i j).
Proof.
  intros H H2 Hi Hj Hs. unfold cz.
  apply spanned_h; auto using twf_cnot, twf_h.
  apply spanned_cnot; auto using twf_h.
  apply spanned_h; auto.
Qed.

(** when the working X is zero, so is the X of the copies *)
Lemma spanned_zero m n t t2 :
  spanned m n t t2 ->
  (forall a b, a < m -> b < n -> get (tX t) a b = false) ->
  forall a b, a < m -> b < n -> get (tX t2) a b = false.
Proof.
  intros Hs Hz a b Ha Hb. destruct (Hs a Ha) as [c Hc].
  destruct (Hc b Hb) as [-> _]. apply xsum_false_ext.
  intros i Hi. rewrite Hz; auto. now destruct (c i).
Qed.

(** ** The rank bound under row and column operations *)

Lemma rank_le_rows m n M M' r :
  (forall a, a < m ->
     exists a1 a2 (u : bool), a1 < m /\ a2 < m /\
       forall b, b < n -> get M' a b = xorb (get M a1 b) (u && get M a2 b)) ->
  rank_le m n M r -> rank_le m n M' r.
Proof.
  intros Hrows (k & B & Hk & HB). exists k, B. split; auto.
  intros a Ha. destruct (Hrows a Ha) as (a1 & a2 & u & H1 & H2 & Hab).
  destruct (HB a1 H1) as [c1 Hc1]. destruct (HB a2 H2) as [c2 Hc2].
  exists (fun i => xorb (c1 i) (u && c2 i)). intros b Hb.
  rewrite Hab, Hc1, Hc2; auto.
  rewrite <- xsum_and_l, <- xsum_xor. apply xsum_ext. intros i _.
  destruct (c1 i), (c2 i), u, (B i b); reflexivity.
Qed.

Lemma rank_le_cols m n M M' r j k :
  j < n -> k < n ->
  (forall a b, a < m -> b < n -> get M' a b = get M a (transp j k b)) ->
  rank_le m n M r -> rank_le m n M' r.
Proof.
  intros Hj Hk Hcols (s & B & Hs & HB).
  exists s, (fun i b => B i (transp j k b)). split; auto.
  intros a Ha. destruct (HB a Ha) as [c Hc]. exists c. intros b Hb.
  rewrite Hcols, Hc; auto. now apply transp_lt.
Qed.

(** ** Loops *)

Lemma forM_seq_inv S (Inv : nat -> S -> Prop) (body : nat -> S -> result S) d :
  forall a st,
    Inv a st ->
    (forall i st, a <= i < a + d -> Inv i st ->
                  exists st', body i st = Ok st' /\ Inv (Datatypes.S i) st') ->
    exists st', forM (seq a d) body st = Ok st' /\ Inv (a + d) st'.
Proof.
  induction d as [|d IH]; intros a st H0 Hstep; simpl.
  - exists st. now rewrite Nat.add_0_r.
  - destruct (Hstep a st ltac:(lia) H0) as (st1 & -> & H1). simpl.
    destruct (IH (Datatypes.S a) st1 H1) as (st' & E & H').
    + intros i st2 Hi. apply Hstep. lia.
    + exists st'. split; auto. now rewrite Nat.add_succ_r.
Qed.

Lemma fold_seq_inv S (Inv : nat -> S -> Prop) (body : S -> nat -> S) d :
  forall a st,
    Inv a st ->
    (forall i st, a <= i < a + d -> Inv i st -> Inv (Datatypes.S i) (body st i)) ->
    Inv (a + d) (fold_left body (seq a d) st).
Proof.
  induction d as [|d IH]; intros a st H0 Hstep; simpl.
  - now rewrite Nat.add_0_r.
  - rewrite <- Nat.add_succ_comm. apply IH.
    + apply Hstep; auto. lia.
    + intros i st2 Hi. apply Hstep. lia.
Qed.

Lemma range_inv_forM S (Inv : nat -> S -> Prop) (body : nat -> S -> result S) a b st :
  a <= b -> Inv a st ->
  (forall i st, a <= i < b -> Inv i st ->
                exists st', body i st = Ok st' /\ Inv (Datatypes.S i) st') ->
  exists st', forM (range a b) body st = Ok st' /\ Inv b st'.
Proof.
  intros Hab H0 Hstep. unfold range.
  destruct (@forM_seq_inv S Inv body (b - a) a st H0) as (st' & E & H').
  - intros i st1 Hi. apply Hstep. lia.
  - exists st'. split; auto. now replace (a + (b - a)) with b in H' by lia.
Qed.

Lemma range_inv_fold S (Inv : nat -> S -> Prop) (body : S -> nat -> S) a b st :
  a <= b -> Inv a st ->
  (forall i st, a <= i < b -> Inv i st -> Inv (Datatypes.S i) (body st i)) ->
  Inv b (fold_left body (range a b) st).
Proof.
  intros Hab H0 Hstep. unfold range.
  assert (H' : Inv (a + (b - a)) (fold_left body (seq a (b - a)) st)).
  { apply fold_seq_inv; auto. intros i st1 Hi. apply Hstep. lia. }
  now replace (a + (b - a)) with b in H' by lia.
Qed.

Lemma range_empty a b : b <= a -> range a b = [].
Proof. intros H. unfold range. now replace (b - a) with 0 by lia. Qed.

(** ** The pivot search *)

Lemma find_range_some (f : nat -> bool) a b j :
  find f (range a b) = Some j -> a <= j < b /\ f j = true.
Proof.
  intros H. apply find_some in H. destruct H as [Hin Hf].
  unfold range in Hin. apply in_seq in Hin. split; auto. lia.
Qed.

Lemma find_range_none (f : nat -> bool) a b :
  find f (range a b) = None -> forall j, a <= j < b -> f j = false.
Proof.
  intros H j Hj. apply (find_none _ _ H). unfold range. apply in_seq. lia.
Qed.

Lemma first_in_rows_some M k rows i j :
  first_in_rows M k rows = Some (i, j) ->
  In i rows /\ k <= j < ncols M /\ get M i j = true.
Proof.
  induction rows as [|r rows IH]; simpl; [discriminate|].
  destruct (find (fun j => get M r j) (range k (ncols M))) as [j'|] eqn:E.
  - intros [= <- <-]. apply find_range_some in E. tauto.
  - intros H. apply IH in H. tauto.
Qed.

Lemma first_in_rows_none M k rows :
  first_in_rows M k rows = None ->
  forall i j, In i rows -> k <= j < ncols M -> get M i j = false.
Proof.
  induction rows as [|r rows IH]; simpl; [tauto|].
  destruct (find (fun j => get M r j) (range k (ncols M))) as [j'|] eqn:E; [discriminate|].
  intros H i j [<-|Hin] Hj.
  - eapply find_range_none; eauto.
  - now apply IH.
Qed.

Lemma find_pivot_some m n M k i j :
  wf m n M -> find_pivot M k = Some (i, j) ->
  k <= i < m /\ k <= j < n /\ get M i j = true.
Proof.
  intros Hwf H. unfold find_pivot in H. apply first_in_rows_some in H.
  destruct H as (Hin & Hj & Hg). unfold range in Hin. apply in_seq in Hin.
  pose proof Hwf as [Hm _]. unfold nrows in Hin.
  rewrite (ncols_wf Hwf) in Hj by lia. repeat split; auto; lia.
Qed.

Lemma find_pivot_none m n M k :
  wf m n M -> find_pivot M k = None -> zero_from m n k M.
Proof.
  intros Hwf H a b Ha Hb. unfold find_pivot in H.
  eapply first_in_rows_none; eauto.
  - unfold range, nrows. apply in_seq. destruct Hwf as [-> _]. lia.
  - rewrite (ncols_wf Hwf); lia.
Qed.

(** ** The diagonalization loops *)

Ltac nat_cases :=
  repeat match goal with
         | |- context [?a =? ?b] => destruct (Nat.eqb_spec a b); try lia
         | |- context [?a <? ?b] => destruct (Nat.ltb_spec a b); try lia
         | |- context [?a <=? ?b] => destruct (Nat.leb_spec a b); try lia
         | H : context [?a =? ?b] |- _ => destruct (Nat.eqb_spec a b); try lia
         | H : context [?a <? ?b] |- _ => destruct (Nat.ltb_spec a b); try lia
         end.

Lemma get_sel_overflow m n sel t a b :
  sel = tX \/ sel = tZ -> twf m n t -> m <= a -> get (sel t) a b = false.
Proof.
  intros [-> | ->] H Ha; eapply get_overflow_row; eauto with twf.
Qed.

Lemma sweep_column_ok m n sel t t2 k :
  sel = tX \/ sel = tZ ->
  twf m n t -> k < m -> commuting m n t -> spanned m n t t2 ->
  exists t', sweep_column sel k t = Ok t' /\ twf m n t' /\ commuting m n t' /\
             spanned m n t' t2 /\
    forall a b,
      get (tX t') a b = xorb (get (tX t) a b)
                             (negb (a =? k) && get (sel t) a k && get (tX t) k b) /\
      get (tZ t') a b = xorb (get (tZ t) a b)
                             (negb (a =? k) && get (sel t) a k && get (tZ t) k b).
Proof.
  intros Hsel H Hk Hc Hs. unfold sweep_column.
  assert (Hrows : nrows (sel t) = m) by (destruct Hsel as [-> | ->]; apply H).
  rewrite Hrows.
  pose (Inv := fun (L : nat) (u : tableau) =>
    twf m n u /\ commuting m n u /\ spanned m n u t2 /\
    forall a b,
      get (tX u) a b = xorb (get (tX t) a b)
                         ((a <? L) && negb (a =? k) && get (sel t) a k && get (tX t) k b) /\
      get (tZ u) a b = xorb (get (tZ t) a b)
                         ((a <? L) && negb (a =? k) && get (sel t) a k && get (tZ t) k b)).
  destruct (@range_inv_forM tableau Inv
              (fun l u => if l =? k then Ok u
                          else if get (sel u) l k then sweep_rows u k l else Ok u)
              0 m t) as (t' & E & H').
  - lia.
  - split; [|split; [|split]]; auto.
    intros a b. change (a <? 0) with false. simpl. now rewrite !xorb_false_r.
  - intros l u Hl (Hu & Hcu & Hsu & Hg).
    assert (Hsame : get (sel u) l k = get (sel t) l k).
    { destruct Hsel as [-> | ->]; [destruct (Hg l k) as [-> _] | destruct (Hg l k) as [_ ->]];
        rewrite Nat.ltb_irrefl; simpl; now rewrite xorb_false_r. }
    destruct (Nat.eqb_spec l k) as [->|Hlk].
    + exists u. split; auto. split; [|split; [|split]]; auto.
      intros a b. destruct (Hg a b) as [-> ->]. split; nat_cases; reflexivity.
    + rewrite Hsame. destruct (get (sel t) l k) eqn:Eg.
      * destruct (@sweep_rows_ok m n u k l) as (u' & -> & Hu' & Hspec); auto; try lia.
        { apply Hcu; lia. }
        exists u'. split; auto.
        assert (Hra : rowadd_of u u' k l) by exact Hspec.
        split; [|split; [|split]]; eauto using commuting_rowadd.
        -- eapply commuting_rowadd; eauto; lia.
        -- eapply spanned_rowadd; eauto; lia.
        -- intros a b. destruct (Hspec a b) as [-> ->].
           destruct (Hg a b) as [-> ->]. destruct (Hg l b) as [-> ->].
           destruct (Hg k b) as [-> ->].
           split; nat_cases; try (assert (a = l) by lia); subst; rewrite ?Eg; simpl;
             rewrite ?xorb_false_r, ?andb_false_r; auto.
      * exists u. split; auto. split; [|split; [|split]]; auto.
        intros a b. destruct (Hg a b) as [-> ->].
        split; nat_cases; try (assert (a = l) by lia); subst; rewrite ?Eg;
          simpl; rewrite ?andb_false_r; reflexivity.
  - exists t'. destruct H' as (Ht' & Hct' & Hst' & Hg).
    split; [|split; [|split; [|split]]]; auto.
    intros a b. destruct (Hg a b) as [-> ->].
    split; nat_cases; try reflexivity;
      rewrite (@get_sel_overflow m n sel t a k); auto;
      now rewrite andb_false_r.
Qed.

Section Stages.

Context {C : Type}.

Lemma transp_same k x : transp k k x = x.
Proof. unfold transp. destruct (Nat.eqb_spec x k); auto. Qed.

Lemma get_sel_swap_rows_t m n sel t i k a b :
  sel = tX \/ sel = tZ -> twf m n t -> i < m -> k < m ->
  get (sel (swap_rows_t t i k)) a b = get (sel t) (transp i k a) b.
Proof.
  intros [-> | ->] H Hi Hk;
    [eapply getX_swap_rows_t | eapply getZ_swap_rows_t]; eauto.
Qed.

Lemma get_sel_swap_cols_t m n sel t j k a b :
  sel = tX \/ sel = tZ -> twf m n t -> j < n -> k < n -> a < m ->
  get (sel (swap_cols_t t j k)) a b = get (sel t) a (transp j k b).
Proof.
  intros [-> | ->] H Hi Hk Ha;
    [eapply getX_swap_cols_t | eapply getZ_swap_cols_t]; eauto.
Qed.

Lemma pivot_ok m n sel k i j (w : work (C:=C)) :
  sel = tX \/ sel = tZ ->
  twf m n (wT w) -> twf m n (wT2 w) ->
  commuting m n (wT w) -> spanned m n (wT w) (wT2 w) ->
  k <= i < m -> k <= j < n ->
  exists w', pivot sel k i j w = Ok w' /\
    twf m n (wT w') /\ twf m n (wT2 w') /\
    commuting m n (wT w') /\ spanned m n (wT w') (wT2 w') /\
    pivot_rel sel m n k i j (wT w) (wT w').
Proof.
  intros Hsel H H2 Hc Hs Hi Hj. unfold pivot.
  set (w1 := if negb (i =? k) then Work (swap_rows_t (wT w) i k) (wT2 w) (wqc w) else w).
  assert (H1 : twf m n (wT w1) /\ wT2 w1 = wT2 w /\ commuting m n (wT w1) /\
               spanned m n (wT w1) (wT2 w) /\
               forall a b, get (tX (wT w1)) a b = get (tX (wT w)) (transp i k a) b /\
                           get (tZ (wT w1)) a b = get (tZ (wT w)) (transp i k a) b).
  { unfold w1. destruct (Nat.eqb_spec i k) as [->|Hik]; simpl.
    - split; [|split; [|split; [|split]]]; auto.
      intros a b. now rewrite transp_same.
    - split; [|split; [|split; [|split]]]; auto.
      + apply twf_swap_rows_t; auto; lia.
      + apply commuting_swap_rows_t; auto; lia.
      + apply spanned_swap_rows_t; auto; lia.
      + intros a b. split; [eapply getX_swap_rows_t | eapply getZ_swap_rows_t];
          eauto; lia. }
  destruct H1 as (Hw1 & E21 & Hc1 & Hs1 & Hg1).
  set (w2 := if negb (j =? k)
             then Work (swap_cols_t (wT w1) j k) (swap_cols_t (wT2 w1) j k)
                       (wqc w1 ++ [qc_cnot j k; qc_cnot k j; qc_cnot j k])
             else w1).
  assert (H2' : twf m n (wT w2) /\ twf m n (wT2 w2) /\ commuting m n (wT w2) /\
               spanned m n (wT w2) (wT2 w2) /\
               forall a b, a < m ->
                 get (tX (wT w2)) a b = get (tX (wT w1)) a (transp j k b) /\
                 get (tZ (wT w2)) a b = get (tZ (wT w1)) a (transp j k b)).
  { unfold w2. destruct (Nat.eqb_spec j k) as [->|Hjk]; simpl.
    - rewrite E21. split; [|split; [|split; [|split]]]; auto.
      intros a b _. now rewrite transp_same.
    - rewrite E21. split; [|split; [|split; [|split]]]; auto.
      + apply twf_swap_cols_t; auto.
      + apply twf_swap_cols_t; auto.
      + apply commuting_swap_cols_t; auto; lia.
      + apply spanned_swap_cols_t; auto; lia.
      + intros a b Ha. split; [eapply getX_swap_cols_t | eapply getZ_swap_cols_t];
          eauto; lia. }
  destruct H2' as (Hw2 & Hw22 & Hc2 & Hs2 & Hg2).
  destruct (@sweep_column_ok m n sel (wT w2) (wT2 w2) k) as (t' & -> & Ht' & Hct' & Hst' & Hg');
    auto; try lia.
  simpl. eexists. split; [reflexivity|]. simpl.
  split; [|split; [|split; [|split]]]; auto.
  intros a b Ha Hb. simpl.
  assert (Hsel2 : forall a, a < m ->
            get (sel (wT w2)) a k = get (sel (wT w)) (transp i k a) j).
  { intros a0 Ha0. destruct Hsel as [-> | ->].
    - destruct (Hg2 a0 k Ha0) as [-> _]. destruct (Hg1 a0 (transp j k k)) as [-> _].
      f_equal. unfold transp. now rewrite Nat.eqb_refl.
    - destruct (Hg2 a0 k Ha0) as [_ ->]. destruct (Hg1 a0 (transp j k k)) as [_ ->].
      f_equal. unfold transp. now rewrite Nat.eqb_refl. }
  assert (Hik : transp i k k = i) by (unfold transp; now rewrite Nat.eqb_refl).
  destruct (Hg' a b) as [-> ->].
  rewrite Hsel2 by auto.
  destruct (Hg2 a b Ha) as [-> ->]. destruct (Hg2 k b ltac:(lia)) as [-> ->].
  destruct (Hg1 a (transp j k b)) as [-> ->].
  destruct (Hg1 k (transp j k b)) as [-> ->].
  rewrite Hik. split; reflexivity.
Qed.

Lemma pivot_rel_sel sel m n k i j T T' a b :
  sel = tX \/ sel = tZ -> pivot_rel sel m n k i j T T' -> a < m -> b < n ->
  get (sel T') a b =
  xorb (get (sel T) (transp i k a) (transp j k b))
       (negb (a =? k) && get (sel T) (transp i k a) j && get (sel T) i (transp j k b)).
Proof.
  intros [-> | ->] Hrel Ha Hb; apply (Hrel a b Ha Hb).
Qed.

Lemma pivot_unit_cols sel m n k0 k i j T T' :
  sel = tX \/ sel = tZ -> pivot_rel sel m n k i j T T' ->
  k <= i < m -> k <= j < n -> get (sel T) i j = true ->
  unit_cols m k0 k (sel T) -> unit_cols m k0 (S k) (sel T').
Proof.
  intros Hsel Hrel Hi Hj Hpiv Hunit a b Ha Hb.
  rewrite (@pivot_rel_sel sel m n k i j T T' a b Hsel Hrel) by lia.
  destruct (Nat.eq_dec b k) as [->|Hbk].
  - replace (transp j k k) with j by (unfold transp; now rewrite Nat.eqb_refl).
    rewrite Hpiv, andb_true_r.
    destruct (Nat.eqb_spec a k) as [->|Hak]; simpl.
    + replace (transp i k k) with i by (unfold transp; now rewrite Nat.eqb_refl).
      now rewrite Hpiv.
    + now rewrite xorb_nilpotent.
  - assert (Hb' : transp j k b = b).
    { unfold transp. nat_cases. }
    rewrite Hb'. rewrite (Hunit i b) by lia.
    rewrite (Hunit (transp i k a) b) by (try apply transp_lt; lia).
    replace (i =? b) with false by (symmetry; apply Nat.eqb_neq; lia).
    rewrite andb_false_r, xorb_false_r.
    unfold transp. nat_cases.
Qed.

Lemma diagonalize_ok m n sel k0 r (P : tableau -> Prop) (w : work (C:=C)) :
  sel = tX \/ sel = tZ -> k0 <= r ->
  (forall k i j T T',
      k0 <= k -> k <= i < m -> k <= j < n -> twf m n T -> P T ->
      pivot_rel sel m n k i j T T' -> P T') ->
  stage_inv m n sel k0 P k0 (w, k0) ->
  exists w' kk, diagonalize sel (range k0 r) k0 w = Ok (w', kk) /\
                stage_inv m n sel k0 P r (w', kk).
Proof.
  intros Hsel Hr HP H0. unfold diagonalize.
  destruct (@range_inv_forM (work (C:=C) * nat) (stage_inv m n sel k0 P)
              (fun k (st : work * nat) =>
                 match find_pivot (sel (wT (fst st))) k with
                 | Some (i, j) => w' <- pivot sel k i j (fst st) ;; Ok (w', S k)
                 | None => Ok st
                 end)
              k0 r (w, k0)) as ([w' kk] & E & H'); auto.
  2:{ exists w', kk. auto. }
  intros k [w1 kk] Hk (HT & HT2 & Hc & Hs & HPT & Hk0 & Hkk & Hkm & Hkn & Hunit & Hzero).
  simpl in *.
  assert (Hwf : wf m n (sel (wT w1))) by (destruct Hsel as [-> | ->]; eauto with twf).
  destruct (find_pivot (sel (wT w1)) k) as [[i j]|] eqn:Ef.
  - destruct (@find_pivot_some m n _ _ _ _ Hwf Ef) as (Hi & Hj & Hpiv).
    assert (kk = k).
    { destruct (Nat.eq_dec kk k); auto.
      rewrite (Hzero ltac:(lia) i j) in Hpiv; [discriminate| lia | lia]. }
    subst kk.
    destruct (@pivot_ok m n sel k i j w1) as (w2 & -> & HT' & HT2' & Hc' & Hs' & Hrel); auto.
    simpl. eexists. split; [reflexivity|].
    unfold stage_inv; simpl.
    repeat (split; [solve [auto | lia]|]).
    split; [eapply (HP k i j (wT w1)); eauto; lia|].
    repeat (split; [solve [auto | lia]|]).
    split; [|intros; lia].
    eapply pivot_unit_cols; eauto.
  - exists (w1, kk). split; auto. unfold stage_inv; simpl.
    repeat (split; [solve [auto | lia]|]).
    intros _.
    destruct (Nat.eq_dec kk k) as [->|Hne].
    + eapply find_pivot_none; eauto.
    + apply Hzero. lia.
Qed.

End Stages.

(** ** The Clifford stages *)

Section Gates.

Context {C : Type}.

Lemma base_inv_h m n (w : work (C:=C)) j :
  j < n -> base_inv m n w -> base_inv m n (apply_h w j).
Proof.
  intros Hj (H & H2 & Hc & Hs). unfold base_inv, apply_h; simpl.
  auto using twf_h, commuting_h, spanned_h.
Qed.

Lemma base_inv_s m n (w : work (C:=C)) j :
  j < n -> base_inv m n w -> base_inv m n (apply_s w j).
Proof.
  intros Hj (H & H2 & Hc & Hs). unfold base_inv, apply_s; simpl.
  auto using twf_s, commuting_s, spanned_s.
Qed.

Lemma base_inv_cnot m n (w : work (C:=C)) i j :
  i < n -> j < n -> i <> j -> base_inv m n w -> base_inv m n (apply_cnot w i j).
Proof.
  intros Hi Hj Hij (H & H2 & Hc & Hs). unfold base_inv, apply_cnot; simpl.
  auto using twf_cnot, commuting_cnot, spanned_cnot.
Qed.

Lemma base_inv_cz m n (w : work (C:=C)) i j :
  i < n -> j < n -> i <> j -> base_inv m n w -> base_inv m n (apply_cz w i j).
Proof.
  intros Hi Hj Hij (H & H2 & Hc & Hs). unfold base_inv, apply_cz; simpl.
  auto using twf_cz, commuting_cz, spanned_cz.
Qed.

(** *** swap diag Z to X *)

Lemma swap_diag_ok m n kx kz (w : work (C:=C)) :
  base_inv m n w -> kx <= kz -> kz <= n ->
  unit_cols m 0 kx (tX (wT w)) -> zero_rows m n kx (tX (wT w)) ->
  unit_cols m kx kz (tZ (wT w)) ->
  base_inv m n (swap_diag kx kz w) /\
  unit_cols m 0 kz (tX (wT (swap_diag kx kz w))) /\
  zero_rows m n kz (tX (wT (swap_diag kx kz w))).
Proof.
  intros Hb Hk Hkn HuX HzX HuZ. unfold swap_diag.
  pose (Inv := fun (j : nat) (w : work (C:=C)) =>
    base_inv m n w /\ unit_cols m 0 j (tX (wT w)) /\ unit_cols m j kz (tZ (wT w)) /\
    forall a b, kx <= a < m -> j <= b < n -> get (tX (wT w)) a b = false).
  assert (H : Inv kz (fold_left apply_h (range kx kz) w)).
  { apply range_inv_fold; auto.
    - unfold Inv. repeat (split; auto). intros a b Ha Hb'. apply HzX; lia.
    - intros j w1 Hj (Hb1 & HX1 & HZ1 & Hz1).
      pose proof Hb1 as (HT & _).
      unfold Inv. split; [apply base_inv_h; auto; lia|].
      change (wT (apply_h w1 j)) with (h (wT w1) j). split; [|split].
      + intros a b Ha Hb'. rewrite (@getX_h m n) by (auto; lia).
        destruct (Nat.eqb_spec b j) as [->|Hne].
        * apply HZ1; lia.
        * apply HX1; lia.
      + intros a b Ha Hb'. rewrite (@getZ_h m n) by (auto; lia).
        destruct (Nat.eqb_spec b j); [lia|]. apply HZ1; lia.
      + intros a b Ha Hb'. rewrite (@getX_h m n) by (auto; lia).
        destruct (Nat.eqb_spec b j); [lia|]. apply Hz1; lia. }
  destruct H as (Hb' & HX' & _ & Hz'). split; [|split]; auto.
  intros a b Ha Hb0. destruct (Nat.lt_ge_cases b kz).
  - rewrite HX' by lia. apply Nat.eqb_neq. lia.
  - apply Hz'; lia.
Qed.

(** *** eliminate off-diag X *)

Lemma elim_off_X_ok m n kz (w : work (C:=C)) :
  base_inv m n w -> 0 < m -> kz <= m -> kz <= n ->
  unit_cols m 0 kz (tX (wT w)) -> zero_rows m n kz (tX (wT w)) ->
  base_inv m n (elim_off_X kz w) /\ diag_form m n kz (tX (wT (elim_off_X kz w))).
Proof.
  intros Hb Hm Hkm Hkn Hu Hz. unfold elim_off_X.
  pose (Inv := fun (i : nat) (w : work (C:=C)) =>
    base_inv m n w /\ unit_cols m 0 kz (tX (wT w)) /\ zero_rows m n kz (tX (wT w)) /\
    forall a b, a < i -> kz <= b < n -> get (tX (wT w)) a b = false).
  match goal with |- base_inv m n ?W /\ _ => assert (H : Inv kz W) end.
  { apply range_inv_fold; [lia| |].
    - unfold Inv. repeat (split; auto). intros; lia.
    - intros i w1 Hi (Hb1 & Hu1 & Hz1 & Hd1).
      assert (Hn : ncols (tX (wT w1)) = n).
      { apply (@ncols_wf m); auto. apply Hb1. }
      rewrite Hn.
      pose (Inv2 := fun (j : nat) (w : work (C:=C)) =>
        base_inv m n w /\ unit_cols m 0 kz (tX (wT w)) /\ zero_rows m n kz (tX (wT w)) /\
        (forall a b, a < i -> kz <= b < n -> get (tX (wT w)) a b = false) /\
        forall b, kz <= b < j -> get (tX (wT w)) i b = false).
      match goal with |- Inv (S i) ?W => assert (H2 : Inv2 n W) end.
      { apply range_inv_fold; [lia| |].
        - unfold Inv2. repeat (split; auto). intros; lia.
        - intros j w2 Hj (Hb2 & Hu2 & Hz2 & Hd2 & He2).
          destruct (get (tX (wT w2)) i j) eqn:Eij.
          + pose proof Hb2 as (HT & _).
            assert (Hg : forall a b, a < m ->
                      get (tX (wT (apply_cnot w2 i j))) a b =
                      if (a =? i) && (b =? j) then false else get (tX (wT w2)) a b).
            { intros a b Ha. change (wT (apply_cnot w2 i j)) with (cnot (wT w2) i j).
              rewrite (@getX_cnot m n) by (auto; lia).
              destruct (Nat.eqb_spec b j) as [->|Hbj].
              - rewrite (Hu2 a i) by lia.
                destruct (Nat.eqb_spec a i) as [->|Hai]; simpl.
                + now rewrite Eij.
                + now rewrite xorb_false_r.
              - now rewrite andb_false_r. }
            unfold Inv2. split; [apply base_inv_cnot; auto; lia|].
            split; [|split; [|split]].
            * intros a b Ha Hb'. rewrite Hg by auto.
              destruct (Nat.eqb_spec b j); [lia|]. rewrite andb_false_r. apply Hu2; lia.
            * intros a b Ha Hb'. rewrite Hg by lia.
              destruct (Nat.eqb_spec a i); [lia|]. simpl. apply Hz2; lia.
            * intros a b Ha Hb'. rewrite Hg by lia.
              destruct (Nat.eqb_spec a i); [lia|]. simpl. apply Hd2; lia.
            * intros b Hb'. rewrite Hg by lia. rewrite Nat.eqb_refl. simpl.
              destruct (Nat.eqb_spec b j); auto. apply He2; lia.
          + unfold Inv2. repeat (split; auto).
            intros b Hb'. destruct (Nat.eq_dec b j) as [->|]; auto. apply He2; lia. }
      destruct H2 as (Hb2 & Hu2 & Hz2 & Hd2 & He2).
      unfold Inv. repeat (split; auto).
      intros a b Ha Hb'. destruct (Nat.eq_dec a i) as [->|].
      * apply He2; lia.
      * apply Hd2; lia. }
  destruct H as (Hb' & Hu' & Hz' & Hd'). split; auto.
  intros a b Ha Hb0. destruct (Nat.ltb_spec b kz).
  - rewrite andb_true_r. apply Hu'; lia.
  - rewrite andb_false_r. destruct (Nat.lt_ge_cases a kz).
    + apply Hd'; lia.
    + apply Hz'; lia.
Qed.

(** *** eliminate off-diag Z *)

Lemma xsum_delta f n kz a :
  kz <= n ->
  xsum (fun k => (a =? k) && (k <? kz) && f k) n = (a <? kz) && f a.
Proof.
  intros Hk. destruct (Nat.ltb_spec a kz) as [Ha|Ha]; simpl.
  - rewrite (xsum_ext _ (fun k => (k =? a) && f k)).
    + apply xsum_single. lia.
    + intros k _. destruct (Nat.eqb_spec a k) as [->|]; nat_cases; auto.
  - apply xsum_false_ext. intros k _. nat_cases; auto.
Qed.

(** with X in diagonal form the product of two rows reads off Z *)
Lemma sp_diag_form m n kz t a b :
  diag_form m n kz (tX t) -> kz <= n -> a < m -> b < m ->
  sp n t a b = xorb ((a <? kz) && get (tZ t) b a) ((b <? kz) && get (tZ t) a b).
Proof.
  intros HD Hk Ha Hb. unfold sp, spf. rewrite xsum_xor. f_equal.
  - rewrite <- (xsum_delta (fun k => get (tZ t) b k) a Hk).
    apply xsum_ext. intros k Hkn. now rewrite HD.
  - rewrite <- (xsum_delta (fun k => get (tZ t) a k) b Hk).
    apply xsum_ext. intros k Hkn. rewrite HD by auto.
    destruct (get (tZ t) a k), (b =? k), (k <? kz); reflexivity.
Qed.

Lemma diag_form_Z_sym m n kz t a b :
  diag_form m n kz (tX t) -> commuting m n t -> kz <= n -> kz <= m ->
  a < kz -> b < kz -> get (tZ t) a b = get (tZ t) b a.
Proof.
  intros HD Hc Hkn Hkm Ha Hb.
  pose proof (Hc a b ltac:(lia) ltac:(lia)) as Hsp.
  rewrite (@sp_diag_form m n kz) in Hsp by (auto; lia).
  destruct (Nat.ltb_spec a kz); [|lia]. destruct (Nat.ltb_spec b kz); [|lia].
  simpl in Hsp. destruct (get (tZ t) a b), (get (tZ t) b a); auto; discriminate.
Qed.

Lemma diag_form_Z_low m n kz t a b :
  diag_form m n kz (tX t) -> commuting m n t -> kz <= n ->
  kz <= a < m -> b < kz -> get (tZ t) a b = false.
Proof.
  intros HD Hc Hkn Ha Hb.
  pose proof (Hc a b ltac:(lia) ltac:(lia)) as Hsp.
  rewrite (@sp_diag_form m n kz) in Hsp by (auto; lia).
  destruct (Nat.ltb_spec a kz); [lia|]. destruct (Nat.ltb_spec b kz); [|lia].
  simpl in Hsp. auto.
Qed.

Lemma elim_off_Z_ok m n kz (w : work (C:=C)) :
  base_inv m n w -> kz <= m -> kz <= n ->
  diag_form m n kz (tX (wT w)) ->
  base_inv m n (elim_off_Z kz w) /\
  diag_form m n kz (tX (wT (elim_off_Z kz w))) /\
  forall a b, a < m -> b < kz -> a <> b -> get (tZ (wT (elim_off_Z kz w))) a b = false.
Proof.
  intros Hb Hkm Hkn HD. unfold elim_off_Z.
  pose (Inv := fun (i : nat) (w : work (C:=C)) =>
    base_inv m n w /\ diag_form m n kz (tX (wT w)) /\
    forall a b, b < a -> a < i -> a < kz -> get (tZ (wT w)) a b = false).
  match goal with |- base_inv m n ?W /\ _ => assert (H : Inv kz W) end.
  { destruct (Nat.eq_dec kz 0) as [->|Hkz].
    { simpl. unfold Inv. repeat (split; auto). intros; lia. }
    apply range_inv_fold; [lia| |].
    - unfold Inv. repeat (split; auto). intros; lia.
    - intros i w1 Hi (Hb1 & HD1 & Hl1).
      pose (Inv2 := fun (j : nat) (w : work (C:=C)) =>
        base_inv m n w /\ diag_form m n kz (tX (wT w)) /\
        (forall a b, b < a -> a < i -> a < kz -> get (tZ (wT w)) a b = false) /\
        forall b, b < j -> get (tZ (wT w)) i b = false).
      match goal with |- Inv (S i) ?W => assert (H2 : Inv2 i W) end.
      { apply range_inv_fold; [lia| |].
        - unfold Inv2. repeat (split; auto). intros; lia.
        - intros j w2 Hj (Hb2 & HD2 & Hl2 & He2).
          destruct (get (tZ (wT w2)) i j) eqn:Eij.
          + pose proof Hb2 as (HT & _).
            assert (HgX : forall a b, a < m ->
                      get (tX (wT (apply_cz w2 i j))) a b = get (tX (wT w2)) a b).
            { intros a b Ha. change (wT (apply_cz w2 i j)) with (cz (wT w2) i j).
              apply (@getX_cz m n); auto; lia. }
            assert (HgZ : forall a b, a < m -> b < a ->
                      get (tZ (wT (apply_cz w2 i j))) a b =
                      if (a =? i) && (b =? j) then false else get (tZ (wT w2)) a b).
            { intros a b Ha Hba. change (wT (apply_cz w2 i j)) with (cz (wT w2) i j).
              rewrite (@getZ_cz m n) by (auto; lia).
              rewrite !HD2 by lia.
              nat_cases; subst; simpl; rewrite ?Eij, ?xorb_false_r, ?andb_false_r; auto. }
            unfold Inv2. split; [apply base_inv_cz; auto; lia|].
            split; [|split].
            * intros a b Ha Hb'. rewrite HgX by auto. now apply HD2.
            * intros a b Hba Ha Hak. rewrite HgZ by lia.
              destruct (Nat.eqb_spec a i); [lia|]. simpl. apply Hl2; lia.
            * intros b Hb'. rewrite HgZ by lia. rewrite Nat.eqb_refl. simpl.
              destruct (Nat.eqb_spec b j); auto. apply He2; lia.
          + unfold Inv2. repeat (split; auto).
            intros b Hb'. destruct (Nat.eq_dec b j) as [->|]; auto. apply He2; lia. }
      destruct H2 as (Hb2 & HD2 & Hl2 & He2).
      unfold Inv. repeat (split; auto).
      intros a b Hba Ha Hak. destruct (Nat.eq_dec a i) as [->|].
      * apply He2; lia.
      * apply Hl2; lia. }
  destruct H as (Hb' & HD' & Hl'). split; [|split]; auto.
  intros a b Ha Hb0 Hab. pose proof Hb' as (_ & _ & Hc' & _).
  destruct (Nat.lt_ge_cases a kz) as [Hak|Hak].
  - destruct (Nat.lt_ge_cases b a).
    + apply Hl'; lia.
    + rewrite (@diag_form_Z_sym m n kz) by (auto; lia). apply Hl'; lia.
  - eapply diag_form_Z_low; eauto; lia.
Qed.

(** *** eliminate diag Z and switch X and Z *)

Lemma elim_diag_Z_ok m n kz (w : work (C:=C)) :
  base_inv m n w -> kz <= m -> kz <= n ->
  diag_form m n kz (tX (wT w)) ->
  (forall a b, a < m -> b < kz -> a <> b -> get (tZ (wT w)) a b = false) ->
  base_inv m n (elim_diag_Z kz w) /\
  forall a b, a < m -> b < n -> get (tX (wT (elim_diag_Z kz w))) a b = false.
Proof.
  intros Hb Hkm Hkn HD HZ. unfold elim_diag_Z.
  pose (Inv := fun (i : nat) (w : work (C:=C)) =>
    base_inv m n w /\
    (forall a b, a < m -> b < n ->
       get (tX (wT w)) a b = (a =? b) && (i <=? b) && (b <? kz)) /\
    forall a b, a < m -> i <= b < kz -> a <> b -> get (tZ (wT w)) a b = false).
  match goal with |- base_inv m n ?W /\ _ => assert (H : Inv kz W) end.
  { apply range_inv_fold; [lia| |].
    - unfold Inv. split; [|split]; auto.
      + intros a b Ha Hb'. rewrite HD by auto. now rewrite andb_true_r.
      + intros a b Ha Hb' Hab. apply HZ; auto; lia.
    - intros i w0 Hi (Hb0 & HX0 & HZ0).
      set (w1 := if get (tZ (wT w0)) i i then apply_s w0 i else w0).
      assert (H1 : base_inv m n w1 /\
                (forall a b, a < m -> b < n ->
                   get (tX (wT w1)) a b = (a =? b) && (i <=? b) && (b <? kz)) /\
                (forall a b, a < m -> S i <= b < kz -> a <> b ->
                   get (tZ (wT w1)) a b = false) /\
                forall a, a < m -> get (tZ (wT w1)) a i = false).
      { unfold w1. pose proof Hb0 as (HT & _).
        destruct (get (tZ (wT w0)) i i) eqn:Eii.
        - split; [apply base_inv_s; auto; lia|].
          change (wT (apply_s w0 i)) with (s (wT w0) i).
          split; [|split].
          + intros a b Ha Hb'. rewrite getX_s. now apply HX0.
          + intros a b Ha Hb' Hab. rewrite (@getZ_s m n) by (auto; lia).
            destruct (Nat.eqb_spec b i); [lia|]. apply HZ0; auto; lia.
          + intros a Ha. rewrite (@getZ_s m n) by (auto; lia).
            rewrite Nat.eqb_refl, HX0 by lia.
            destruct (Nat.eq_dec a i) as [->|Hai].
            * rewrite Eii, Nat.eqb_refl, Nat.leb_refl.
              destruct (Nat.ltb_spec i kz); [reflexivity|lia].
            * rewrite HZ0 by (auto; lia).
              destruct (Nat.eqb_spec a i); [lia|]. reflexivity.
        - split; auto. split; auto. split.
          + intros a b Ha Hb' Hab. apply HZ0; auto; lia.
          + intros a Ha. destruct (Nat.eq_dec a i) as [->|Hai]; auto.
            apply HZ0; auto; lia. }
      destruct H1 as (Hb1 & HX1 & HZ1 & Hcol).
      pose proof Hb1 as (HT1 & _).
      unfold Inv. split; [apply base_inv_h; auto; lia|].
      change (wT (apply_h w1 i)) with (h (wT w1) i). split.
      + intros a b Ha Hb'. rewrite (@getX_h m n) by (auto; lia).
        destruct (Nat.eqb_spec b i) as [->|Hbi].
        * rewrite Hcol by auto.
          destruct (Nat.leb_spec (S i) i); [lia|]. now rewrite andb_false_r.
        * rewrite HX1 by auto.
          destruct (Nat.leb_spec i b), (Nat.leb_spec (S i) b); try lia; reflexivity.
      + intros a b Ha Hb' Hab. rewrite (@getZ_h m n) by (auto; lia).
        destruct (Nat.eqb_spec b i); [lia|]. apply HZ1; auto. }
  destruct H as (Hb' & HX' & _). split; auto.
  intros a b Ha Hb0. rewrite HX' by auto.
  nat_cases; simpl; now rewrite ?andb_false_r.
Qed.

End Gates.

(** ** Linear dependence over GF(2) *)

Lemma bounded_search (f : nat -> bool) m :
  (forall i, i < m -> f i = false) \/ (exists p, p < m /\ f p = true).
Proof.
  induction m as [|m [IH|[p [Hp Hf]]]].
  - left. intros; lia.
  - destruct (f m) eqn:E.
    + right. exists m. auto.
    + left. intros i Hi. destruct (Nat.eq_dec i m) as [->|]; auto. apply IH; lia.
  - right. exists p. auto.
Qed.

(** more rows than columns: some rows add up to zero *)
Lemma left_kernel r :
  forall m (Cm : nat -> nat -> bool),
    r < m ->
    exists c : nat -> bool,
      (exists i, i < m /\ c i = true) /\
      forall j, j < r -> xsum (fun i => c i && Cm i j) m = false.
Proof.
  induction r as [|r IH]; intros m Cm Hm.
  - exists (fun i => i =? 0). split; [exists 0; split; [lia|reflexivity]|].
    intros; lia.
  - destruct (bounded_search (fun i => Cm i r) m) as [Hz|[p [Hp Hpr]]].
    + destruct (IH m Cm ltac:(lia)) as (c & Hnz & Hc).
      exists c. split; auto. intros j Hj.
      destruct (Nat.eq_dec j r) as [->|]; [|apply Hc; lia].
      apply xsum_false_ext. intros i Hi. rewrite Hz by auto. apply andb_false_r.
    + destruct m as [|m']; [lia|].
      set (Cs := fun i j => Cm (transp p m' i) j).
      assert (Hlast : Cs m' r = true).
      { unfold Cs, transp. now rewrite Nat.eqb_refl. }
      set (Cr := fun i j => xorb (Cs i j) (Cs i r && Cs m' j)).
      destruct (IH m' Cr ltac:(lia)) as (c2 & (i0 & Hi0 & Hc0) & Hc2).
      set (c1 := fun i => if i <? m' then c2 i
                          else xsum (fun i => c2 i && Cs i r) m').
      assert (Hc1 : forall j, j < S r -> xsum (fun i => c1 i && Cs i j) (S m') = false).
      { intros j Hj. simpl.
        rewrite (xsum_ext (fun i => c1 i && Cs i j) (fun i => c2 i && Cs i j)).
        2:{ intros i Hi. unfold c1. destruct (Nat.ltb_spec i m'); [reflexivity|lia]. }
        unfold c1 at 1. rewrite Nat.ltb_irrefl.
        destruct (Nat.eq_dec j r) as [->|Hjr].
        - rewrite Hlast, andb_true_r. apply xorb_nilpotent.
        - specialize (Hc2 j ltac:(lia)). unfold Cr in Hc2.
          rewrite xsum_and_xor in Hc2.
          rewrite (xsum_ext (fun k => c2 k && (Cs k r && Cs m' j))
                            (fun k => (c2 k && Cs k r) && Cs m' j)) in Hc2
            by (intros; apply andb_assoc).
          now rewrite xsum_and_r in Hc2. }
      exists (fun i => c1 (transp p m' i)). split.
      * exists (transp p m' i0). split; [apply transp_lt; lia|].
        rewrite transp_invol. unfold c1.
        destruct (Nat.ltb_spec i0 m'); [auto|lia].
      * intros j Hj. rewrite <- (Hc1 j Hj).
        rewrite <- (@xsum_transp (fun i => c1 i && Cs i j) (S m') p m') by lia.
        apply xsum_ext. intros i _. unfold Cs. now rewrite transp_invol.
Qed.

Lemma finite_choice (Q : nat -> (nat -> bool) -> Prop) m :
  (forall a, a < m -> exists c, Q a c) ->
  exists Cm : nat -> nat -> bool, forall a, a < m -> Q a (Cm a).
Proof.
  induction m as [|m IH]; intros H.
  - exists (fun _ _ => false). intros; lia.
  - destruct IH as [Cm HCm]; [intros; apply H; lia|].
    destruct (H m ltac:(lia)) as [c Hc].
    exists (fun a => if a =? m then c else Cm a). intros a Ha.
    destruct (Nat.eqb_spec a m) as [->|]; auto. apply HCm; lia.
Qed.

(** [m] vectors in the span of fewer than [m] vectors are dependent *)
Lemma span_dependent k m n (B V : nat -> nat -> bool) :
  k < m ->
  (forall a, a < m -> exists c : nat -> bool,
      forall b, b < n -> V a b = xsum (fun t => c t && B t b) k) ->
  exists d : nat -> bool,
    (exists i, i < m /\ d i = true) /\
    forall b, b < n -> xsum (fun a => d a && V a b) m = false.
Proof.
  intros Hk Hspan.
  destruct (@finite_choice
              (fun a c => forall b, b < n -> V a b = xsum (fun t => c t && B t b) k)
              m Hspan) as [Cm HCm].
  destruct (left_kernel Cm Hk) as (d & Hnz & Hd).
  exists d. split; auto. intros b Hb.
  rewrite (xsum_ext _ (fun a => xsum (fun t => d a && Cm a t && B t b) k)).
  2:{ intros a Ha. rewrite (HCm a Ha b Hb), <- xsum_and_l.
      apply xsum_ext. intros t _. apply andb_assoc. }
  rewrite xsum_exchange. apply xsum_false_ext. intros t Ht.
  rewrite xsum_and_r, Hd; auto.
Qed.

(** with [r] unit columns and rank at most [r], the rows below are zero *)
Lemma unit_cols_rank_zero m n r M :
  rank_le m n M r -> r <= n -> unit_cols m 0 r M -> zero_rows m n r M.
Proof.
  intros (k & B & Hk & HB) Hrn Hu a b Ha Hb.
  destruct (get M a b) eqn:Eab; auto. exfalso.
  set (V := fun i b => get M (if i <? r then i else a) b).
  destruct (@span_dependent k (S r) n B V) as (d & (i0 & Hi0 & Hd0) & Hd).
  - lia.
  - intros i Hi. unfold V. apply HB. destruct (Nat.ltb_spec i r); lia.
  - assert (Hlow : forall i, i < r -> d i = false).
    { intros i Hi. specialize (Hd i ltac:(lia)). simpl in Hd.
      unfold V at 2 in Hd. rewrite Nat.ltb_irrefl in Hd.
      rewrite (Hu a i) in Hd by lia.
      replace (a =? i) with false in Hd by (symmetry; apply Nat.eqb_neq; lia).
      rewrite andb_false_r, xorb_false_r in Hd.
      rewrite (xsum_ext _ (fun x => (x =? i) && d x)) in Hd.
      - now rewrite xsum_single in Hd.
      - intros x Hx. unfold V. destruct (Nat.ltb_spec x r); [|lia].
        rewrite (Hu x i) by lia. apply andb_comm. }
    assert (Hr : d r = false).
    { specialize (Hd b Hb). simpl in Hd.
      rewrite xsum_false_ext in Hd.
      - unfold V in Hd. rewrite Nat.ltb_irrefl, Eab, andb_true_r in Hd. exact Hd.
      - intros x Hx. now rewrite Hlow. }
    destruct (Nat.eq_dec i0 r) as [->|]; [congruence|].
    rewrite Hlow in Hd0 by lia. discriminate.
Qed.

(** ** The diagonalization as a whole *)

Section DiagWork.

Context {C : Type} {NP : Numpy}.

Lemma on_qubits_nth n paulis a :
  on_qubits n paulis -> a < length paulis ->
  length (px (nth a paulis (mkPauli [] [] 0))) = n /\
  length (pz (nth a paulis (mkPauli [] [] 0))) = n.
Proof.
  intros H Ha. unfold on_qubits in H. rewrite Forall_forall in H.
  apply H, nth_In, Ha.
Qed.

Lemma wf_map_px n paulis : on_qubits n paulis -> wf (length paulis) n (map px paulis).
Proof.
  intros H. split; [apply length_map|].
  apply Forall_map. eapply Forall_impl; [|exact H]. now intros p [? _].
Qed.

Lemma wf_map_pz n paulis : on_qubits n paulis -> wf (length paulis) n (map pz paulis).
Proof.
  intros H. split; [apply length_map|].
  apply Forall_map. eapply Forall_impl; [|exact H]. now intros p [_ ?].
Qed.

Lemma get_map_px paulis a b :
  get (map px paulis) a b = nth b (px (nth a paulis (mkPauli [] [] 0))) false.
Proof.
  unfold get, row. change (@nil bool) with (px (mkPauli [] [] 0)).
  now rewrite map_nth.
Qed.

Lemma get_map_pz paulis a b :
  get (map pz paulis) a b = nth b (pz (nth a paulis (mkPauli [] [] 0))) false.
Proof.
  unfold get, row. change (@nil bool) with (pz (mkPauli [] [] 0)).
  now rewrite map_nth.
Qed.

Lemma twf_tab0 n paulis : on_qubits n paulis -> twf (length paulis) n (tab0 paulis).
Proof.
  intros H. split; [|split]; simpl.
  - now apply wf_map_px.
  - now apply wf_map_pz.
  - apply length_map.
Qed.

Lemma commuting_tab0 n paulis :
  on_qubits n paulis -> pairwise_commute paulis ->
  commuting (length paulis) n (tab0 paulis).
Proof.
  intros H Hc a b Ha Hb. unfold sp, spf. simpl.
  destruct (on_qubits_nth H Ha) as [Hxa Hza].
  destruct (on_qubits_nth H Hb) as [Hxb Hzb].
  pose proof (Hc _ _ (nth_In paulis (mkPauli [] [] 0) Ha)
                     (nth_In paulis (mkPauli [] [] 0) Hb)) as Hab.
  rewrite (@commutes_sp n) in Hab by auto.
  apply negb_true_iff in Hab. rewrite <- Hab.
  apply xsum_ext. intros k _. now rewrite !get_map_px, !get_map_pz.
Qed.

Lemma rank_le_X n paulis r :
  on_qubits n paulis ->
  rank_le (length paulis) (n + n) (XZ paulis) r ->
  rank_le (length paulis) n (map px paulis) r.
Proof.
  intros H (k & B & Hk & HB). exists k, B. split; auto.
  intros a Ha. destruct (HB a Ha) as [c Hc]. exists c. intros b Hb.
  rewrite <- Hc by lia.
  destruct (on_qubits_nth H Ha) as [Hxa Hza].
  unfold get, row, XZ.
  rewrite (nth_zipw _ _ _ [] [] []) by (rewrite length_map; auto).
  rewrite app_nth1; auto.
  change (@nil bool) with (px (mkPauli [] [] 0)). rewrite map_nth. lia.
Qed.

(** the pivot step keeps the rank bound on X *)
Lemma pivot_rel_rank m n r k i j T T' :
  k <= i < m -> k <= j < n -> k < m -> twf m n T ->
  rank_le m n (tX T) r -> pivot_rel tX m n k i j T T' ->
  rank_le m n (tX T') r.
Proof.
  intros Hi Hj Hk HT Hr Hrel.
  apply (@rank_le_rows m n (swap_cols (tX T) j k)).
  - intros a Ha.
    exists (transp i k a), i, (negb (a =? k) && get (tX T) (transp i k a) j).
    split; [apply transp_lt; lia|]. split; [lia|].
    intros b Hb. destruct (Hrel a b Ha Hb) as [-> _].
    rewrite !(@get_swap_cols m n) by (eauto with twf; try apply transp_lt; lia).
    reflexivity.
  - apply (@rank_le_cols m n (tX T) _ r j k); auto; try lia.
    intros a b Ha Hb. rewrite (@get_swap_cols m n) by (eauto with twf; lia).
    reflexivity.
Qed.

(** the pivot step on Z keeps the diagonal block of X *)
Lemma pivot_rel_Z_keeps_X m n kx k i j T T' :
  kx <= k -> k <= i < m -> k <= j < n -> k < m ->
  unit_cols m 0 kx (tX T) /\ zero_rows m n kx (tX T) ->
  pivot_rel tZ m n k i j T T' ->
  unit_cols m 0 kx (tX T') /\ zero_rows m n kx (tX T').
Proof.
  intros Hkx Hi Hj Hk [Hu Hz] Hrel.
  assert (Hg : forall a b, a < m -> b < n ->
            get (tX T') a b = get (tX T) (transp i k a) (transp j k b)).
  { intros a b Ha Hb. destruct (Hrel a b Ha Hb) as [-> _].
    rewrite (Hz i (transp j k b)) by (try apply transp_lt; lia).
    now rewrite andb_false_r, xorb_false_r. }
  split.
  - intros a b Ha Hb. rewrite Hg by lia.
    assert (Hb' : transp j k b = b) by (unfold transp; nat_cases).
    rewrite Hb'. unfold transp.
    destruct (Nat.eqb_spec a k) as [->|Hak]; [|destruct (Nat.eqb_spec a i) as [->|Hai]].
    + rewrite Hz by lia. symmetry. apply Nat.eqb_neq. lia.
    + rewrite Hz by lia. symmetry. apply Nat.eqb_neq. lia.
    + apply Hu; lia.
  - intros a b Ha Hb. rewrite Hg by lia.
    apply Hz; [|apply transp_lt; lia].
    unfold transp. nat_cases.
Qed.

Lemma stage_inv_init m n sel (P : tableau -> Prop) (w : work (C:=C)) k0 :
  base_inv m n w -> P (wT w) -> k0 <= m -> k0 <= n ->
  stage_inv m n sel k0 P k0 (w, k0).
Proof.
  intros (H & H2 & Hc & Hs) HP Hm Hn. unfold stage_inv; simpl.
  repeat (split; [solve [auto | lia]|]).
  split; [intros a b Ha Hb; lia | intros; lia].
Qed.

Lemma base_inv_init n paulis :
  on_qubits n paulis -> pairwise_commute paulis ->
  base_inv (length paulis) n (Work (C:=C) (tab0 paulis) (tab0 paulis) []).
Proof.
  intros H Hc. unfold base_inv; simpl.
  auto using twf_tab0, commuting_tab0, spanned_refl.
Qed.

(** on commuting operators the two loops return: [sweep_rows] never raises *)
Lemma diag_work_total n paulis :
  on_qubits n paulis -> pairwise_commute paulis ->
  exists w : work (C:=C), diag_work paulis = Ok w.
Proof.
  intros H Hc.
  set (m := length paulis). set (r := matrix_rank (XZ paulis)).
  destruct (@diagonalize_ok C m n tX 0 r (fun _ => True)
              (Work (tab0 paulis) (tab0 paulis) [])) as (w1 & kx & E1 & I1);
    auto; try lia.
  { apply stage_inv_init; [apply base_inv_init; auto | exact I | lia | lia]. }
  destruct I1 as (HT1 & HT21 & Hc1 & Hs1 & _ & _ & Hkr & Hkm & Hkn & _).
  simpl in *.
  destruct (@diagonalize_ok C m n tZ kx r (fun _ => True) w1)
    as (w2 & kz & E2 & I2); auto; try lia.
  { apply stage_inv_init; unfold base_inv; auto. }
  unfold diag_work. fold (tab0 paulis). fold (XZ paulis). fold r.
  rewrite E1. simpl. rewrite E2. simpl. eauto.
Qed.

(** with a rank large enough the working X ends all zero *)
Lemma diag_work_ok n paulis :
  paulis <> [] -> on_qubits n paulis -> pairwise_commute paulis -> rank_ok n paulis ->
  exists w : work (C:=C),
    diag_work paulis = Ok w /\ base_inv (length paulis) n w /\
    forall a b, a < length paulis -> b < n -> get (tX (wT w)) a b = false.
Proof.
  intros Hne H Hc Hrank.
  set (m := length paulis). set (r := matrix_rank (XZ paulis)).
  assert (Hm : 0 < m) by (unfold m; destruct paulis; simpl; [congruence|lia]).
  destruct (@diagonalize_ok C m n tX 0 r (fun T => rank_le m n (tX T) r)
              (Work (tab0 paulis) (tab0 paulis) [])) as (w1 & kx & E1 & I1);
    auto; try lia.
  { intros k i j T T' _ Hi Hj HT HP Hrel.
    eapply pivot_rel_rank; eauto. lia. }
  { apply stage_inv_init; [apply base_inv_init; auto | | lia | lia].
    simpl. now apply rank_le_X. }
  destruct I1 as (HT1 & HT21 & Hc1 & Hs1 & Hr1 & _ & Hkr & Hkm & Hkn & Hu1 & Hz1).
  simpl in *.
  assert (Hzr : zero_rows m n kx (tX (wT w1))).
  { destruct (Nat.eq_dec kx r) as [Hkx|Hkx].
    - apply (@unit_cols_rank_zero m n kx); auto. now rewrite Hkx.
    - intros a b Ha Hb. destruct (Nat.lt_ge_cases b kx).
      + rewrite Hu1 by lia. apply Nat.eqb_neq. lia.
      + apply Hz1; lia. }
  destruct (@diagonalize_ok C m n tZ kx r
              (fun T => unit_cols m 0 kx (tX T) /\ zero_rows m n kx (tX T)) w1)
    as (w2 & kz & E2 & I2); auto; try lia.
  { intros k i j T T' Hk Hi Hj HT HP Hrel.
    eapply pivot_rel_Z_keeps_X; eauto. lia. }
  { apply stage_inv_init; unfold base_inv; auto. }
  destruct I2 as (HT2 & HT22 & Hc2 & Hs2 & [Hu2 Hz2] & Hkxz & _ & Hkzm & Hkzn & HuZ & _).
  simpl in *.
  unfold diag_work. fold (tab0 paulis). fold (XZ paulis). fold r.
  rewrite E1. simpl. rewrite E2. simpl.
  eexists. split; [reflexivity|].
  destruct (@swap_diag_ok C m n kx kz w2) as (Hb3 & Hu3 & Hz3); auto.
  { unfold base_inv; auto. }
  destruct (elim_off_X_ok Hb3 Hm Hkzm Hkzn Hu3 Hz3) as (Hb4 & HD4).
  destruct (elim_off_Z_ok Hb4 Hkzm Hkzn HD4) as (Hb5 & HD5 & HZ5).
  destruct (elim_diag_Z_ok Hb5 Hkzm Hkzn HD5 HZ5) as (Hb6 & HX6).
  auto.
Qed.

End DiagWork.

(** ** The shape of the diagonalizing circuit *)

Section Shape.

Context {C : Type}.

Lemma hcount_app (c : circuit C) gate :
  hcount (c ++ [gate]) = hcount_step (hcount c) gate.
Proof. unfold hcount. now rewrite fold_left_app. Qed.

Lemma hruns_ok_nil : hruns_ok (@nil (instr C)).
Proof.
  intros p t E q. symmetry in E. apply app_eq_nil in E. destruct E as [-> _].
  unfold hcount. simpl. lia.
Qed.

Lemma hruns_ok_snoc (c : circuit C) gate :
  hruns_ok c -> (forall q, hcount (c ++ [gate]) q <= 2) -> hruns_ok (c ++ [gate]).
Proof.
  intros Hc Hg p t E q.
  destruct t as [|x t] using rev_ind.
  - rewrite app_nil_r in E. subst p. apply Hg.
  - clear IHt. rewrite app_assoc in E. apply app_inj_tail in E. destruct E as [E _].
    eapply Hc; eauto.
Qed.

Lemma hruns_ok_prefix (p t : circuit C) : hruns_ok (p ++ t) -> hruns_ok p.
Proof.
  intros H p' t' E q. apply (H p' (t' ++ t)). now rewrite app_assoc, E.
Qed.

Lemma shape_nil : shape (fun _ => 0) (@nil (instr C)).
Proof.
  split; [constructor|]. split; [apply hruns_ok_nil|]. intros q.
  unfold hcount. simpl. lia.
Qed.

Lemma shape_weaken f f' (c : circuit C) :
  (forall q, f q <= f' q) -> shape f c -> shape f' c.
Proof.
  intros Hf (Hc & Hr & Hb). split; [|split]; auto.
  intros q. specialize (Hb q). specialize (Hf q). lia.
Qed.

Lemma existsb_eqb_In q l : existsb (Nat.eqb q) l = true <-> In q l.
Proof.
  rewrite existsb_exists. split.
  - intros (x & Hin & E). apply Nat.eqb_eq in E. now subst.
  - intros H. exists q. split; auto. apply Nat.eqb_refl.
Qed.

(** a gate other than H keeps every bound: it resets its own qubits *)
Lemma shape_snoc_other f (c : circuit C) gate :
  clifford_gate gate -> is_h gate = false -> (forall q, f q <= 2) ->
  shape f c -> shape f (c ++ [gate]).
Proof.
  intros Hg Hh Hf (Hc & Hr & Hb).
  assert (Hcnt : forall q, hcount (c ++ [gate]) q <= f q).
  { intros q. rewrite hcount_app. unfold hcount_step. rewrite Hh.
    destruct (existsb (Nat.eqb q) (qubits gate)); [lia|apply Hb]. }
  split; [|split]; auto.
  - apply Forall_app. split; auto.
  - apply hruns_ok_snoc; auto. intros q. specialize (Hcnt q). specialize (Hf q). lia.
Qed.

Lemma shape_snoc_cnot f (c : circuit C) a b :
  (forall q, f q <= 2) -> shape f c -> shape f (c ++ [qc_cnot a b]).
Proof.
  intros. apply shape_snoc_other; auto. right. right. eauto.
Qed.

Lemma shape_snoc_s f (c : circuit C) a :
  (forall q, f q <= 2) -> shape f c -> shape f (c ++ [qc_s a]).
Proof.
  intros. apply shape_snoc_other; auto. right. left. eauto.
Qed.

(** a Hadamard gate on [a] adds one to the bound of [a] *)
Lemma shape_snoc_h f (c : circuit C) a :
  (forall q, f q <= 2) -> f a <= 1 ->
  shape f c -> shape (fun q => if q =? a then S (f a) else f q) (c ++ [qc_h a]).
Proof.
  intros Hf Ha (Hc & Hr & Hb).
  assert (Hcnt : forall q, hcount (c ++ [qc_h a]) q <= if q =? a then S (f a) else f q).
  { intros q. rewrite hcount_app. unfold hcount_step. simpl.
    destruct (Nat.eqb_spec q a) as [->|]; [|apply Hb].
    specialize (Hb a). lia. }
  split; [|split]; auto.
  - apply Forall_app. split; auto. constructor; auto. left. eauto.
  - apply hruns_ok_snoc; auto. intros q. specialize (Hcnt q). specialize (Hf q).
    destruct (q =? a); lia.
Qed.

Lemma snoc3 A (l : list A) a b c : l ++ [a; b; c] = ((l ++ [a]) ++ [b]) ++ [c].
Proof. now rewrite <- !app_assoc. Qed.

Lemma shape_pivot f sel k i j (w w' : work (C:=C)) :
  (forall q, f q <= 2) ->
  pivot sel k i j w = Ok w' -> shape f (wqc w) -> shape f (wqc w').
Proof.
  intros Hf E Hs. unfold pivot in E.
  match type of E with
  | (bind (sweep_column _ _ (wT ?W2)) _) = _ => set (w2 := W2) in *
  end.
  assert (H2 : shape f (wqc w2)).
  { unfold w2. destruct (negb (j =? k)); simpl.
    - destruct (negb (i =? k)); simpl; rewrite snoc3;
        repeat apply shape_snoc_cnot; auto.
    - destruct (negb (i =? k)); auto. }
  destruct (sweep_column sel k (wT w2)); simpl in E; [|discriminate].
  injection E as <-. exact H2.
Qed.

Lemma shape_diagonalize f sel ks k0 (w w' : work (C:=C)) kk :
  (forall q, f q <= 2) ->
  diagonalize sel ks k0 w = Ok (w', kk) -> shape f (wqc w) -> shape f (wqc w').
Proof.
  intros Hf. unfold diagonalize.
  change (wqc w) with (wqc (fst (w, k0))).
  generalize (w, k0). intros st.
  revert st. induction ks as [|k ks IH]; intros [w1 k1]; simpl.
  - intros [= <- <-]; auto.
  - destruct (find_pivot (sel (wT w1)) k) as [[i j]|]; simpl.
    + destruct (pivot sel k i j w1) as [w2|] eqn:Ep; simpl; [|discriminate].
      intros E Hs. apply (IH _ E). simpl. eapply shape_pivot; eauto.
    + intros E Hs. apply (IH _ E). exact Hs.
Qed.

Lemma shape_swap_diag kx kz (w : work (C:=C)) :
  shape (fun _ => 0) (wqc w) -> shape (fun _ => 1) (wqc (swap_diag kx kz w)).
Proof.
  intros Hs. unfold swap_diag.
  destruct (Nat.le_gt_cases kx kz) as [Hk|Hk].
  2:{ rewrite range_empty by lia. simpl. eapply shape_weaken; [|exact Hs]. auto. }
  pose (Inv := fun (j : nat) (w : work (C:=C)) =>
    shape (fun q => if (kx <=? q) && (q <? j) then 1 else 0) (wqc w)).
  assert (H : Inv kz (fold_left apply_h (range kx kz) w)).
  { apply range_inv_fold; auto.
    - unfold Inv. eapply shape_weaken; [|exact Hs].
      intros q. destruct ((kx <=? q) && (q <? kx)); lia.
    - intros j w1 Hj H1. unfold Inv in *. simpl.
      eapply shape_weaken; [|apply shape_snoc_h; [| |exact H1]].
      + intros q. simpl. nat_cases; simpl; lia.
      + intros q. simpl. destruct ((kx <=? q) && (q <? j)); lia.
      + simpl. nat_cases; simpl; lia. }
  eapply shape_weaken; [|exact H]. intros q. simpl.
  destruct ((kx <=? q) && (q <? kz)); lia.
Qed.

Lemma shape_elim_off_X kz (w : work (C:=C)) :
  shape (fun _ => 1) (wqc w) -> shape (fun _ => 1) (wqc (elim_off_X kz w)).
Proof.
  intros Hs. unfold elim_off_X.
  apply (@range_inv_fold _ (fun _ w => shape (fun _ => 1) (wqc w))); auto; [lia|].
  intros i w1 _ H1.
  destruct (Nat.le_gt_cases kz (ncols (tX (wT w1)))) as [Hk|Hk].
  2:{ rewrite range_empty by lia. exact H1. }
  apply (@range_inv_fold _ (fun _ w => shape (fun _ => 1) (wqc w))); auto.
  intros j w2 _ H2. destruct (get (tX (wT w2)) i j); auto.
  simpl. apply shape_snoc_cnot; auto.
Qed.

(** a gate other than H resets the bound of its qubits *)
Lemma shape_snoc_reset f (c : circuit C) gate :
  clifford_gate gate -> is_h gate = false -> (forall q, f q <= 2) ->
  shape f c ->
  shape (fun q => if existsb (Nat.eqb q) (qubits gate) then 0 else f q) (c ++ [gate]).
Proof.
  intros Hg Hh Hf (Hc & Hr & Hb).
  assert (Hcnt : forall q, hcount (c ++ [gate]) q <=
                           if existsb (Nat.eqb q) (qubits gate) then 0 else f q).
  { intros q. rewrite hcount_app. unfold hcount_step. rewrite Hh.
    destruct (existsb (Nat.eqb q) (qubits gate)); [lia|apply Hb]. }
  split; [|split]; auto.
  - apply Forall_app. split; auto.
  - apply hruns_ok_snoc; auto. intros q. specialize (Hcnt q). specialize (Hf q).
    destruct (existsb (Nat.eqb q) (qubits gate)); lia.
Qed.

Lemma shape_elim_off_Z kz (w : work (C:=C)) :
  shape (fun _ => 1) (wqc w) -> shape (fun _ => 1) (wqc (elim_off_Z kz w)).
Proof.
  intros Hs. unfold elim_off_Z.
  destruct (Nat.le_gt_cases 1 kz) as [Hk|Hk].
  2:{ rewrite range_empty by lia. exact Hs. }
  apply (@range_inv_fold _ (fun _ w => shape (fun _ => 1) (wqc w))); auto.
  intros i w1 _ H1.
  apply (@range_inv_fold _ (fun _ w => shape (fun _ => 1) (wqc w))); auto; [lia|].
  intros j w2 _ H2. destruct (get (tZ (wT w2)) i j); auto.
  simpl. rewrite snoc3.
  assert (Ha : shape (fun q => if q =? j then 2 else 1) (wqc w2 ++ [qc_h j])).
  { apply (@shape_snoc_h (fun _ => 1)); auto. }
  assert (Hb : shape (fun q => if (q =? i) || (q =? j) then 0 else 1)
                     ((wqc w2 ++ [qc_h j]) ++ [qc_cnot i j])).
  { eapply shape_weaken; [|apply shape_snoc_reset; [| | |exact Ha]].
    - intros q. simpl. destruct (q =? i), (q =? j); simpl; lia.
    - right. right. eauto.
    - reflexivity.
    - intros q. simpl. destruct (q =? j); lia. }
  eapply shape_weaken; [|apply shape_snoc_h; [| |exact Hb]].
  - intros q. simpl. rewrite Nat.eqb_refl, orb_true_r.
    destruct (q =? j), (q =? i); simpl; lia.
  - intros q. simpl. destruct ((q =? i) || (q =? j)); lia.
  - simpl. rewrite Nat.eqb_refl, orb_true_r. lia.
Qed.

Lemma shape_elim_diag_Z kz (w : work (C:=C)) :
  shape (fun _ => 1) (wqc w) -> shape (fun _ => 2) (wqc (elim_diag_Z kz w)).
Proof.
  intros Hs. unfold elim_diag_Z.
  pose (Inv := fun (i : nat) (w : work (C:=C)) =>
    shape (fun q => if q <? i then 2 else 1) (wqc w)).
  match goal with |- shape _ (wqc ?W) => assert (H : Inv kz W) end.
  { apply range_inv_fold; [lia| |].
    - unfold Inv. eapply shape_weaken; [|exact Hs]. intros q. simpl. lia.
    - intros i w1 _ H1. unfold Inv in *.
      destruct (get (tZ (wT w1)) i i); simpl.
      + assert (Ha : shape (fun q => if q =? i then 0 else if q <? i then 2 else 1)
                           (wqc w1 ++ [qc_s i])).
        { eapply shape_weaken; [|apply shape_snoc_reset; [| | |exact H1]].
          - intros q. simpl. destruct (q =? i); simpl; lia.
          - right. left. eauto.
          - reflexivity.
          - intros q. simpl. destruct (q <? i); lia. }
        eapply shape_weaken; [|apply shape_snoc_h; [| |exact Ha]].
        * intros q. simpl. rewrite Nat.eqb_refl. nat_cases; lia.
        * intros q. simpl. destruct (q =? i); [lia|]. destruct (q <? i); lia.
        * simpl. rewrite Nat.eqb_refl. lia.
      + eapply shape_weaken; [|apply shape_snoc_h; [| |exact H1]].
        * intros q. simpl. rewrite Nat.ltb_irrefl. nat_cases; lia.
        * intros q. simpl. destruct (q <? i); lia.
        * simpl. rewrite Nat.ltb_irrefl. lia. }
  eapply shape_weaken; [|exact H]. intros q. simpl. destruct (q <? kz); lia.
Qed.

(** the circuit handed to the cleanup *)
Lemma shape_diag_work {NP : Numpy} paulis (w : work (C:=C)) :
  diag_work paulis = Ok w -> shape (fun _ => 2) (wqc w).
Proof.
  unfold diag_work.
  destruct (diagonalize tX _ _ _) as [[w1 kx]|] eqn:E1; simpl; [|discriminate].
  destruct (diagonalize tZ _ _ _) as [[w2 kz]|] eqn:E2; simpl; [|discriminate].
  intros [= <-].
  apply shape_elim_diag_Z, shape_elim_off_Z, shape_elim_off_X, shape_swap_diag.
  eapply shape_diagonalize; [|exact E2|]; [auto|].
  eapply shape_diagonalize; [|exact E1|]; [auto|].
  apply shape_nil.
Qed.

End Shape.

(** ** Popping a set of indices *)

Lemma enum_from_app A a (l1 l2 : list A) :
  enum_from a (l1 ++ l2) = enum_from a l1 ++ enum_from (a + length l1) l2.
Proof.
  unfold enum_from. revert a. induction l1 as [|x l1 IH]; intros a; simpl.
  - now rewrite Nat.add_0_r.
  - f_equal. rewrite IH. now rewrite Nat.add_succ_r.
Qed.

Lemma map_snd_enum_from A a (l : list A) : map snd (enum_from a l) = l.
Proof.
  unfold enum_from. revert a. induction l as [|x l IH]; intros a; simpl; auto.
  now rewrite IH.
Qed.

Lemma map_fst_enum_from A a (l : list A) : map fst (enum_from a l) = seq a (length l).
Proof.
  unfold enum_from. revert a. induction l as [|x l IH]; intros a; simpl; auto.
  now rewrite IH.
Qed.

Lemma In_enum_from A a (l : list A) ig :
  In ig (enum_from a l) -> a <= fst ig < a + length l.
Proof.
  intros H. apply (in_map fst) in H. rewrite map_fst_enum_from in H.
  apply in_seq in H. lia.
Qed.

Lemma filter_all A (f : A -> bool) l :
  (forall x, In x l -> f x = true) -> filter f l = l.
Proof.
  induction l as [|x l IH]; simpl; intros H; auto.
  rewrite H by auto. f_equal. apply IH. auto.
Qed.

Lemma filter_ext_in' A (f f' : A -> bool) l :
  (forall x, In x l -> f x = f' x) -> filter f l = filter f' l.
Proof.
  induction l as [|x l IH]; simpl; intros H; auto.
  rewrite H by auto. rewrite IH by auto. reflexivity.
Qed.

Lemma keep_ext A (R R' : list nat) (l : list A) :
  (forall x, In x R <-> In x R') -> keep R l = keep R' l.
Proof.
  intros H. unfold keep. apply filter_ext_in'. intros ig _. f_equal.
  destruct (existsb (Nat.eqb (fst ig)) R) eqn:E.
  - symmetry. apply existsb_eqb_In, H, existsb_eqb_In, E.
  - destruct (existsb (Nat.eqb (fst ig)) R') eqn:E'; auto.
    apply existsb_eqb_In, H, existsb_eqb_In in E'. congruence.
Qed.

Lemma keep_nil A (l : list A) : map snd (keep [] l) = l.
Proof.
  unfold keep. rewrite filter_all; [apply map_snd_enum_from|]. auto.
Qed.

Lemma split_at A (l : list A) d :
  d < length l ->
  exists x, l = firstn d l ++ x :: skipn (S d) l /\ length (firstn d l) = d.
Proof.
  revert d. induction l as [|y l IH]; intros d Hd; simpl in Hd; [lia|].
  destruct d as [|d].
  - exists y. simpl. auto.
  - destruct (IH d ltac:(lia)) as (x & E & Hl). exists x. simpl. split.
    + f_equal. exact E.
    + now rewrite Hl.
Qed.

Lemma filter_cons' A (f : A -> bool) x l :
  filter f (x :: l) = if f x then x :: filter f l else filter f l.
Proof. reflexivity. Qed.

Lemma enum_from_cons A a (x : A) l : enum_from a (x :: l) = (a, x) :: enum_from (S a) l.
Proof. reflexivity. Qed.

Lemma keep_high A (P : nat * A -> bool) a (l : list A) :
  (forall i, a <= i -> forall x, P (i, x) = true) ->
  map snd (filter P (enum_from a l)) = l.
Proof.
  intros H. rewrite filter_all; [apply map_snd_enum_from|].
  intros [i x] Hin. apply H. apply In_enum_from in Hin. simpl in Hin. lia.
Qed.

Lemma not_in_existsb x l : ~ In x l -> existsb (Nat.eqb x) l = false.
Proof.
  intros H. destruct (existsb (Nat.eqb x) l) eqn:E; auto.
  apply existsb_eqb_In in E. contradiction.
Qed.

(** popping decreasing indices removes exactly the elements at these indices *)
Lemma pop_all A (D : list nat) :
  forall l : list A,
    desc D -> (forall d, In d D -> d < length l) ->
    forM D (fun i d => pop i d) l = Ok (map snd (keep D l)).
Proof.
  induction D as [|d D IH]; intros l Hdesc Hlt.
  - simpl. now rewrite keep_nil.
  - inversion Hdesc as [|? ? Hd HD]; subst.
    pose proof (Hlt d (or_introl eq_refl)) as Hdl.
    destruct (split_at l Hdl) as (x & El & Hfl).
    set (l1 := firstn d l) in *. set (l2 := skipn (S d) l) in *.
    assert (Hlen : length l = d + S (length l2)).
    { rewrite El at 1. rewrite length_app, Hfl. reflexivity. }
    assert (Hpop : pop d l = Ok (l1 ++ l2)).
    { unfold pop. destruct (Nat.ltb_spec d (length l)); [reflexivity|lia]. }
    change (forM (d :: D) (fun i d => pop i d) l)
      with (bind (pop d l) (fun s' => forM D (fun i d => pop i d) s')).
    rewrite Hpop. unfold bind. rewrite IH; auto.
    2:{ intros y Hy. specialize (Hd y Hy). rewrite length_app, Hfl. lia. }
    f_equal. rewrite El at 1. unfold keep.
    rewrite !enum_from_app, enum_from_cons, !filter_app, !map_app, Hfl.
    f_equal.
    + f_equal. apply filter_ext_in'. intros ig Hig.
      apply In_enum_from in Hig. rewrite Hfl in Hig.
      change (existsb (Nat.eqb (fst ig)) (d :: D))
        with ((fst ig =? d) || existsb (Nat.eqb (fst ig)) D).
      destruct (Nat.eqb_spec (fst ig) d); [lia|]. reflexivity.
    + rewrite filter_cons'. cbn [fst].
      replace (existsb (Nat.eqb (0 + d)) (d :: D)) with true
        by (symmetry; apply existsb_eqb_In; left; reflexivity).
      cbn [negb].
      rewrite !keep_high; auto.
      * intros i Hi y. cbn [fst]. apply negb_true_iff, not_in_existsb.
        intros [->|Hin]; [lia|]. specialize (Hd _ Hin). lia.
      * intros i Hi y. cbn [fst]. apply negb_true_iff, not_in_existsb.
        intros Hin. specialize (Hd _ Hin). lia.
Qed.

(** *** Sorting *)

Lemma insert_sorted_perm x l : Permutation (insert_sorted x l) (x :: l).
Proof.
  induction l as [|y l IH]; simpl; auto.
  destruct (x <=? y); auto.
  rewrite IH. apply perm_swap.
Qed.

Lemma sort_perm l : Permutation (sort l) l.
Proof.
  induction l as [|x l IH]; simpl; auto.
  rewrite insert_sorted_perm. now constructor.
Qed.

Lemma insert_sorted_sorted x l :
  StronglySorted le l -> StronglySorted le (insert_sorted x l).
Proof.
  induction 1 as [|y l Hs IH Hall]; simpl.
  - repeat constructor.
  - destruct (Nat.leb_spec x y).
    + constructor; [constructor; auto|].
      constructor; auto. eapply Forall_impl; [|exact Hall]. intros; lia.
    + constructor; auto.
      rewrite Forall_forall in *. intros z Hz.
      apply (Permutation_in _ (insert_sorted_perm x l)) in Hz.
      destruct Hz as [<-|Hz]; [lia|auto].
Qed.

Lemma sort_sorted l : StronglySorted le (sort l).
Proof.
  induction l as [|x l IH]; simpl; [constructor|].
  now apply insert_sorted_sorted.
Qed.

Lemma desc_snoc l x : desc l -> (forall y, In y l -> x < y) -> desc (l ++ [x]).
Proof.
  induction 1 as [|z l Hz Hd IH]; simpl; intros Hx.
  - constructor; [intros ? []|constructor].
  - constructor.
    + intros y Hy. apply in_app_or in Hy. destruct Hy as [Hy|[<-|[]]]; auto.
    + apply IH. auto.
Qed.

Lemma desc_rev_sort l : NoDup l -> desc (rev (sort l)).
Proof.
  intros Hnd.
  assert (Hnd' : NoDup (sort l)).
  { eapply Permutation_NoDup; [|exact Hnd]. symmetry. apply sort_perm. }
  pose proof (sort_sorted l) as Hs.
  induction Hs as [|x l' Hs IH Hall]; simpl; [constructor|].
  inversion Hnd' as [|? ? Hnx Hnd'']; subst.
  apply desc_snoc; auto.
  intros y Hy. apply in_rev in Hy.
  rewrite Forall_forall in Hall. specialize (Hall y Hy).
  assert (x <> y) by (intros ->; auto). lia.
Qed.

(** ** The cleanup of redundant Hadamard gates *)

Section Cleanup.

Context {C : Type}.

Lemma nth_set_nth_None (q x : nat) (lh : list (option nat)) :
  nth q (set_nth x None lh) None = if q =? x then None else nth q lh None.
Proof.
  destruct (Nat.eqb_spec q x) as [->|Hne].
  - destruct (Nat.lt_ge_cases x (length lh)).
    + now apply nth_set_nth_eq.
    + apply nth_overflow. now rewrite length_set_nth.
  - apply nth_set_nth_neq. auto.
Qed.

Lemma nth_reset (q : nat) qs (lh : list (option nat)) :
  nth q (fold_left (fun lh x => set_nth x None lh) qs lh) None =
  if existsb (Nat.eqb q) qs then None else nth q lh None.
Proof.
  revert lh. induction qs as [|x qs IH]; intros lh; simpl; auto.
  rewrite IH, nth_set_nth_None.
  destruct (q =? x); simpl; auto. now destruct (existsb (Nat.eqb q) qs).
Qed.

Lemma nth_set_nth_Some (q x i : nat) (lh : list (option nat)) a :
  nth q (set_nth x (Some i) lh) None = Some a ->
  (q = x /\ a = i) \/ (q <> x /\ nth q lh None = Some a).
Proof.
  destruct (Nat.eq_dec q x) as [->|Hne].
  - destruct (Nat.lt_ge_cases x (length lh)).
    + rewrite nth_set_nth_eq by auto. intros [= <-]. auto.
    + rewrite nth_overflow by (now rewrite length_set_nth). discriminate.
  - rewrite nth_set_nth_neq by auto. auto.
Qed.

Lemma scan_snoc size (p : circuit C) gate :
  scan size (p ++ [gate]) = scan_step (scan size p) (length p, gate).
Proof.
  unfold scan. rewrite enum_from_app, fold_left_app. reflexivity.
Qed.

Lemma keep_snoc_notin A R (p : list A) x :
  (forall y, In y R -> y < length p) ->
  keep R (p ++ [x]) = keep R p ++ [(length p, x)].
Proof.
  intros H. unfold keep. rewrite enum_from_app, filter_app. f_equal.
  rewrite enum_from_cons, filter_cons'. cbn [fst].
  rewrite not_in_existsb; [reflexivity|].
  intros Hin. apply H in Hin. simpl in Hin. lia.
Qed.

Lemma filter_filter' A (f f' : A -> bool) l :
  filter f (filter f' l) = filter (fun x => f' x && f x) l.
Proof.
  induction l as [|x l IH]; simpl; auto.
  destruct (f' x); simpl; [destruct (f x)|]; now rewrite IH.
Qed.

Lemma existsb_app' q (l l' : list nat) :
  existsb (Nat.eqb q) (l ++ l') = existsb (Nat.eqb q) l || existsb (Nat.eqb q) l'.
Proof. apply existsb_app. Qed.

Lemma keep_pair A R (p : list A) x a :
  keep (R ++ [a; length p]) (p ++ [x]) =
  filter (fun ig => negb (fst ig =? a)) (keep R p).
Proof.
  unfold keep. rewrite enum_from_app, filter_app.
  rewrite enum_from_cons, filter_cons'. cbn [fst].
  replace (existsb (Nat.eqb (0 + length p)) (R ++ [a; length p])) with true.
  2:{ symmetry. apply existsb_eqb_In, in_or_app. right. simpl. auto. }
  cbn [negb filter]. rewrite app_nil_r, filter_filter'.
  apply filter_ext_in'. intros ig Hig. apply In_enum_from in Hig.
  rewrite existsb_app'. cbn [existsb].
  destruct (Nat.eqb_spec (fst ig) (length p)); [lia|].
  rewrite !orb_false_r. rewrite negb_orb. reflexivity.
Qed.

Lemma NoDup_map_filter A B (f : A -> B) (P : A -> bool) l :
  NoDup (map f l) -> NoDup (map f (filter P l)).
Proof.
  induction l as [|x l IH]; simpl; intros H; auto.
  inversion H as [|? ? Hx Hl]; subst.
  destruct (P x); simpl; auto. constructor; auto.
  intros Hin. apply Hx. apply in_map_iff in Hin. destruct Hin as (y & E & Hy).
  apply filter_In in Hy. rewrite <- E. apply in_map. tauto.
Qed.

Lemma NoDup_keep A R (p : list A) : NoDup (map fst (keep R p)).
Proof.
  unfold keep. apply NoDup_map_filter. rewrite map_fst_enum_from. apply seq_NoDup.
Qed.

(** removing the one element with index [a] *)
Lemma filter_remove_index A (X Y : list (nat * A)) a x :
  NoDup (map fst (X ++ (a, x) :: Y)) ->
  filter (fun ig => negb (fst ig =? a)) (X ++ (a, x) :: Y) = X ++ Y.
Proof.
  intros Hnd. rewrite map_app in Hnd. simpl in Hnd.
  apply NoDup_remove_2 in Hnd.
  rewrite filter_app, filter_cons'. cbn [fst]. rewrite Nat.eqb_refl. cbn [negb].
  rewrite !filter_all; auto.
  - intros ig Hig. apply negb_true_iff, Nat.eqb_neq. intros E.
    apply Hnd, in_or_app. right. rewrite <- E. now apply in_map.
  - intros ig Hig. apply negb_true_iff, Nat.eqb_neq. intros E.
    apply Hnd, in_or_app. left. rewrite <- E. now apply in_map.
Qed.

Lemma In_keep A R (p : list A) i x :
  In (i, x) (keep R p) -> nth_error p i = Some x /\ ~ In i R.
Proof.
  unfold keep. intros H. apply filter_In in H. destruct H as [Hin HR].
  cbn [fst] in HR. split.
  - unfold enum_from in Hin. clear HR.
    assert (Hgen : forall a (l : list A), In (i, x) (combine (seq a (length l)) l) ->
                                          nth_error l (i - a) = Some x /\ a <= i).
    { intros a l. revert a. induction l as [|y l IH]; intros a; simpl; [tauto|].
      intros [[= <- <-]|Hin'].
      - rewrite Nat.sub_diag. auto.
      - destruct (IH _ Hin') as [E Hle]. split; [|lia].
        replace (i - a) with (S (i - S a)) by lia. exact E. }
    destruct (Hgen 0 p Hin) as [E _]. now rewrite Nat.sub_0_r in E.
  - intros Hin'. apply existsb_eqb_In in Hin'. rewrite Hin' in HR. discriminate.
Qed.

Lemma NoDup_snoc A (l : list A) x : NoDup l -> ~ In x l -> NoDup (l ++ [x]).
Proof.
  intros Hl Hx. apply NoDup_rev in Hl.
  rewrite <- (rev_involutive (l ++ [x])). apply NoDup_rev.
  rewrite rev_app_distr. simpl. constructor; auto.
  now rewrite <- in_rev.
Qed.

Lemma hcount_snoc_h (p : circuit C) q0 q :
  hcount (p ++ [qc_h q0]) q = if q =? q0 then S (hcount p q) else hcount p q.
Proof. rewrite hcount_app. reflexivity. Qed.

Lemma hcount_snoc_other (p : circuit C) gate q :
  is_h gate = false ->
  hcount (p ++ [gate]) q = if existsb (Nat.eqb q) (qubits gate) then 0 else hcount p q.
Proof. intros H. rewrite hcount_app. unfold hcount_step. now rewrite H. Qed.

Lemma qc_h_inj (q q' : nat) : @qc_h C q = qc_h q' -> q = q'.
Proof. now intros [= ->]. Qed.

Variable M : Type.
Variable mul : M -> M -> M.
Variable one : M.
Variable den : instr C -> M.

Hypothesis mul_assoc : forall a b c, mul a (mul b c) = mul (mul a b) c.
Hypothesis mul_one_l : forall a, mul one a = a.
Hypothesis mul_one_r : forall a, mul a one = a.
Hypothesis h_involutive : forall q, mul (den (qc_h q)) (den (qc_h q)) = one.
Hypothesis disjoint_commute :
  forall g1 g2, (forall q, In q (qubits g1) -> ~ In q (qubits g2)) ->
                mul (den g1) (den g2) = mul (den g2) (den g1).

Lemma sem_app (c1 c2 : circuit C) :
  sem mul one den (c1 ++ c2) = mul (sem mul one den c1) (sem mul one den c2).
Proof.
  induction c1 as [|x c1 IH]; simpl.
  - now rewrite mul_one_l.
  - now rewrite IH, mul_assoc.
Qed.

Lemma sem_h_commute q (B : circuit C) :
  (forall x, In x B -> ~ In q (qubits x)) ->
  mul (den (qc_h q)) (sem mul one den B) = mul (sem mul one den B) (den (qc_h q)).
Proof.
  induction B as [|x B IH]; simpl; intros H.
  - now rewrite mul_one_l, mul_one_r.
  - rewrite mul_assoc, (disjoint_commute (qc_h q) x).
    + rewrite <- !mul_assoc. f_equal. apply IH. auto.
    + intros y [<-|[]]. apply H. auto.
Qed.

(** a Hadamard gate that is the last one on its qubit cancels a second one *)
Lemma sem_cancel q (A B : circuit C) :
  (forall x, In x B -> ~ In q (qubits x)) ->
  mul (sem mul one den (A ++ qc_h q :: B)) (den (qc_h q)) = sem mul one den (A ++ B).
Proof.
  intros H. rewrite !sem_app. simpl.
  rewrite <- !mul_assoc. f_equal.
  rewrite <- (@sem_h_commute q B H), mul_assoc, h_involutive. apply mul_one_l.
Qed.

Lemma scan_inv_nil size : scan_inv mul one den [] (scan (C:=C) size []).
Proof.
  unfold scan_inv, scan; simpl. split; [tauto|]. split; [constructor|]. split; auto.
  intros q a. rewrite nth_repeat. discriminate.
Qed.

Lemma scan_inv_snoc_keep (p : circuit C) gate lh lh' R :
  scan_inv mul one den p (lh, R) ->
  (forall q a, nth q lh' None = Some a ->
     (a = length p /\ gate = qc_h q /\
      hcount (p ++ [gate]) q = S (hcount p q)) \/
     (nth q lh None = Some a /\ ~ In q (qubits gate) /\
      hcount (p ++ [gate]) q = hcount p q)) ->
  scan_inv mul one den (p ++ [gate]) (lh', R).
Proof.
  intros (Ha & Hb & Hc & Hd) Hlh. unfold scan_inv; simpl in *.
  assert (Hk : keep R (p ++ [gate]) = keep R p ++ [(length p, gate)])
    by (apply keep_snoc_notin; auto).
  split; [|split; [|split]]; auto.
  - intros x Hx. rewrite length_app. specialize (Ha x Hx). simpl. lia.
  - rewrite Hk, map_app, !sem_app, Hc. reflexivity.
  - intros q a Hq. destruct (Hlh q a Hq) as [(-> & -> & Hcnt)|(Hq' & Hnot & Hcnt)].
    + split; [|split; [|split]].
      * rewrite nth_error_app2, Nat.sub_diag by lia. reflexivity.
      * lia.
      * intros Hin. specialize (Ha _ Hin). lia.
      * intros _. exists (keep R p), []. split; [auto | intros ig []].
    + destruct (Hd q a Hq') as (He & H1 & H2 & H3).
      split; [|split; [|split]].
      * rewrite nth_error_app1; auto. apply nth_error_Some. congruence.
      * lia.
      * intros Hin. specialize (H2 Hin). lia.
      * intros Hnin. destruct (H3 Hnin) as (A & B & EA & HB).
        exists A, (B ++ [(length p, gate)]). split.
        -- rewrite Hk, EA, <- app_assoc. reflexivity.
        -- intros ig Hig. apply in_app_or in Hig. destruct Hig as [Hig|[<-|[]]]; auto.
Qed.

Lemma scan_inv_snoc_pair (p : circuit C) q0 a lh R :
  scan_inv mul one den p (lh, R) ->
  nth q0 lh None = Some a -> hcount p q0 <= 1 ->
  scan_inv mul one den (p ++ [qc_h q0]) (lh, R ++ [a; length p]).
Proof.
  intros (Ha & Hb & Hc & Hd) Hq0 Hcnt. unfold scan_inv; simpl in *.
  destruct (Hd q0 a Hq0) as (He & H1 & H2 & H3).
  assert (Hnin : ~ In a R) by (intros Hin; specialize (H2 Hin); lia).
  destruct (H3 Hnin) as (A & B & EA & HB).
  assert (Hlt : a < length p) by (apply nth_error_Some; congruence).
  assert (Hk : keep (R ++ [a; length p]) (p ++ [qc_h q0]) =
               filter (fun ig => negb (fst ig =? a)) (keep R p)) by apply keep_pair.
  assert (Hnd : NoDup (map fst (keep R p))) by apply NoDup_keep.
  split; [|split; [|split]].
  - intros x Hx. rewrite length_app. simpl. apply in_app_or in Hx.
    destruct Hx as [Hx|[<-|[<-|[]]]]; try lia. specialize (Ha x Hx). lia.
  - change (R ++ [a; length p]) with (R ++ [a] ++ [length p]).
    rewrite app_assoc. apply NoDup_snoc; [apply NoDup_snoc; auto|].
    intros Hin. apply in_app_or in Hin. destruct Hin as [Hin|[E|[]]]; [|lia].
    specialize (Ha _ Hin). lia.
  - rewrite Hk, EA, filter_remove_index by (rewrite <- EA; exact Hnd).
    rewrite sem_app. simpl. rewrite mul_one_r. rewrite <- Hc, EA.
    rewrite !map_app. simpl. rewrite sem_cancel; [reflexivity|].
    intros x Hx. apply in_map_iff in Hx. destruct Hx as (ig & <- & Hig). auto.
  - intros q a' Hq. destruct (Hd q a' Hq) as (He' & H1' & H2' & H3').
    assert (Hlt' : a' < length p) by (apply nth_error_Some; congruence).
    rewrite hcount_snoc_h.
    split; [|split; [|split]].
    + rewrite nth_error_app1; auto.
    + destruct (q =? q0); lia.
    + intros Hin. apply in_app_or in Hin. destruct Hin as [Hin|[<-|[<-|[]]]].
      * specialize (H2' Hin). destruct (q =? q0); lia.
      * assert (q = q0) by (apply qc_h_inj; congruence). subst q.
        rewrite Nat.eqb_refl. lia.
      * lia.
    + intros Hnin'.
      assert (Hn1 : ~ In a' R) by (intros Hin; apply Hnin', in_or_app; auto).
      assert (Hn2 : a' <> a) by (intros ->; apply Hnin', in_or_app; simpl; auto).
      destruct (H3' Hn1) as (A1 & B1 & EA1 & HB1).
      exists (filter (fun ig => negb (fst ig =? a)) A1),
             (filter (fun ig => negb (fst ig =? a)) B1). split.
      * rewrite Hk, EA1, filter_app, filter_cons'. cbn [fst].
        destruct (Nat.eqb_spec a' a); [lia|]. reflexivity.
      * intros ig Hig. apply filter_In in Hig. apply HB1. tauto.
Qed.

(** the invariant of the scan on circuits of H, S and CNOT gates without
    three Hadamard gates in a row *)
Lemma scan_inv_holds size (data : circuit C) :
  Forall clifford_gate data -> hruns_ok data ->
  scan_inv mul one den data (scan size data).
Proof.
  induction data as [|gate p IH] using rev_ind; intros Hcl Hruns.
  - apply scan_inv_nil.
  - apply Forall_app in Hcl. destruct Hcl as [Hclp Hg].
    inversion Hg as [|? ? Hgate _]; subst.
    specialize (IH Hclp (@hruns_ok_prefix C p [gate] Hruns)).
    rewrite scan_snoc. destruct (scan size p) as [lh R].
    assert (Hother : is_h gate = false ->
              scan_inv mul one den (p ++ [gate])
                (fold_left (fun lh q => set_nth q None lh) (qubits gate) lh, R)).
    { intros Hh. eapply scan_inv_snoc_keep; [exact IH|]. intros q a Hq. right.
      rewrite nth_reset in Hq.
      destruct (existsb (Nat.eqb q) (qubits gate)) eqn:E; [discriminate|].
      split; auto. split.
      - intros Hin. apply existsb_eqb_In in Hin. congruence.
      - rewrite hcount_snoc_other, E; auto. }
    destruct Hgate as [[q0 ->]|[[q0 ->]|(a & b & ->)]].
    + unfold scan_step. cbn [name qc_h qubits hd String.eqb Ascii.eqb Bool.eqb].
      simpl (("h" =? "h")%string).
      destruct (nth q0 lh None) as [a|] eqn:Eq0.
      * apply scan_inv_snoc_pair; auto.
        pose proof (Hruns (p ++ [qc_h q0]) [] ltac:(now rewrite app_nil_r) q0) as Hle.
        rewrite hcount_snoc_h, Nat.eqb_refl in Hle. lia.
      * eapply scan_inv_snoc_keep; [exact IH|]. intros q a Hq.
        apply nth_set_nth_Some in Hq. destruct Hq as [[-> ->]|[Hne Hq]].
        -- left. split; auto. split; auto.
           now rewrite hcount_snoc_h, Nat.eqb_refl.
        -- right. split; auto. split.
           ++ simpl. intros [->|[]]. congruence.
           ++ rewrite hcount_snoc_h. destruct (Nat.eqb_spec q q0); [lia|reflexivity].
    + apply Hother. reflexivity.
    + apply Hother. reflexivity.
Qed.

(** the cleanup returns, keeps the operator of the circuit, and only
    removes gates *)
Lemma cleanup_ok size (data : circuit C) :
  Forall clifford_gate data -> hruns_ok data ->
  exists qc, cleanup size data = Ok qc /\
             sem mul one den qc = sem mul one den data /\
             forall x, In x qc -> In x data.
Proof.
  intros Hcl Hruns.
  destruct (scan_inv_holds size Hcl Hruns) as (Ha & Hb & Hc & _).
  unfold cleanup.
  change (h_to_remove size data) with (snd (scan size data)).
  set (R := snd (scan size data)) in *.
  exists (map snd (keep R data)).
  assert (Hmem : forall x, In x (rev (sort R)) <-> In x R).
  { intros x. rewrite <- in_rev. split; intros Hx.
    - eapply Permutation_in; [apply sort_perm|exact Hx].
    - eapply Permutation_in; [symmetry; apply sort_perm|exact Hx]. }
  split; [|split]; auto.
  - rewrite pop_all.
    + now rewrite (@keep_ext _ (rev (sort R)) R data Hmem).
    + now apply desc_rev_sort.
    + intros d Hd. apply Ha, Hmem, Hd.
  - intros x Hx. apply in_map_iff in Hx. destruct Hx as ([i y] & <- & Hin).
    apply In_keep in Hin. destruct Hin as [E _]. eapply nth_error_In; eauto.
Qed.

End Cleanup.

(** ** [sim_cliff_diag] *)

Section SimCliffDiag.

Context {C : Type} {NP : Numpy}.

Lemma clifford_gate_names (gate : instr C) : clifford_gate gate -> cnot_h_s gate.
Proof.
  intros [[q ->]|[[q ->]|(a & b & ->)]]; unfold cnot_h_s; simpl; auto.
Qed.

(** the cleanup of the circuit built by the diagonalization returns *)
Lemma cleanup_diag_work size paulis (w : work (C:=C)) :
  diag_work paulis = Ok w ->
  exists qc, cleanup size (wqc w) = Ok qc /\ forall x, In x qc -> cnot_h_s x.
Proof.
  intros E. destruct (shape_diag_work _ E) as (Hcl & Hruns & _).
  destruct (@cleanup_ok C unit (fun _ _ => tt) tt (fun _ => tt)) with (size := size) (data := wqc w)
    as (qc & Eq & _ & Hin); auto.
  - intros []. reflexivity.
  - intros []. reflexivity.
  - exists qc. split; auto. intros x Hx. apply clifford_gate_names.
    rewrite Forall_forall in Hcl. auto.
Qed.

Lemma rows_commute_sp m n t i j :
  twf m n t -> i < m -> j < m -> rows_commute t i j -> sp n t i j = false.
Proof.
  intros H Hi Hj Hc. unfold rows_commute in Hc.
  rewrite (@commutes_sp n) in Hc; simpl;
    try (eapply wf_row; eauto with twf).
  apply negb_true_iff in Hc. exact Hc.
Qed.

(** C10: for two rows of the tableau that represent commuting Pauli
    operators the quantity [t] of [sweep_rows] is 0 or 2 modulo 4, and on
    pairwise commuting operators [sim_cliff_diag] never raises the
    exception "Unexpected result in sweep_rows". *)
Theorem sweep_rows_exception_unreachable :
  (forall m n t i j,
      twf m n t -> i < m -> j < m -> rows_commute t i j ->
      (sweep_t t i j mod 4 = 0 \/ sweep_t t i j mod 4 = 2)%Z) /\
  (forall n paulis,
      on_qubits n paulis -> pairwise_commute paulis ->
      sim_cliff_diag (C:=C) paulis <> Raise SweepRowsUnexpected).
Proof.
  split.
  - intros m n t i j H Hi Hj Hc. apply even_mod4.
    rewrite (@sweep_t_odd n).
    + eapply rows_commute_sp; eauto.
    + apply (@ncols_wf m); eauto with twf. lia.
  - intros n paulis H Hc. unfold sim_cliff_diag.
    destruct paulis as [|p0 ps] eqn:Ep; [discriminate|]. rewrite <- Ep in *.
    destruct (@diag_work_total C NP n paulis H Hc) as [w Ew]. rewrite Ew. simpl.
    destruct (@cleanup_diag_work (num_qubits p0) paulis w Ew) as (qc & -> & _).
    simpl. destruct (negb (all_false (tX (wT w)))); [discriminate|].
    destruct (negb (all_false (tX (wT2 w)))); discriminate.
Qed.

(** the operators returned by [sim_cliff_diag] are diagonal, whenever it returns *)
Lemma sim_cliff_diag_returns_diagonal n paulis (qc : circuit C) diag :
  on_qubits n paulis ->
  sim_cliff_diag paulis = Ok (qc, diag) ->
  forall p, In p diag -> diagonal p.
Proof.
  intros H. unfold sim_cliff_diag.
  destruct paulis as [|p0 ps] eqn:Ep; [discriminate|]. rewrite <- Ep in *.
  destruct (diag_work paulis) as [w|]; simpl; [|discriminate].
  destruct (cleanup (num_qubits p0) (wqc w)) as [qc'|]; simpl; [|discriminate].
  destruct (all_false (tX (wT w))); simpl; [|discriminate].
  destruct (all_false (tX (wT2 w))) eqn:E2; simpl; [|discriminate].
  intros [= <- <-] p Hp. apply in_map_iff in Hp. destruct Hp as (i & <- & Hi).
  unfold diagonal; simpl. unfold all_false in E2. rewrite forallb_forall in E2.
  apply E2. unfold row. apply nth_In. unfold range, nrows in Hi. apply in_seq in Hi. lia.
Qed.

(** on commuting operators with a rank bounding the rank over GF(2),
    [sim_cliff_diag] returns a circuit and one operator on [n] qubits for
    every input operator *)
Lemma sim_cliff_diag_total n paulis :
  paulis <> [] -> on_qubits n paulis -> pairwise_commute paulis -> rank_ok n paulis ->
  exists (qc : circuit C) diag,
    sim_cliff_diag paulis = Ok (qc, diag) /\
    length diag = length paulis /\ on_qubits n diag.
Proof.
  intros Hne H Hc Hr.
  destruct (@diag_work_ok C NP n paulis Hne H Hc Hr) as (w & Ew & Hb & HX).
  destruct Hb as (HT & HT2 & _ & Hs).
  pose proof (spanned_zero Hs HX) as HX2.
  set (p0 := hd (mkPauli [] [] 0) paulis).
  destruct (@cleanup_diag_work (num_qubits p0) paulis w Ew) as (qc & Eqc & Hqc).
  assert (E : sim_cliff_diag paulis =
              Ok (qc, map (fun i => mkPauli (row (tZ (wT2 w)) i) (row (tX (wT2 w)) i)
                                            (if nth i (tS (wT2 w)) false then 2%Z else 0%Z))
                          (range 0 (nrows (tX (wT2 w)))))).
  { unfold sim_cliff_diag. destruct paulis as [|p1 ps]; [congruence|].
    rewrite Ew. cbn [bind]. subst p0. cbn [hd] in Eqc. rewrite Eqc. cbn [bind].
    replace (all_false (tX (wT w))) with true
      by (symmetry; apply (all_false_get (twf_X HT)); auto).
    replace (all_false (tX (wT2 w))) with true
      by (symmetry; apply (all_false_get (twf_X HT2)); auto).
    reflexivity. }
  eexists _, _. split; [exact E|]. split.
  - rewrite length_map. unfold range, nrows. rewrite length_seq, Nat.sub_0_r.
    apply HT2.
  - unfold on_qubits. apply Forall_map, Forall_forall. intros i Hi. simpl.
    unfold range, nrows in Hi. apply in_seq in Hi.
    destruct HT2 as (HX2' & HZ2' & _). pose proof HX2' as [Hm _].
    split; eapply wf_row; eauto; lia.
Qed.

(** whenever [sim_cliff_diag] returns, its circuit is made of the H, S
    and CNOT gates it appended *)
Lemma sim_cliff_diag_gates paulis (qc : circuit C) diag :
  sim_cliff_diag paulis = Ok (qc, diag) -> Forall clifford_gate qc.
Proof.
  unfold sim_cliff_diag. destruct paulis as [|p0 ps]; [discriminate|].
  destruct (diag_work (p0 :: ps)) as [w|] eqn:Ew; cbn [bind]; [|discriminate].
  destruct (shape_diag_work _ Ew) as (Hcl & Hruns & _).
  destruct (@cleanup_ok C unit (fun _ _ => tt) tt (fun _ => tt))
    with (size := num_qubits p0) (data := wqc w) as (qc' & Eq & _ & Hin); auto.
  - intros []. reflexivity.
  - intros []. reflexivity.
  - rewrite Eq. cbn [bind].
    destruct (negb (all_false (tX (wT w)))); [discriminate|].
    destruct (negb (all_false (tX (wT2 w)))); [discriminate|].
    intros [= <- _]. apply Forall_forall. intros x Hx.
    rewrite Forall_forall in Hcl. auto.
Qed.

(** C2, as the code has it: for every non-empty list of pairwise commuting
    Pauli operators on [n] qubits, [n] positive, with a rank that bounds
    the rank over GF(2), [sim_cliff_diag] returns; the operators it
    returns, one for every input operator, have an all-zero X component,
    and the circuit it returns contains only CNOT, Hadamard and S gates.
    (On operators without qubits [matrix_rank] is handed an array without
    columns, which is left out here.) *)
Theorem sim_cliff_diag_diagonalizes n paulis :
  0 < n -> paulis <> [] -> on_qubits n paulis -> pairwise_commute paulis ->
  rank_ok n paulis ->
  exists (qc : circuit C) diag,
    sim_cliff_diag paulis = Ok (qc, diag) /\
    length diag = length paulis /\ on_qubits n diag /\
    (forall p, In p diag -> diagonal p) /\
    (forall gate, In gate qc -> cnot_h_s gate).
Proof.
  intros _ Hne H Hc Hr.
  destruct (sim_cliff_diag_total Hne H Hc Hr) as (qc & diag & E & Hlen & Hq).
  exists qc, diag. split; [exact E|]. split; [exact Hlen|]. split; [exact Hq|]. split.
  - intros p Hp. exact (@sim_cliff_diag_returns_diagonal n paulis qc diag H E p Hp).
  - intros gate Hg. apply clifford_gate_names.
    pose proof (sim_cliff_diag_gates _ E) as Hcl.
    rewrite Forall_forall in Hcl. auto.
Qed.

End SimCliffDiag.

(** ** The cleanup keeps the operator of the circuit *)

Section CleanupOperator.

Context {C : Type} {NP : Numpy}.

Variable M : Type.
Variable mul : M -> M -> M.
Variable one : M.
Variable den : instr C -> M.

Hypothesis mul_assoc : forall a b c, mul a (mul b c) = mul (mul a b) c.
Hypothesis mul_one_l : forall a, mul one a = a.
Hypothesis mul_one_r : forall a, mul a one = a.
Hypothesis h_involutive : forall q, mul (den (qc_h q)) (den (qc_h q)) = one.
Hypothesis disjoint_commute :
  forall g1 g2, (forall q, In q (qubits g1) -> ~ In q (qubits g2)) ->
                mul (den g1) (den g2) = mul (den g2) (den g1).

(** C9: for every circuit that the diagonalization of [sim_cliff_diag]
    hands to the cleanup, popping the indices collected in [h_to_remove]
    returns a circuit with the same operator, in every monoid of operators
    where two Hadamard gates on one qubit cancel and gates on disjoint
    qubits commute. *)
Theorem cleanup_preserves_operator size paulis (w : work (C:=C)) :
  diag_work paulis = Ok w ->
  exists qc, cleanup size (wqc w) = Ok qc /\
             sem mul one den qc = sem mul one den (wqc w).
Proof.
  intros E. destruct (shape_diag_work _ E) as (Hcl & Hruns & _).
  destruct (@cleanup_ok C M mul one den mul_assoc mul_one_l mul_one_r
              h_involutive disjoint_commute size (wqc w) Hcl Hruns)
    as (qc & Eq & Es & _).
  exists qc. auto.
Qed.

End CleanupOperator.

(** ** [walk_paulis] *)

Section Walk.

Context {C : Type} {FL : Float C}.

Lemma walk_leaf_spec (dp : list (PauliOp C)) start rq (qc : circuit C) :
  (fst (walk_leaf dp start rq qc) = [] -> snd (walk_leaf dp start rq qc) = qc) /\
  forall gate, In gate (snd (walk_leaf dp start rq qc)) ->
               In gate qc \/ walk_gate gate.
Proof.
  unfold walk_leaf.
  generalize (combine (seq 0 (length dp)) dp). intros l.
  assert (H : forall (st : list nat * circuit C),
             let r := fold_left
                        (fun (st : list nat * circuit C) (ip : nat * PauliOp C) =>
                           if (to_label (primitive (snd ip)) =? start)%string
                           then (fst st ++ [fst ip],
                                 snd st ++ [qc_rz (cmul (of_int 2) (coeff (snd ip))) rq])
                           else st) l st in
             (fst r = [] -> fst st = [] /\ snd r = snd st) /\
             forall gate, In gate (snd r) -> In gate (snd st) \/ walk_gate gate).
  { induction l as [|ip l IH]; intros st; simpl; [tauto|].
    destruct (to_label (primitive (snd ip)) =? start)%string.
    - specialize (IH (fst st ++ [fst ip],
                      snd st ++ [qc_rz (cmul (of_int 2) (coeff (snd ip))) rq])).
      simpl in IH. destruct IH as [IH1 IH2]. split.
      + intros E. destruct (IH1 E) as [E' _]. destruct (fst st); discriminate.
      + intros gate Hg. destruct (IH2 gate Hg) as [Hin|Hw]; auto.
        apply in_app_or in Hin. destruct Hin as [Hin|[<-|[]]]; auto.
        right. left. eauto.
    - apply IH. }
  specialize (H ([], qc)). simpl in H. destruct H as [H1 H2]. split; auto.
  intros E. now apply H1.
Qed.

Lemma In_removelast A (l : list A) x : In x (removelast l) -> In x l.
Proof.
  induction l as [|y l IH]; simpl; auto.
  destruct l as [|z l]; [intros []|].
  intros [<-|H]; auto.
Qed.

Lemma walk_spec (dp : list (PauliOp C)) nq fuel :
  forall start (qc : circuit C) r,
    walk fuel dp nq start qc = Ok r ->
    (fst r = [] -> snd r = qc) /\
    forall gate, In gate (snd r) -> In gate qc \/ walk_gate gate.
Proof.
  induction fuel as [|fuel IH]; intros start qc r; simpl; [discriminate|].
  destruct (contains "Z" start).
  - destruct (String.length start =? nq).
    + intros [= <-]. apply walk_leaf_spec.
    + destruct (walk fuel dp nq (String "I" start) qc) as [r1|] eqn:E1; simpl; [|discriminate].
      destruct (walk fuel dp nq (String "Z" start) _) as [r2|] eqn:E2; simpl; [|discriminate].
      destruct (IH _ _ _ E1) as [H1 G1]. destruct (IH _ _ _ E2) as [H2 G2].
      destruct (fst r2) as [|v vs] eqn:Ev.
      * rewrite (H2 eq_refl).
        unfold pop_last. destruct (snd r1 ++ [_]) eqn:El.
        { destruct (snd r1); discriminate. }
        rewrite <- El. simpl. intros [= <-]. simpl. rewrite removelast_last. auto.
      * intros [= <-]. simpl. split.
        -- intros E. apply app_eq_nil in E. destruct E; discriminate.
        -- intros gate Hg. apply in_app_or in Hg. destruct Hg as [Hg|[<-|[]]].
           ++ destruct (G2 _ Hg) as [Hin|Hw]; auto.
              apply in_app_or in Hin. destruct Hin as [Hin|[<-|[]]]; auto.
              right. right. eauto.
           ++ right. right. eauto.
  - destruct (String.length start <? nq).
    + destruct (walk fuel dp nq (String "I" start) qc) as [r1|] eqn:E1; simpl; [|discriminate].
      destruct (walk fuel dp nq (String "Z" start) _) as [r2|] eqn:E2; simpl; [|discriminate].
      destruct (IH _ _ _ E1) as [H1 G1]. destruct (IH _ _ _ E2) as [H2 G2].
      intros [= <-]. simpl. split.
      * intros E. apply app_eq_nil in E. destruct E as [Ea Eb].
        rewrite (H2 Eb). auto.
      * intros gate Hg. destruct (G2 _ Hg) as [Hin|Hw]; auto.
    + intros [= <-]. simpl. auto.
Qed.

Lemma walk_total (dp : list (PauliOp C)) nq fuel :
  forall start (qc : circuit C),
    String.length start <= nq -> nq < String.length start + fuel ->
    exists r, walk fuel dp nq start qc = Ok r.
Proof.
  induction fuel as [|fuel IH]; intros start qc Hle Hlt; [lia|]. simpl.
  destruct (contains "Z" start).
  - destruct (Nat.eqb_spec (String.length start) nq) as [E|Hne]; [eauto|].
    destruct (IH (String "I" start) qc) as [r1 E1]; simpl; try lia.
    rewrite E1. simpl.
    destruct (IH (String "Z" start)
                 (snd r1 ++ [qc_cnot (String.length start)
                               (str_find "Z" (string_rev start))]))
      as [r2 E2]; simpl; try lia.
    rewrite E2. simpl.
    destruct (walk_spec _ _ _ _ _ E2) as [H2 _].
    destruct (fst r2) as [|v vs]; [|eauto].
    rewrite (H2 eq_refl). unfold pop_last.
    destruct (snd r1 ++ [_]) eqn:El; [destruct (snd r1); discriminate|].
    simpl. eauto.
  - destruct (Nat.ltb_spec (String.length start) nq); [|eauto].
    destruct (IH (String "I" start) qc) as [r1 E1]; simpl; try lia.
    rewrite E1. simpl.
    destruct (IH (String "Z" start) (snd r1)) as [r2 E2]; simpl; try lia.
    rewrite E2. simpl. eauto.
Qed.

(** the gates of [walk_paulis]: RZ, CNOT, phase and X *)
Lemma walk_paulis_gates (dp : list (PauliOp C)) qc :
  walk_paulis dp = Ok qc ->
  forall gate, In gate qc -> allowed_gate ["rz"; "p"; "x"]%string gate.
Proof.
  unfold walk_paulis. destruct dp as [|p0 dp']; [discriminate|].
  destruct (walk _ (p0 :: dp') _ "" []) as [r|] eqn:E; cbn [bind]; [|discriminate].
  destruct (walk_spec _ _ _ _ _ E) as [_ G].
  assert (Hr : forall gate, In gate (snd r) -> allowed_gate ["rz"; "p"; "x"]%string gate).
  { intros gate Hg. destruct (G _ Hg) as [[]|[(th & q & ->)|(a & b & ->)]].
    - left. simpl. auto.
    - right. simpl. auto. }
  destruct (truthy _).
  - destruct (num_qubits (primitive p0) =? 0); [discriminate|].
    intros [= <-] gate Hg.
    apply in_app_or in Hg. destruct Hg as [Hg|Hg]; auto.
    simpl in Hg. destruct Hg as [<-|[<-|[<-|[<-|[]]]]]; left; simpl; auto.
  - intros [= <-]. exact Hr.
Qed.

(** [walk_paulis] returns on every non-empty list of terms on at least one qubit *)
Lemma walk_paulis_total (dp : list (PauliOp C)) :
  dp <> [] -> 0 < num_qubits (primitive (hd (mkPauliOp (mkPauli [] [] 0) (of_int 0)) dp)) ->
  exists qc, walk_paulis dp = Ok qc.
Proof.
  intros Hne Hn. destruct dp as [|p0 dp']; [congruence|]. simpl in Hn.
  unfold walk_paulis.
  destruct (@walk_total (p0 :: dp') (num_qubits (primitive p0))
              (S (num_qubits (primitive p0))) "" []) as [r E];
    [simpl; lia | simpl; lia |].
  rewrite E. cbn [bind].
  destruct (truthy _); [|eauto].
  destruct (Nat.eqb_spec (num_qubits (primitive p0)) 0); [lia|]. eauto.
Qed.

End Walk.

(** ** Step 1: the greedy grouping *)

Section Grouping.

Context {C : Type}.

Lemma commutes_refl p : commutes p p = true.
Proof. unfold commutes. apply Nat.eqb_refl. Qed.

Lemma commutes_sym p q : commutes p q = commutes q p.
Proof. unfold commutes. apply Nat.eqb_sym. Qed.

Lemma subseq_nil_l A (l : list A) : subseq [] l.
Proof. induction l; constructor; auto. Qed.

Lemma subseq_snoc_skip A (l1 l2 : list A) x : subseq l1 l2 -> subseq l1 (l2 ++ [x]).
Proof.
  induction 1 as [|y l1 l2 H IH|y l1 l2 H IH]; simpl.
  - apply subseq_skip, subseq_nil.
  - apply subseq_skip, IH.
  - apply subseq_take, IH.
Qed.

Lemma subseq_snoc_take A (l1 l2 : list A) x :
  subseq l1 l2 -> subseq (l1 ++ [x]) (l2 ++ [x]).
Proof.
  induction 1 as [|y l1 l2 H IH|y l1 l2 H IH]; simpl.
  - apply subseq_take, subseq_nil.
  - apply subseq_skip, IH.
  - apply subseq_take, IH.
Qed.

Lemma first_fit_perm (pauli : PauliOp C) subsets :
  Permutation (concat (first_fit pauli subsets)) (concat subsets ++ [pauli]).
Proof.
  induction subsets as [|subset rest IH]; simpl; auto.
  destruct (forallb _ subset); simpl.
  - rewrite <- !app_assoc. apply Permutation_app_head.
    apply Permutation_app_comm.
  - rewrite IH. now rewrite app_assoc.
Qed.

Lemma first_fit_In (pauli : PauliOp C) subsets subset' :
  In subset' (first_fit pauli subsets) ->
  In subset' subsets \/
  subset' = [pauli] \/
  exists subset, In subset subsets /\ subset' = subset ++ [pauli] /\
                 forallb (fun p => commutes (primitive pauli) (primitive p)) subset = true.
Proof.
  induction subsets as [|subset rest IH]; simpl.
  - intros [<-|[]]. auto.
  - destruct (forallb _ subset) eqn:E; simpl.
    + intros [<-|H]; auto. right. right. exists subset. auto.
    + intros [<-|H]; auto. destruct (IH H) as [H1|[H2|(s0 & Hs & E1 & E2)]]; auto.
      right. right. exists s0. auto.
Qed.

Lemma first_fit_length (pauli : PauliOp C) subsets :
  length subsets <= length (first_fit pauli subsets).
Proof.
  induction subsets as [|subset rest IH]; simpl; auto.
  destruct (forallb _ subset); simpl; lia.
Qed.

Lemma commuting_subsets_snoc (paulis : list (PauliOp C)) pauli :
  commuting_subsets (paulis ++ [pauli]) = first_fit pauli (commuting_subsets paulis).
Proof. unfold commuting_subsets. now rewrite fold_left_app. Qed.

(** the invariant of the grouping loop *)
Lemma commuting_subsets_spec (paulis : list (PauliOp C)) :
  Permutation (concat (commuting_subsets paulis)) paulis /\
  forall subset, In subset (commuting_subsets paulis) ->
    subset <> [] /\ subseq subset paulis /\ commuting_group subset.
Proof.
  induction paulis as [|pauli paulis IH] using rev_ind.
  - split; [reflexivity|]. intros subset [].
  - destruct IH as [IHp IHs]. rewrite commuting_subsets_snoc. split.
    + rewrite first_fit_perm. now apply Permutation_app_tail.
    + intros subset' Hin.
      destruct (first_fit_In _ _ _ Hin) as [H|[->|(subset & Hs & -> & Hall)]].
      * destruct (IHs _ H) as (Hne & Hsub & Hc). repeat split; auto.
        now apply subseq_snoc_skip.
      * repeat split; [discriminate| |].
        -- change [pauli] with ([] ++ [pauli]). apply subseq_snoc_take, subseq_nil_l.
        -- intros p q [<-|[]] [<-|[]]. apply commutes_refl.
      * destruct (IHs _ Hs) as (Hne & Hsub & Hc). repeat split.
        -- destruct subset; discriminate.
        -- now apply subseq_snoc_take.
        -- rewrite forallb_forall in Hall.
           intros p q Hp Hq. apply in_app_or in Hp. apply in_app_or in Hq.
           destruct Hp as [Hp|[<-|[]]]; destruct Hq as [Hq|[<-|[]]]; auto.
           ++ rewrite commutes_sym. auto.
           ++ apply commutes_refl.
Qed.

Lemma subseq_In A (l1 l2 : list A) x : subseq l1 l2 -> In x l1 -> In x l2.
Proof.
  induction 1; simpl; auto. intros [<-|H']; auto.
Qed.

(** C4: after the greedy grouping loop [commuting_subsets] is a partition
    of the parsed terms: every term is in exactly one subset (the subsets
    together are a rearrangement of the input), every subset is non-empty
    and keeps the order of the input, and within every subset every pair
    of Pauli terms commutes. *)
Theorem commuting_subsets_partition (paulis : list (PauliOp C)) :
  Permutation (concat (commuting_subsets paulis)) paulis /\
  forall subset, In subset (commuting_subsets paulis) ->
    subset <> [] /\ subseq subset paulis /\ commuting_group subset.
Proof.
  split.
  - apply commuting_subsets_spec.
  - intros subset Hin. now apply commuting_subsets_spec.
Qed.

End Grouping.

(** ** Step 4: the per-group circuits and the master circuit *)

Section Run.

Context {C : Type} {FL : Float C} {NP : Numpy}.

Lemma allowed_gate_weaken names names' (gate : instr C) :
  (forall x, In x names -> In x names') ->
  allowed_gate names gate -> allowed_gate names' gate.
Proof. intros H [[H1 H2]|H1]; [left|right]; auto. Qed.

Lemma clifford_gate_allowed (gate : instr C) :
  clifford_gate gate -> allowed_gate ["h"; "s"]%string gate.
Proof.
  intros [[q ->]|[[q ->]|(a & b & ->)]]; [left|left|right]; simpl; auto.
Qed.

Lemma inverse_gate_allowed (gate : instr C) :
  clifford_gate gate -> allowed_gate ["h"; "sdg"]%string (inverse_gate gate).
Proof.
  intros [[q ->]|[[q ->]|(a & b & ->)]]; [left|left|right]; simpl; auto.
Qed.

Lemma inverse_allowed (qc : circuit C) gate :
  Forall clifford_gate qc -> In gate (inverse qc) ->
  allowed_gate ["h"; "sdg"]%string gate.
Proof.
  intros H Hin. unfold inverse in Hin. apply in_map_iff in Hin.
  destruct Hin as (x & <- & Hx). apply inverse_gate_allowed.
  rewrite Forall_forall in H. apply H. now apply in_rev.
Qed.

Lemma group_circuit_spec (group : list (PauliOp C)) c :
  group_circuit group = Ok c <-> group_circuit_of group c.
Proof.
  unfold group_circuit, group_circuit_of. split.
  - destruct (sim_cliff_diag (map primitive group)) as [[dq dps]|] eqn:E1;
      cbn [bind fst snd]; [|discriminate].
    destruct (walk_paulis (zipw new_pauli group dps)) as [wq|] eqn:E2;
      cbn [bind]; [|discriminate].
    intros [= <-]. exists dq, dps, wq. auto.
  - intros (dq & dps & wq & -> & E2 & ->). cbn [bind fst snd]. rewrite E2. reflexivity.
Qed.

Lemma group_circuit_gates (group : list (PauliOp C)) c :
  group_circuit group = Ok c ->
  forall gate, In gate c -> allowed_gate emitted_names gate.
Proof.
  intros E. apply group_circuit_spec in E.
  destruct E as (dq & dps & wq & E1 & E2 & ->).
  pose proof (sim_cliff_diag_gates _ E1) as Hcl.
  intros gate Hg. apply in_app_or in Hg. destruct Hg as [Hg|Hg].
  - rewrite Forall_forall in Hcl.
    eapply allowed_gate_weaken; [|apply clifford_gate_allowed, Hcl, Hg].
    unfold emitted_names. simpl. tauto.
  - apply in_app_or in Hg. destruct Hg as [Hg|Hg].
    + eapply allowed_gate_weaken; [|eapply walk_paulis_gates; eauto].
      unfold emitted_names. simpl. tauto.
    + eapply allowed_gate_weaken; [|eapply inverse_allowed; eauto].
      unfold emitted_names. simpl. tauto.
Qed.

Lemma mapM_Forall2 A B (f : A -> result B) l l' :
  mapM f l = Ok l' <-> Forall2 (fun a b => f a = Ok b) l l'.
Proof.
  revert l'. induction l as [|a l IH]; intros l'; simpl.
  - split.
    + intros [= <-]. constructor.
    + intros H. inversion H. reflexivity.
  - split.
    + destruct (f a) as [b|] eqn:Ea; cbn [bind]; [|discriminate].
      destruct (mapM f l) as [bs|]; cbn [bind]; [|discriminate].
      intros [= <-]. constructor; auto. now apply IH.
    + intros H. inversion H as [|? b ? bs Ha Hl]; subst.
      rewrite Ha. cbn [bind]. apply IH in Hl. rewrite Hl. reflexivity.
Qed.

Lemma mapM_total A B (f : A -> result B) l :
  (forall a, In a l -> exists b, f a = Ok b) -> exists l', mapM f l = Ok l'.
Proof.
  induction l as [|a l IH]; simpl; intros H; [eauto|].
  destruct (H a (or_introl eq_refl)) as [b ->]. cbn [bind].
  destruct IH as [bs ->]; [auto|]. cbn [bind]. eauto.
Qed.

(** *** The master circuit *)

Lemma compose_all (circuits : list (circuit C)) l :
  forall mc,
    (forall i, In i l -> i < length circuits) ->
    forM l (fun i mc => match nth_error circuits i with
                        | Some c => Ok (mc ++ c)
                        | None => Raise IndexError
                        end) mc
    = Ok (mc ++ concat (map (fun i => nth i circuits []) l)).
Proof.
  induction l as [|i l IH]; intros mc H; simpl.
  - now rewrite app_nil_r.
  - assert (Hi : i < length circuits) by (apply H; simpl; auto).
    destruct (nth_error circuits i) as [c|] eqn:E.
    + cbn [bind]. rewrite IH by (intros; apply H; simpl; auto).
      rewrite (nth_error_nth _ _ _ E). now rewrite app_assoc.
    + apply nth_error_None in E. lia.
Qed.

Lemma compose_fails (circuits : list (circuit C)) l :
  forall mc,
    (exists i, In i l /\ length circuits <= i) ->
    forM l (fun i mc => match nth_error circuits i with
                        | Some c => Ok (mc ++ c)
                        | None => Raise IndexError
                        end) mc
    = Raise IndexError.
Proof.
  induction l as [|i l IH]; intros mc (i0 & Hin & Hle); simpl; [destruct Hin|].
  destruct (nth_error circuits i) as [c|] eqn:E; [|reflexivity].
  cbn [bind]. apply IH. destruct Hin as [->|Hin]; [|eauto].
  assert (nth_error circuits i0 <> None) by congruence.
  apply nth_error_Some in H. lia.
Qed.

Lemma order_bound i : In i order -> i < 21.
Proof. unfold order. simpl. intuition lia. Qed.

Lemma master_circuit_ok (circuits : list (circuit C)) :
  21 <= length circuits ->
  master_circuit circuits =
  Ok (concat (repeat (trotter_step circuits) (Z.to_nat n))).
Proof.
  intros H. unfold master_circuit.
  destruct circuits as [|c0 cs] eqn:Ec; [simpl in H; lia|]. rewrite <- Ec in *.
  change (range 0 (Z.to_nat n)) with [0; 1].
  change (Z.to_nat n) with 2.
  cbn [forM]. rewrite compose_all by (intros i Hi; apply order_bound in Hi; lia).
  cbn [bind]. rewrite compose_all by (intros i Hi; apply order_bound in Hi; lia).
  cbn [bind]. f_equal. cbn [repeat concat]. rewrite app_nil_r. reflexivity.
Qed.

Lemma master_circuit_fails (circuits : list (circuit C)) :
  length circuits < 21 -> master_circuit circuits = Raise IndexError.
Proof.
  intros H. unfold master_circuit.
  destruct circuits as [|c0 cs] eqn:Ec; [reflexivity|]. rewrite <- Ec in *.
  change (range 0 (Z.to_nat n)) with [0; 1].
  cbn [forM]. rewrite compose_fails; [reflexivity|].
  exists 20. split; [|lia]. unfold order. simpl. tauto.
Qed.

Lemma order_once k : k < 21 -> count_occ Nat.eq_dec order k = 1.
Proof.
  intros H. do 21 (destruct k as [|k]; [reflexivity|]). lia.
Qed.

(** the gates of the master circuit built from the parsed terms *)
Lemma run_gates (paulis : list (PauliOp C)) mc :
  run paulis = Ok mc ->
  forall gate, In gate mc -> allowed_gate emitted_names gate.
Proof.
  unfold run.
  destruct (mapM group_circuit (commuting_subsets paulis)) as [circuits|] eqn:E;
    cbn [bind]; [|discriminate].
  apply mapM_Forall2 in E.
  assert (Hall : forall c, In c circuits ->
                           forall gate, In gate c -> allowed_gate emitted_names gate).
  { intros c Hc. clear - E Hc. induction E as [|g c' gs cs Hg _ IH]; [destruct Hc|].
    destruct Hc as [<-|Hc]; auto. eapply group_circuit_gates; eauto. }
  destruct (Nat.lt_ge_cases (length circuits) 21) as [Hlt|Hge].
  - rewrite master_circuit_fails by auto. discriminate.
  - rewrite master_circuit_ok by auto. intros [= <-] gate Hg.
    assert (Hg' : In gate (trotter_step circuits)).
    { apply in_app_or in Hg. destruct Hg as [Hg|Hg]; auto.
      apply in_app_or in Hg. destruct Hg as [Hg|[]]; auto. }
    clear Hg. rename Hg' into Hg. unfold trotter_step in Hg.
    apply in_concat in Hg. destruct Hg as (c & Hc & Hg).
    apply in_map_iff in Hc. destruct Hc as (i & <- & Hi).
    apply (Hall (nth i circuits [])); auto.
    apply nth_In. apply order_bound in Hi. lia.
Qed.

(** *** The whole run *)

Lemma group_circuit_total n (subset : list (PauliOp C)) :
  0 < n -> subset <> [] -> on_qubits n (map primitive subset) ->
  pairwise_commute (map primitive subset) -> rank_ok n (map primitive subset) ->
  exists c, group_circuit subset = Ok c.
Proof.
  intros Hn Hne Hq Hc Hr.
  destruct (@sim_cliff_diag_total C NP n (map primitive subset))
    as (qc & diag & E & Hlen & Hdq); auto.
  { destruct subset; [congruence|discriminate]. }
  unfold group_circuit. rewrite E. cbn [bind fst snd].
  destruct (@walk_paulis_total C FL (zipw new_pauli subset diag)) as [wq Ew].
  - rewrite length_map in Hlen. destruct subset, diag; simpl in *; congruence.
  - rewrite length_map in Hlen. destruct subset as [|p ps]; [congruence|].
    destruct diag as [|d ds]; [discriminate|]. simpl.
    inversion Hdq as [|? ? [Hx _] _]; subst. unfold num_qubits. simpl. lia.
  - rewrite Ew. cbn [bind]. eauto.
Qed.

Lemma subset_well_formed n (paulis subset : list (PauliOp C)) :
  on_qubits n (map primitive paulis) -> In subset (commuting_subsets paulis) ->
  subset <> [] /\ on_qubits n (map primitive subset) /\
  pairwise_commute (map primitive subset).
Proof.
  intros Hq Hin.
  destruct (commuting_subsets_spec paulis) as [_ Hs].
  destruct (Hs _ Hin) as (Hne & Hsub & Hc). split; [|split]; auto.
  - unfold on_qubits in *. rewrite Forall_forall in *. intros p Hp.
    apply in_map_iff in Hp. destruct Hp as (t & <- & Ht).
    apply Hq, in_map. eapply subseq_In; eauto.
  - intros p q Hp Hq'. apply in_map_iff in Hp. apply in_map_iff in Hq'.
    destruct Hp as (t & <- & Ht). destruct Hq' as (u & <- & Hu). now apply Hc.
Qed.

Lemma circuits_total n (paulis : list (PauliOp C)) :
  0 < n -> on_qubits n (map primitive paulis) -> ranks_ok n paulis ->
  exists circuits,
    mapM group_circuit (commuting_subsets paulis) = Ok circuits /\
    Forall2 group_circuit_of (commuting_subsets paulis) circuits /\
    length circuits = length (commuting_subsets paulis).
Proof.
  intros Hn Hq Hr.
  destruct (@mapM_total _ _ group_circuit (commuting_subsets paulis)) as [circuits E].
  - intros subset Hin.
    destruct (subset_well_formed _ _ Hq Hin) as (Hne & Hqs & Hc).
    eapply group_circuit_total; eauto.
  - exists circuits. split; auto. pose proof E as E'. apply mapM_Forall2 in E'. split.
    + eapply Forall2_impl; [|exact E']. intros g c Hgc. now apply group_circuit_spec.
    + symmetry. eapply Forall2_length; eauto.
Qed.


(** C3: with 21 commuting subsets the master circuit is the concatenation,
    repeated n = 2 times, of the 21 per-group circuits taken in the
    hard-coded order, every per-group circuit being the diagonalizing
    circuit, then the circuit of the diagonal terms, then the inverse of
    the diagonalizing circuit; every group is taken once in the order,
    hence twice in the master circuit. *)
Theorem master_circuit_structure n (paulis : list (PauliOp C)) :
  0 < n -> on_qubits n (map primitive paulis) -> ranks_ok n paulis ->
  length (commuting_subsets paulis) = 21 ->
  exists circuits,
    Forall2 group_circuit_of (commuting_subsets paulis) circuits /\
    run paulis =
      Ok (concat (repeat (concat (map (fun i => nth i circuits []) order)) 2)) /\
    order = [6; 7; 9; 1; 11; 18; 4; 13; 12; 0; 19; 15; 17; 3; 5; 2; 20; 10; 8; 16; 14] /\
    forall k, k < 21 -> count_occ Nat.eq_dec (order ++ order) k = 2.
Proof.
  intros Hn Hq Hr H21.
  destruct (circuits_total Hn Hq Hr) as (circuits & E & HF & Hlen).
  exists circuits. split; auto. split; [|split].
  - unfold run. rewrite E. cbn [bind]. rewrite master_circuit_ok by lia. reflexivity.
  - reflexivity.
  - intros k Hk. rewrite count_occ_app, order_once by auto. reflexivity.
Qed.

(** C5, as the code has it: every gate of the emitted master circuit is a
    single-qubit gate named h, s, sdg, rz, p or x, or a CNOT gate on two
    qubits; so no gate acts on three or more qubits and no two-qubit gate
    other than CNOT appears. *)
Theorem master_circuit_gates contents mc :
  master_circuit_of_file contents = Ok mc ->
  forall gate, In gate mc -> allowed_gate emitted_names gate.
Proof.
  unfold master_circuit_of_file. destruct (parse contents) as [paulis|e]; cbn [bind]; [|discriminate].
  apply run_gates.
Qed.


End Run.

(** ** Step 0: reading the Pauli strings *)

Section Parse.

Context {C : Type} {FL : Float C}.

Lemma label_xz_chars l bs :
  label_xz l = Some bs ->
  map (fun b => pauli_char (fst b) (snd b)) bs = l.
Proof.
  revert bs. induction l as [|c l IH]; intros bs; simpl.
  - now intros [= <-].
  - destruct (char_xz c) as [b|] eqn:Ec; [|discriminate].
    destruct (label_xz l) as [bs'|]; [|discriminate].
    intros [= <-]. simpl. f_equal; auto.
    unfold char_xz in Ec.
    destruct (Ascii.eqb_spec c "I"); [injection Ec as <-; now subst|].
    destruct (Ascii.eqb_spec c "X"); [injection Ec as <-; now subst|].
    destruct (Ascii.eqb_spec c "Y"); [injection Ec as <-; now subst|].
    destruct (Ascii.eqb_spec c "Z"); [injection Ec as <-; now subst|].
    discriminate.
Qed.

Lemma zipw_map_fst_snd A B D (f : A -> B -> D) (l : list (A * B)) :
  zipw f (map fst l) (map snd l) = map (fun b => f (fst b) (snd b)) l.
Proof. induction l as [|x l IH]; simpl; auto. now rewrite IH. Qed.

(** a label over I, X, Y, Z has no coefficient *)
Lemma label_coeff_plain l :
  forallb (fun c => match char_xz c with Some _ => true | None => false end) l = true ->
  label_coeff l = (false, false, l).
Proof.
  destruct l as [|c t]; [reflexivity|]. cbn [forallb].
  intros H. apply andb_true_iff in H. destruct H as [Hc _].
  unfold char_xz in Hc.
  destruct (Ascii.eqb_spec c "I"); [now subst|].
  destruct (Ascii.eqb_spec c "X"); [now subst|].
  destruct (Ascii.eqb_spec c "Y"); [now subst|].
  destruct (Ascii.eqb_spec c "Z"); [now subst|].
  discriminate.
Qed.

(** the label of the operator built from a label over I, X, Y, Z is that
    label *)
Lemma Pauli_of_label_to_label lbl p :
  plain_label lbl = true -> Pauli_of_label lbl = Ok p ->
  to_label p = lbl /\ num_qubits p = String.length lbl /\
  length (pz p) = String.length lbl.
Proof.
  unfold Pauli_of_label, plain_label. intros Hpl.
  rewrite (label_coeff_plain _ Hpl).
  destruct (label_xz (rev (list_ascii_of_string lbl))) as [bs|] eqn:E; [|discriminate].
  intros [= <-]. pose proof (label_xz_chars _ E) as Hc.
  assert (Hlen : length bs = String.length lbl).
  { rewrite <- (length_map (fun b => pauli_char (fst b) (snd b))), Hc, length_rev.
    clear. induction lbl; simpl; auto. }
  unfold to_label, num_qubits; simpl. rewrite !length_map. repeat split; auto.
  rewrite zipw_map_fst_snd, Hc, rev_involutive.
  apply string_of_list_ascii_of_string.
Qed.

Hypothesis mul_minus_one : forall c, cmul (of_int (-1)) c = cneg c.
Hypothesis mul_plus_one : forall c, cmul (of_int 1) c = c.

Lemma parse_line_ok line :
  well_formed_line line -> exists term, parse_line line = Ok term /\ parsed_as line term.
Proof.
  intros (sign & pref & d & lbl & Es & [c Ec] & [p Ep]).
  unfold parse_line. rewrite Es, Ep. cbn [bind]. rewrite Ec. cbn [bind].
  eexists. split; [reflexivity|].
  exists sign, pref, d, lbl, c, p. repeat split; auto.
  - intros Hpl. apply (Pauli_of_label_to_label _ Hpl Ep).
  - destruct (sign =? "-")%string; f_equal; auto.
Qed.

(** C8: when every non-empty line of the file has four fields separated
    by single spaces (sign, coefficient, a discarded field, Pauli string)
    with a number and a Pauli string where they belong, the parser returns
    one weighted Pauli term for every non-empty line, in order: the
    operator of the Pauli string with the parsed number as coefficient,
    negated exactly when the sign field is "-".  With 276 such lines this
    is 276 terms. *)
Theorem parse_lines contents :
  (forall line, In line (filter nonempty (splitlines contents)) -> well_formed_line line) ->
  exists terms,
    parse contents = Ok terms /\
    Forall2 parsed_as (filter nonempty (splitlines contents)) terms /\
    length terms = length (filter nonempty (splitlines contents)).
Proof.
  unfold parse. generalize (filter nonempty (splitlines contents)). intros lines H.
  induction lines as [|line lines IH]; simpl.
  - exists []. repeat split; constructor.
  - destruct (parse_line_ok (H line (or_introl eq_refl))) as (term & -> & Hterm).
    destruct IH as (terms & -> & HF & Hlen); [intros; apply H; simpl; auto|].
    cbn [bind]. exists (term :: terms). repeat split; auto.
    simpl. now rewrite Hlen.
Qed.

End Parse.

(** ** More on the greedy grouping *)

Section GroupingMore.

Context {C : Type}.

Lemma forallb_false A (f : A -> bool) l :
  forallb f l = false -> exists x, In x l /\ f x = false.
Proof.
  induction l as [|a l IH]; simpl; [discriminate|].
  destruct (f a) eqn:E; simpl.
  - intros H. destruct (IH H) as (x & Hx & Hf). eauto.
  - intros _. eauto.
Qed.

(** what [first_fit] leaves at position [i]: an old subset, an old subset
    with the term appended, or the new singleton; the term goes to the
    first subset it fits *)
Lemma first_fit_nth (pauli : PauliOp C) subsets :
  forall i new,
    nth_error (first_fit pauli subsets) i = Some new ->
    (exists old, nth_error subsets i = Some old /\
                 (new = old \/
                  (new = old ++ [pauli] /\
                   forall a sa, a < i -> nth_error subsets a = Some sa -> conflict pauli sa)))
    \/ (nth_error subsets i = None /\ new = [pauli] /\
        forall a sa, a < i -> nth_error subsets a = Some sa -> conflict pauli sa).
Proof.
  induction subsets as [|subset rest IH]; intros i new; simpl.
  - destruct i as [|i]; simpl.
    + intros [= <-]. right. repeat split; auto. intros a sa Ha. lia.
    + destruct i; discriminate.
  - destruct (forallb _ subset) eqn:E.
    + destruct i as [|i]; simpl.
      * intros [= <-]. left. exists subset. split; auto. right. split; auto.
        intros a sa Ha. lia.
      * intros H. left. exists new. auto.
    + destruct i as [|i]; simpl.
      * intros [= <-]. left. exists subset. auto.
      * intros H.
        assert (Hc : conflict pauli subset).
        { destruct (forallb_false _ _ E) as (q & Hq & Hf). exists q. auto. }
        assert (Hlow : (forall a sa, a < i -> nth_error rest a = Some sa -> conflict pauli sa) ->
                       forall a sa, a < S i -> nth_error (subset :: rest) a = Some sa ->
                                    conflict pauli sa).
        { intros Hr [|a] sa Ha; simpl.
          - intros [= <-]. exact Hc.
          - apply Hr. lia. }
        destruct (IH _ _ H) as [(old & Ho & [->|[-> Hr]])|(Hn & -> & Hr)].
        -- left. exists old. split; [exact Ho|]. left. reflexivity.
        -- left. exists old. split; [exact Ho|]. right. split; [reflexivity|].
           apply Hlow, Hr.
        -- right. split; [exact Hn|]. split; [reflexivity|]. apply Hlow, Hr.
Qed.

Lemma commuting_subsets_conflicts (paulis : list (PauliOp C)) :
  forall a b sa sb p,
    nth_error (commuting_subsets paulis) a = Some sa ->
    nth_error (commuting_subsets paulis) b = Some sb ->
    a < b -> In p sb -> conflict p sa.
Proof.
  induction paulis as [|pauli paulis IH] using rev_ind; intros a b sa sb p.
  - destruct a; discriminate.
  - rewrite commuting_subsets_snoc. intros Ha Hb Hab Hp.
    assert (Hold : exists sa0, nth_error (commuting_subsets paulis) a = Some sa0 /\
                               forall q, In q sa0 -> In q sa).
    { destruct (first_fit_nth _ _ _ Ha) as [(old & Ho & [->|[-> _]])|(Hn & _ & _)].
      - exists old. auto.
      - exists old. split; auto. intros q Hq. apply in_or_app. auto.
      - exfalso. destruct (first_fit_nth _ _ _ Hb) as [(old & Ho & _)|(Hn' & _ & _)].
        + apply nth_error_None in Hn.
          assert (b < length (commuting_subsets paulis))
            by (apply nth_error_Some; congruence). lia.
        + assert (Hlen : b < length (first_fit pauli (commuting_subsets paulis)))
            by (apply nth_error_Some; congruence).
          assert (Hlen' : a < length (first_fit pauli (commuting_subsets paulis)))
            by (apply nth_error_Some; congruence).
          apply nth_error_None in Hn. apply nth_error_None in Hn'.
          pose proof (first_fit_perm pauli (commuting_subsets paulis)) as _.
          assert (Hle : length (first_fit pauli (commuting_subsets paulis)) <=
                        S (length (commuting_subsets paulis))).
          { clear. induction (commuting_subsets paulis) as [|s0 r IHr]; simpl; auto.
            destruct (forallb _ s0); simpl; lia. }
          lia. }
    destruct Hold as (sa0 & Ha0 & Hincl).
    assert (Hlift : conflict p sa0 -> conflict p sa).
    { intros (q & Hq & Hf). exists q. auto. }
    destruct (first_fit_nth _ _ _ Hb) as [(old & Ho & [->|[-> Hr]])|(Hn & -> & Hr)].
    + apply Hlift. eapply IH; eauto.
    + apply in_app_or in Hp. destruct Hp as [Hp|[<-|[]]].
      * apply Hlift. eapply IH; eauto.
      * apply Hlift. eapply Hr; eauto.
    + destruct Hp as [<-|[]]. apply Hlift. eapply Hr; eauto.
Qed.

(** X1: the greedy grouping is a first fit: a term of a later subset was
    refused by every earlier subset, each of which holds a term that does
    not commute with it *)
Theorem first_fit_refused_earlier (paulis : list (PauliOp C)) a b sa sb p :
  nth_error (commuting_subsets paulis) a = Some sa ->
  nth_error (commuting_subsets paulis) b = Some sb ->
  a < b -> In p sb ->
  exists q, In q sa /\ commutes (primitive p) (primitive q) = false.
Proof.
  intros Ha Hb Hab Hp. eapply commuting_subsets_conflicts; eauto.
Qed.

(** X2: terms that all commute with each other stay together: the grouping
    yields the input as its one subset *)
Theorem commuting_subsets_all_commute (paulis : list (PauliOp C)) :
  paulis <> [] -> commuting_group paulis -> commuting_subsets paulis = [paulis].
Proof.
  induction paulis as [|pauli paulis IH] using rev_ind; [congruence|].
  intros _ Hc. rewrite commuting_subsets_snoc.
  destruct paulis as [|p0 ps]; [reflexivity|].
  rewrite IH; [|discriminate|].
  - cbn [first_fit].
    assert (E : forallb (fun p => commutes (primitive pauli) (primitive p)) (p0 :: ps) = true).
    { apply forallb_forall. intros q Hq. apply Hc.
      - apply in_or_app. right. left. reflexivity.
      - apply in_or_app. left. exact Hq. }
    rewrite E. reflexivity.
  - intros p q Hp Hq. apply Hc; apply in_or_app; auto.
Qed.

Lemma first_fit_singletons (pauli : PauliOp C) l :
  (forall p, In p l -> commutes (primitive pauli) (primitive p) = false) ->
  first_fit pauli (map (fun p => [p]) l) = map (fun p => [p]) (l ++ [pauli]).
Proof.
  induction l as [|p l IH]; intros H; simpl; [reflexivity|].
  rewrite (H p) by (left; reflexivity). simpl. f_equal. apply IH.
  intros q Hq. apply H. right. exact Hq.
Qed.

(** X3: terms no two of which commute are never put together: every subset
    of the grouping is a single term, in the order of the input *)
Theorem commuting_subsets_none_commute (paulis : list (PauliOp C)) :
  none_commute paulis -> commuting_subsets paulis = map (fun p => [p]) paulis.
Proof.
  induction paulis as [|pauli paulis IH] using rev_ind; [reflexivity|].
  intros Hn. rewrite commuting_subsets_snoc, IH.
  - apply first_fit_singletons. intros p Hp.
    apply in_split in Hp. destruct Hp as (l1 & l2 & ->).
    apply (Hn l1 p l2 pauli []). now rewrite <- app_assoc.
  - intros l1 p l2 q l3 E. apply (Hn l1 p l2 q (l3 ++ [pauli])).
    rewrite E. rewrite <- !app_assoc. simpl. rewrite <- !app_assoc. reflexivity.
Qed.

End GroupingMore.

(** ** The tableau updates as operations: what they undo and keep *)

Lemma list_ext_nth A (d : A) (l l' : list A) :
  length l = length l' ->
  (forall a, a < length l -> nth a l d = nth a l' d) -> l = l'.
Proof. intros Hl H. apply (nth_ext l l' d d); auto. Qed.

Lemma wf_ext m n M M' :
  wf m n M -> wf m n M' ->
  (forall a b, a < m -> b < n -> get M a b = get M' a b) -> M = M'.
Proof.
  intros H H' Hg. pose proof H as [Hm _]. pose proof H' as [Hm' _].
  apply (@list_ext_nth _ []); [congruence|].
  intros a Ha. rewrite Hm in Ha.
  apply (@list_ext_nth _ false).
  - change (length (row M a) = length (row M' a)).
    now rewrite (wf_row H Ha), (wf_row H' Ha).
  - change (forall b, b < length (row M a) -> get M a b = get M' a b).
    rewrite (wf_row H Ha). intros b Hb. now apply Hg.
Qed.

Lemma tableau_ext m n t t' :
  twf m n t -> twf m n t' ->
  (forall a b, a < m -> b < n -> get (tX t) a b = get (tX t') a b) ->
  (forall a b, a < m -> b < n -> get (tZ t) a b = get (tZ t') a b) ->
  (forall a, a < m -> nth a (tS t) false = nth a (tS t') false) ->
  t = t'.
Proof.
  intros (HX & HZ & HS) (HX' & HZ' & HS') EX EZ ES.
  destruct t as [X Z S], t' as [X' Z' S']; simpl in *.
  f_equal.
  - eapply wf_ext; eauto.
  - eapply wf_ext; eauto.
  - apply (@list_ext_nth _ false); [congruence|]. intros a Ha. apply ES. lia.
Qed.

(** the sign column after each update *)
Lemma nthS_h m n t i a :
  twf m n t ->
  nth a (tS (h t i)) false =
  xorb (nth a (tS t) false) (get (tX t) a i && get (tZ t) a i).
Proof.
  intros H. pose proof (length_col_X i H). pose proof (length_col_Z i H).
  pose proof (twf_S H). simpl.
  rewrite nth_lx by (rewrite length_la; lia).
  rewrite nth_la by lia. now rewrite !nth_col.
Qed.

Lemma nthS_s m n t i a :
  twf m n t ->
  nth a (tS (s t i)) false =
  xorb (nth a (tS t) false) (get (tX t) a i && get (tZ t) a i).
Proof.
  intros H. pose proof (length_col_X i H). pose proof (length_col_Z i H).
  pose proof (twf_S H). simpl.
  rewrite nth_lx by (rewrite length_la; lia).
  rewrite nth_la by lia. now rewrite !nth_col.
Qed.

Lemma nth_repeat_true k a : a < k -> nth a (repeat true k) false = true.
Proof.
  revert a. induction k as [|k IH]; intros [|a] Ha; simpl; try lia; auto.
  apply IH. lia.
Qed.

Lemma nthS_cnot m n t i j a :
  twf m n t -> a < m ->
  nth a (tS (cnot t i j)) false =
  xorb (nth a (tS t) false)
       (negb (xorb (get (tX t) a j) (get (tZ t) a i)) &&
        (get (tX t) a i && get (tZ t) a j)).
Proof.
  intros H Ha.
  pose proof (length_col_X i H). pose proof (length_col_Z i H).
  pose proof (length_col_X j H). pose proof (length_col_Z j H).
  pose proof (twf_S H) as HS. simpl.
  rewrite nth_lx by (rewrite !length_la, !length_lx, repeat_length; lia).
  rewrite nth_la by (rewrite !length_la, !length_lx, repeat_length; lia).
  rewrite nth_lx by (rewrite !length_lx, repeat_length; lia).
  rewrite nth_lx by lia. rewrite nth_la by lia.
  rewrite !nth_col. rewrite nth_repeat_true by lia.
  now rewrite xorb_true_r.
Qed.

Lemma nthS_cz m n t i j a :
  twf m n t -> i < n -> j < n -> i <> j -> a < m ->
  nth a (tS (cz t i j)) false =
  xorb (nth a (tS t) false)
       (xorb (get (tZ t) a i) (get (tZ t) a j) &&
        (get (tX t) a i && get (tX t) a j)).
Proof.
  intros H Hi Hj Hij Ha. unfold cz.
  rewrite (@nthS_h m n) by auto using twf_cnot, twf_h.
  rewrite (@nthS_cnot m n) by auto using twf_h.
  rewrite (@nthS_h m n) by auto.
  rewrite !(@getX_cnot m n), !(@getZ_cnot m n) by auto using twf_h.
  rewrite !(@getX_h m n), !(@getZ_h m n) by auto.
  rewrite !Nat.eqb_refl.
  destruct (Nat.eqb_spec i j); [lia|]. destruct (Nat.eqb_spec j i); [lia|].
  destruct (nth a (tS t) false), (get (tX t) a i), (get (tZ t) a i),
    (get (tX t) a j), (get (tZ t) a j); reflexivity.
Qed.

Ltac bool_cases :=
  repeat match goal with
         | |- context [get ?M ?a ?b] =>
             let x := fresh "x" in
             generalize (get M a b); intros x; destruct x
         | |- context [nth ?a ?l false] =>
             let x := fresh "x" in
             generalize (nth a l false); intros x; destruct x
         end.

Ltac idx_cases :=
  repeat match goal with
         | |- context [?a =? ?b] => destruct (Nat.eqb_spec a b); try lia; subst
         end.

Lemma h_h m n t i : twf m n t -> i < n -> h (h t i) i = t.
Proof.
  intros H Hi. apply (@tableau_ext m n); auto using twf_h.
  - intros a b Ha Hb. rewrite (@getX_h m n) by auto using twf_h.
    rewrite (@getZ_h m n), (@getX_h m n) by auto.
    rewrite Nat.eqb_refl. destruct (Nat.eqb_spec b i) as [->|]; reflexivity.
  - intros a b Ha Hb. rewrite (@getZ_h m n) by auto using twf_h.
    rewrite (@getZ_h m n), (@getX_h m n) by auto.
    rewrite Nat.eqb_refl. destruct (Nat.eqb_spec b i) as [->|]; reflexivity.
  - intros a Ha. rewrite (@nthS_h m n) by auto using twf_h.
    rewrite (@nthS_h m n) by auto.
    rewrite (@getZ_h m n), (@getX_h m n) by auto. rewrite Nat.eqb_refl.
    bool_cases; reflexivity.
Qed.

Lemma cnot_cnot m n t i j :
  twf m n t -> i < n -> j < n -> i <> j -> cnot (cnot t i j) i j = t.
Proof.
  intros H Hi Hj Hij. apply (@tableau_ext m n); auto using twf_cnot.
  - intros a b Ha Hb. rewrite (@getX_cnot m n) by auto using twf_cnot.
    rewrite !(@getX_cnot m n) by auto. rewrite Nat.eqb_refl.
    destruct (Nat.eqb_spec i j); [lia|].
    destruct (Nat.eqb_spec b j) as [->|]; [|reflexivity]. bool_cases; reflexivity.
  - intros a b Ha Hb. rewrite (@getZ_cnot m n) by auto using twf_cnot.
    rewrite !(@getZ_cnot m n) by auto. rewrite Nat.eqb_refl.
    destruct (Nat.eqb_spec j i); [lia|].
    destruct (Nat.eqb_spec b i) as [->|]; [|reflexivity]. bool_cases; reflexivity.
  - intros a Ha. rewrite (@nthS_cnot m n) by auto using twf_cnot.
    rewrite (@nthS_cnot m n) by auto.
    rewrite !(@getX_cnot m n), !(@getZ_cnot m n) by auto. rewrite !Nat.eqb_refl.
    destruct (Nat.eqb_spec i j); [lia|]. destruct (Nat.eqb_spec j i); [lia|].
    bool_cases; reflexivity.
Qed.

Lemma cnots_swap m n t j k :
  twf m n t -> j < n -> k < n -> j <> k ->
  cnot (cnot (cnot t j k) k j) j k = swap_cols_t t j k.
Proof.
  intros H Hj Hk Hjk.
  apply (@tableau_ext m n); auto using twf_cnot, twf_swap_cols_t.
  - intros a b Ha Hb. rewrite (@getX_swap_cols_t m n) by auto.
    rewrite !(@getX_cnot m n) by auto using twf_cnot.
    unfold transp. idx_cases; bool_cases; reflexivity.
  - intros a b Ha Hb. rewrite (@getZ_swap_cols_t m n) by auto.
    rewrite !(@getZ_cnot m n) by auto using twf_cnot.
    unfold transp. idx_cases; bool_cases; reflexivity.
  - intros a Ha. simpl tS at 2.
    rewrite !(@nthS_cnot m n) by auto using twf_cnot.
    rewrite !(@getX_cnot m n), !(@getZ_cnot m n) by auto using twf_cnot.
    idx_cases; bool_cases; reflexivity.
Qed.

Lemma s_s_s_s m n t i : twf m n t -> i < n -> s (s (s (s t i) i) i) i = t.
Proof.
  intros H Hi. apply (@tableau_ext m n); [auto using twf_s|assumption| | |].
  - intros a b Ha Hb. reflexivity.
  - intros a b Ha Hb. rewrite !(@getZ_s m n) by auto using twf_s.
    rewrite !getX_s. idx_cases; bool_cases; reflexivity.
  - intros a Ha. rewrite !(@nthS_s m n) by auto using twf_s.
    rewrite !(@getZ_s m n) by auto using twf_s. rewrite !getX_s.
    idx_cases; bool_cases; reflexivity.
Qed.

(** X4: the updates undo themselves: two H on one column, or two CNOT on the
    same pair of columns, restore the arrays X, Z and S; four S do *)
Theorem updates_undo m n t :
  twf m n t ->
  (forall i, i < n -> h (h t i) i = t /\ s (s (s (s t i) i) i) i = t) /\
  (forall i j, i < n -> j < n -> i <> j -> cnot (cnot t i j) i j = t).
Proof.
  intros H. split.
  - intros i Hi. split; [eapply h_h | eapply s_s_s_s]; eauto.
  - intros i j Hi Hj Hij. eapply cnot_cnot; eauto.
Qed.

(** X5: the three CNOT gates appended with a column swap are that swap: on
    the arrays they exchange the two columns and leave the signs alone *)
Theorem three_cnots_swap_cols m n t j k :
  twf m n t -> j < n -> k < n -> j <> k ->
  cnot (cnot (cnot t j k) k j) j k = swap_cols_t t j k.
Proof. intros. eapply cnots_swap; eauto. Qed.

(** X6: the CZ update, written as H, CNOT, H on the target, does not depend
    on which of its two columns is taken as the target *)
Theorem cz_symmetric m n t i j :
  twf m n t -> i < n -> j < n -> i <> j -> cz t i j = cz t j i.
Proof.
  intros H Hi Hj Hij. apply (@tableau_ext m n); auto using twf_cz.
  - intros a b Ha Hb. now rewrite !(@getX_cz m n) by auto.
  - intros a b Ha Hb. rewrite !(@getZ_cz m n) by auto.
    idx_cases; bool_cases; reflexivity.
  - intros a Ha. rewrite !(@nthS_cz m n) by auto. bool_cases; reflexivity.
Qed.

(** X7: none of the updates H, S, CNOT, CZ changes whether two rows commute *)
Theorem updates_keep_symplectic_product m n t a b :
  twf m n t -> a < m -> b < m ->
  (forall i, i < n -> sp n (h t i) a b = sp n t a b /\ sp n (s t i) a b = sp n t a b) /\
  (forall i j, i < n -> j < n -> i <> j ->
               sp n (cnot t i j) a b = sp n t a b /\ sp n (cz t i j) a b = sp n t a b).
Proof.
  intros H Ha Hb.
  assert (Hh : forall t i, twf m n t -> i < n -> sp n (h t i) a b = sp n t a b).
  { clear t H. intros t i H Hi. unfold sp, spf. apply xsum_ext. intros k _.
    rewrite !(@getX_h m n), !(@getZ_h m n); auto.
    destruct (Nat.eqb_spec k i) as [->|]; auto. bool_cases; reflexivity. }
  assert (Hc : forall t i j, twf m n t -> i < n -> j < n -> i <> j ->
                             sp n (cnot t i j) a b = sp n t a b).
  { clear t H. intros t i j H Hi Hj Hij. unfold sp, spf.
    apply (@xsum_two _ _ n i j); auto.
    - intros k Hk Hki Hkj.
      rewrite !(@getX_cnot m n), !(@getZ_cnot m n); auto.
      destruct (Nat.eqb_spec k j); [lia|]. destruct (Nat.eqb_spec k i); [lia|].
      reflexivity.
    - rewrite !(@getX_cnot m n), !(@getZ_cnot m n); auto.
      rewrite !Nat.eqb_refl.
      destruct (Nat.eqb_spec i j); [lia|]. destruct (Nat.eqb_spec j i); [lia|].
      bool_cases; reflexivity. }
  split.
  - intros i Hi. split; [now apply Hh|].
    unfold sp, spf. apply xsum_ext. intros k _.
    rewrite !getX_s, !(@getZ_s m n); auto.
    destruct (Nat.eqb_spec k i) as [->|]; auto. bool_cases; reflexivity.
  - intros i j Hi Hj Hij. split; [now apply Hc|].
    unfold cz. rewrite Hh by auto using twf_cnot, twf_h.
    rewrite Hc by auto using twf_h. now apply Hh.
Qed.

(** X8: [sweep_rows] raises its exception exactly when the two rows, read as
    Pauli operators, do not commute *)
Theorem sweep_rows_raises_iff m n t i j :
  twf m n t -> i < m -> j < m ->
  (sweep_rows t i j = Raise SweepRowsUnexpected <->
   commutes (mkPauli (row (tZ t) i) (row (tX t) i) 0)
            (mkPauli (row (tZ t) j) (row (tX t) j) 0) = false).
Proof.
  intros H Hi Hj.
  assert (Hsp : commutes (mkPauli (row (tZ t) i) (row (tX t) i) 0)
                         (mkPauli (row (tZ t) j) (row (tX t) j) 0) =
                negb (sp n t i j)).
  { rewrite (@commutes_sp n); simpl; [reflexivity|..];
      (eapply wf_row; [first [exact (twf_X H) | exact (twf_Z H)]|assumption]). }
  rewrite Hsp, negb_false_iff.
  assert (Hodd : Z.odd (sweep_t t i j) = sp n t i j).
  { apply sweep_t_odd. apply (@ncols_wf m); [exact (twf_X H)|lia]. }
  destruct (sp n t i j) eqn:E.
  - split; auto. intros _. unfold sweep_rows.
    assert (Hm : (sweep_t t i j mod 4 = 1 \/ sweep_t t i j mod 4 = 3)%Z).
    { apply Z.odd_spec in Hodd. destruct Hodd as [k Hk].
      pose proof (Z.mod_pos_bound (sweep_t t i j) 4 ltac:(lia)) as Hb.
      pose proof (Z.div_mod (sweep_t t i j) 4 ltac:(lia)) as Hd. lia. }
    destruct Hm as [-> | ->]; reflexivity.
  - split; [|discriminate]. intros Hr.
    destruct (@sweep_rows_ok m n t i j H Hi Hj E) as (t' & Et & _).
    congruence.
Qed.

(** ** The copies X2, Z2, S2 and the circuit *)

Lemma forM_keeps A S (Inv : S -> Prop) (body : A -> S -> result S) l :
  (forall a s s', In a l -> Inv s -> body a s = Ok s' -> Inv s') ->
  forall s s', forM l body s = Ok s' -> Inv s -> Inv s'.
Proof.
  induction l as [|a l IH]; intros Hb s s'; simpl.
  - intros [= <-]. auto.
  - destruct (body a s) as [s1|] eqn:E; simpl; [|discriminate].
    intros E' Hs. apply (IH (fun a0 s0 s0' Hin => Hb a0 s0 s0' (or_intror Hin)) s1 s' E').
    eapply Hb; eauto. left. reflexivity.
Qed.

Lemma fold_left_keeps A S (Inv : S -> Prop) (f : S -> A -> S) l :
  (forall a s, In a l -> Inv s -> Inv (f s a)) ->
  forall s, Inv s -> Inv (fold_left f l s).
Proof.
  induction l as [|a l IH]; intros Hf s Hs; simpl; auto.
  apply IH.
  - intros a0 s0 Hin. apply Hf. right. exact Hin.
  - apply Hf; auto. left. reflexivity.
Qed.

Lemma in_range a b x : In x (range a b) -> a <= x < b.
Proof. unfold range. intros H. apply in_seq in H. lia. Qed.

Lemma ncols_le m n M : wf m n M -> ncols M <= n.
Proof.
  intros H. destruct m as [|m].
  - destruct H as [Hm _]. destruct M; [|discriminate]. unfold ncols. simpl. lia.
  - rewrite (@ncols_wf (S m) n); auto. lia.
Qed.

Lemma sweep_rows_twf m n t i j t' :
  twf m n t -> i < m -> j < m -> sweep_rows t i j = Ok t' -> twf m n t'.
Proof.
  intros (HX & HZ & HS) Hi Hj. unfold sweep_rows.
  assert (Hrows : forall M, wf m n M -> wf m n (set_row M j (lx (row M j) (row M i)))).
  { intros M HM. pose proof (wf_row HM Hi). pose proof (wf_row HM Hj).
    apply wf_set_row; auto. rewrite length_lx. lia. }
  destruct (sweep_t t i j mod 4 =? 0)%Z; simpl.
  - intros [= <-]. split; [|split]; simpl; auto. now rewrite length_set_nth.
  - destruct (sweep_t t i j mod 4 =? 2)%Z; simpl; [|discriminate].
    intros [= <-]. split; [|split]; simpl; auto. now rewrite length_set_nth.
Qed.

Lemma sweep_column_twf m n sel k t t' :
  sel = tX \/ sel = tZ -> twf m n t -> k < m ->
  sweep_column sel k t = Ok t' -> twf m n t'.
Proof.
  intros Hsel H Hk E. unfold sweep_column in E.
  assert (Hn : nrows (sel t) = m).
  { destruct Hsel as [-> | ->]; unfold nrows; apply H. }
  rewrite Hn in E.
  revert E H. apply forM_keeps. intros l u u' Hin Hu Eb.
  apply in_range in Hin.
  destruct (l =? k); [now injection Eb as <-|].
  destruct (get (sel u) l k).
  - apply (@sweep_rows_twf m n u k l u' Hu Hk ltac:(lia) Eb).
  - now injection Eb as <-.
Qed.

Section Track.

Context {C : Type}.

Lemma replay_app (qc qc' : circuit C) t :
  replay (qc ++ qc') t = replay qc' (replay qc t).
Proof. unfold replay. apply fold_left_app. Qed.

Lemma gate_ok_h n q : q < n -> gate_ok n (qc_h (C:=C) q).
Proof.
  intros H. split; simpl.
  - intros x [<-|[]]. exact H.
  - repeat constructor. intros [].
Qed.

Lemma gate_ok_s n q : q < n -> gate_ok n (qc_s (C:=C) q).
Proof.
  intros H. split; simpl.
  - intros x [<-|[]]. exact H.
  - repeat constructor. intros [].
Qed.

Lemma gate_ok_cnot n a b : a < n -> b < n -> a <> b -> gate_ok n (qc_cnot (C:=C) a b).
Proof.
  intros Ha Hb Hab. split; simpl.
  - intros x [<-|[<-|[]]]; auto.
  - constructor; [|repeat constructor; intros []].
    intros [E|[]]. congruence.
Qed.

Lemma track_h m n T0 (w : work (C:=C)) j :
  j < n -> track m n T0 w -> track m n T0 (apply_h w j).
Proof.
  intros Hj (H & H2 & E & Hg). unfold apply_h. split; [|split; [|split]]; simpl.
  - now apply twf_h.
  - now apply twf_h.
  - rewrite replay_app, <- E. reflexivity.
  - apply Forall_app. split; auto. constructor; auto. now apply gate_ok_h.
Qed.

Lemma track_s m n T0 (w : work (C:=C)) j :
  j < n -> track m n T0 w -> track m n T0 (apply_s w j).
Proof.
  intros Hj (H & H2 & E & Hg). unfold apply_s. split; [|split; [|split]]; simpl.
  - now apply twf_s.
  - now apply twf_s.
  - rewrite replay_app, <- E. reflexivity.
  - apply Forall_app. split; auto. constructor; auto. now apply gate_ok_s.
Qed.

Lemma track_cnot m n T0 (w : work (C:=C)) i j :
  i < n -> j < n -> i <> j -> track m n T0 w -> track m n T0 (apply_cnot w i j).
Proof.
  intros Hi Hj Hij (H & H2 & E & Hg). unfold apply_cnot.
  split; [|split; [|split]]; simpl.
  - now apply twf_cnot.
  - now apply twf_cnot.
  - rewrite replay_app, <- E. reflexivity.
  - apply Forall_app. split; auto. constructor; auto. now apply gate_ok_cnot.
Qed.

Lemma track_cz m n T0 (w : work (C:=C)) i j :
  i < n -> j < n -> i <> j -> track m n T0 w -> track m n T0 (apply_cz w i j).
Proof.
  intros Hi Hj Hij (H & H2 & E & Hg). unfold apply_cz.
  split; [|split; [|split]]; simpl.
  - now apply twf_cz.
  - now apply twf_cz.
  - rewrite replay_app, <- E. reflexivity.
  - apply Forall_app. split; auto.
    constructor; [now apply gate_ok_h|].
    constructor; [now apply gate_ok_cnot|].
    constructor; [now apply gate_ok_h|constructor].
Qed.

Lemma track_pivot m n T0 sel k i j (w w' : work (C:=C)) :
  sel = tX \/ sel = tZ -> k <= i < m -> k <= j < n ->
  pivot sel k i j w = Ok w' -> track m n T0 w -> track m n T0 w'.
Proof.
  intros Hsel Hi Hj E (H & H2 & Er & Hg). unfold pivot in E.
  match type of E with
  | (bind (sweep_column _ _ (wT ?W2)) _) = _ => set (w2 := W2) in *
  end.
  assert (Hw2 : track m n T0 w2).
  { unfold w2. destruct (Nat.eqb_spec j k) as [->|Hjk]; simpl.
    - destruct (Nat.eqb_spec i k) as [->|Hik]; simpl.
      + split; [|split; [|split]]; auto.
      + split; [|split; [|split]]; simpl; auto. apply twf_swap_rows_t; auto; lia.
    - assert (Hsw : swap_cols_t (wT2 w) j k =
                    replay (wqc w ++ [qc_cnot j k; qc_cnot k j; qc_cnot j k]) T0).
      { rewrite replay_app, <- Er. simpl.
        symmetry. apply (@cnots_swap m n); auto; lia. }
      assert (Hgs : Forall (gate_ok n)
                           (wqc w ++ [qc_cnot (C:=C) j k; qc_cnot k j; qc_cnot j k])).
      { apply Forall_app. split; auto.
        constructor; [apply gate_ok_cnot; lia|].
        constructor; [apply gate_ok_cnot; lia|].
        constructor; [apply gate_ok_cnot; lia|constructor]. }
      destruct (Nat.eqb_spec i k) as [->|Hik]; simpl.
      + split; [|split; [|split]]; simpl; auto using twf_swap_cols_t.
      + split; [|split; [|split]]; simpl; auto using twf_swap_cols_t.
        apply twf_swap_cols_t. apply twf_swap_rows_t; auto; lia. }
  destruct Hw2 as (Ha & Hb & Hc & Hd).
  destruct (sweep_column sel k (wT w2)) as [t'|] eqn:Es; simpl in E; [|discriminate].
  injection E as <-. split; [|split; [|split]]; simpl; auto.
  apply (@sweep_column_twf m n sel k (wT w2) t' Hsel Ha ltac:(lia) Es).
Qed.

Lemma track_diagonalize m n T0 sel ks k0 (w w' : work (C:=C)) kk :
  sel = tX \/ sel = tZ -> k0 <= n ->
  diagonalize sel ks k0 w = Ok (w', kk) -> track m n T0 w ->
  track m n T0 w' /\ kk <= n.
Proof.
  intros Hsel. unfold diagonalize.
  change (track m n T0 w) with (track m n T0 (fst (w, k0))).
  change (k0 <= n) with (snd (w, k0) <= n).
  generalize (w, k0). intros st.
  revert st. induction ks as [|k ks IH]; intros [w1 k1]; simpl.
  - intros Hk [= <- <-]; auto.
  - intros Hk.
    destruct (find_pivot (sel (wT w1)) k) as [[i j]|] eqn:Ef; simpl.
    + destruct (pivot sel k i j w1) as [w2|] eqn:Ep; simpl; [|discriminate].
      intros E Ht. pose proof Ht as (H1 & _).
      assert (Hwf : wf m n (sel (wT w1))).
      { destruct Hsel as [-> | ->]; apply H1. }
      destruct (@find_pivot_some m n _ _ _ _ Hwf Ef) as (Hi & Hj & _).
      apply (IH (w2, S k)); simpl; auto; [lia|].
      eapply track_pivot; eauto.
    + intros E Ht. apply (IH (w1, k1)); auto.
Qed.

Lemma track_swap_diag m n T0 kx kz (w : work (C:=C)) :
  kz <= n -> track m n T0 w -> track m n T0 (swap_diag kx kz w).
Proof.
  intros Hk Ht. unfold swap_diag. apply fold_left_keeps; auto.
  intros j w1 Hj H1. apply in_range in Hj. apply track_h; auto. lia.
Qed.

Lemma track_elim_off_X m n T0 kz (w : work (C:=C)) :
  kz <= n -> track m n T0 w -> track m n T0 (elim_off_X kz w).
Proof.
  intros Hk Ht. unfold elim_off_X. apply fold_left_keeps; auto.
  intros i w1 Hi H1. apply in_range in Hi.
  assert (Hn : ncols (tX (wT w1)) <= n).
  { destruct H1 as ((HX & _) & _). eapply ncols_le; eauto. }
  revert Hn. generalize (ncols (tX (wT w1))). intros c Hc.
  apply fold_left_keeps; auto.
  intros j w2 Hj H2. apply in_range in Hj.
  destruct (get (tX (wT w2)) i j); auto.
  apply track_cnot; auto; lia.
Qed.

Lemma track_elim_off_Z m n T0 kz (w : work (C:=C)) :
  kz <= n -> track m n T0 w -> track m n T0 (elim_off_Z kz w).
Proof.
  intros Hk Ht. unfold elim_off_Z. apply fold_left_keeps; auto.
  intros i w1 Hi H1. apply in_range in Hi.
  apply fold_left_keeps; auto.
  intros j w2 Hj H2. apply in_range in Hj.
  destruct (get (tZ (wT w2)) i j); auto.
  apply track_cz; auto; lia.
Qed.

Lemma track_elim_diag_Z m n T0 kz (w : work (C:=C)) :
  kz <= n -> track m n T0 w -> track m n T0 (elim_diag_Z kz w).
Proof.
  intros Hk Ht. unfold elim_diag_Z. apply fold_left_keeps; auto.
  intros i w1 Hi H1. apply in_range in Hi.
  apply track_h; [lia|].
  destruct (get (tZ (wT w1)) i i); auto.
  apply track_s; auto; lia.
Qed.

Lemma track_diag_work {NP : Numpy} n paulis (w : work (C:=C)) :
  on_qubits n paulis -> diag_work paulis = Ok w ->
  track (length paulis) n (tab0 paulis) w.
Proof.
  intros Hq. unfold diag_work.
  destruct (diagonalize tX _ _ _) as [[w1 kx]|] eqn:E1; simpl; [|discriminate].
  destruct (diagonalize tZ _ _ _) as [[w2 kz]|] eqn:E2; simpl; [|discriminate].
  intros [= <-].
  assert (H0 : track (length paulis) n (tab0 paulis)
                     (Work (C:=C) (tab0 paulis) (tab0 paulis) [])).
  { split; [|split; [|split]]; simpl; auto; now apply twf_tab0. }
  destruct (@track_diagonalize _ n _ tX _ _ _ _ _ (or_introl eq_refl) (Nat.le_0_l n) E1 H0)
    as [H1 Hkx].
  destruct (@track_diagonalize _ n _ tZ _ _ _ _ _ (or_intror eq_refl) Hkx E2 H1)
    as [H2 Hkz].
  apply track_elim_diag_Z, track_elim_off_Z, track_elim_off_X, track_swap_diag; auto.
Qed.

(** what a returned result of [sim_cliff_diag] is made of *)
Lemma sim_cliff_diag_parts {NP : Numpy} n paulis (qc : circuit C) diag :
  on_qubits n paulis -> sim_cliff_diag paulis = Ok (qc, diag) ->
  exists w,
    diag_work paulis = Ok w /\ cleanup n (wqc w) = Ok qc /\
    track (length paulis) n (tab0 paulis) w /\
    diag = paulis_of (wT2 w) /\ Forall (gate_ok n) qc.
Proof.
  intros Hq. unfold sim_cliff_diag.
  destruct paulis as [|p0 ps] eqn:Ep; [discriminate|]. rewrite <- Ep in *.
  assert (Hn : num_qubits p0 = n).
  { unfold on_qubits in Hq. rewrite Ep in Hq. inversion Hq as [|? ? [Hx _] _]. exact Hx. }
  rewrite Hn.
  destruct (diag_work paulis) as [w|] eqn:Ew; cbn [bind]; [|discriminate].
  destruct (cleanup n (wqc w)) as [qc'|] eqn:Ec; cbn [bind]; [|discriminate].
  destruct (negb (all_false (tX (wT w)))); [discriminate|].
  destruct (negb (all_false (tX (wT2 w)))); [discriminate|].
  intros [= <- <-].
  pose proof (track_diag_work Hq Ew) as Ht.
  exists w. split; [reflexivity|]. split; [exact Ec|].
  split; [exact Ht|]. split; [reflexivity|].
  destruct (shape_diag_work _ Ew) as (Hcl & Hruns & _).
  destruct (@cleanup_ok C unit (fun _ _ => tt) tt (fun _ => tt)
              (fun _ _ _ => eq_refl) (fun a => match a with tt => eq_refl end)
              (fun a => match a with tt => eq_refl end)
              (fun _ => eq_refl) (fun _ _ _ => eq_refl)
              n (wqc w) Hcl Hruns) as (qc2 & E2 & _ & Hin).
  rewrite Ec in E2. injection E2 as <-.
  destruct Ht as (_ & _ & _ & Hok). rewrite Forall_forall in Hok.
  apply Forall_forall. intros x Hx. auto.
Qed.

End Track.

(** ** The gates as operators on the arrays *)

Lemma twfb_spec m n t : twfb m n t = true <-> twf m n t.
Proof.
  unfold twfb, twf, wf. rewrite !andb_true_iff, !Nat.eqb_eq, !forallb_forall, !Forall_forall.
  split.
  - intros [[[H1 H2] [H3 H4]] H5]. repeat split; auto;
      intros r Hr; apply Nat.eqb_eq; auto.
  - intros ([H1 H2] & [H3 H4] & H5). repeat split; auto;
      intros r Hr; apply Nat.eqb_eq; auto.
Qed.

Ltac tab_twf := auto using twf_h, twf_s, twf_cnot.

Ltac tab_rw m n :=
  repeat first
    [ rewrite (@getX_h m n) by tab_twf
    | rewrite (@getZ_h m n) by tab_twf
    | rewrite getX_s
    | rewrite (@getZ_s m n) by tab_twf
    | rewrite (@getX_cnot m n) by tab_twf
    | rewrite (@getZ_cnot m n) by tab_twf
    | rewrite (@nthS_h m n) by tab_twf
    | rewrite (@nthS_s m n) by tab_twf
    | rewrite (@nthS_cnot m n) by tab_twf ].

Ltac tab_commute m n :=
  apply (@tableau_ext m n); [tab_twf | tab_twf | | | ];
  [ intros ? ? ? ?; tab_rw m n; idx_cases; bool_cases; reflexivity
  | intros ? ? ? ?; tab_rw m n; idx_cases; bool_cases; reflexivity
  | intros ? ?; tab_rw m n; idx_cases; bool_cases; reflexivity ].

(** updates on different columns commute *)
Lemma h_h_commute m n t i j :
  twf m n t -> i < n -> j < n -> i <> j -> h (h t j) i = h (h t i) j.
Proof. intros. tab_commute m n. Qed.

Lemma h_s_commute m n t i j :
  twf m n t -> i < n -> j < n -> i <> j -> h (s t j) i = s (h t i) j.
Proof. intros. tab_commute m n. Qed.

Lemma s_s_commute m n t i j :
  twf m n t -> i < n -> j < n -> i <> j -> s (s t j) i = s (s t i) j.
Proof. intros. tab_commute m n. Qed.

Lemma h_cnot_commute m n t i a b :
  twf m n t -> i < n -> a < n -> b < n -> i <> a -> i <> b -> a <> b ->
  h (cnot t a b) i = cnot (h t i) a b.
Proof. intros. tab_commute m n. Qed.

Lemma s_cnot_commute m n t i a b :
  twf m n t -> i < n -> a < n -> b < n -> i <> a -> i <> b -> a <> b ->
  s (cnot t a b) i = cnot (s t i) a b.
Proof. intros. tab_commute m n. Qed.

Lemma cnot_cnot_commute m n t a b c d :
  twf m n t -> a < n -> b < n -> c < n -> d < n ->
  a <> b -> c <> d -> a <> c -> a <> d -> b <> c -> b <> d ->
  cnot (cnot t c d) a b = cnot (cnot t a b) c d.
Proof. intros. tab_commute m n. Qed.

Section GateOperators.

Context {C : Type}.

Lemma apply_gate_cases (gate : instr C) :
  (exists q, qubits gate = [q] /\ forall t, apply_gate gate t = h t q) \/
  (exists q, qubits gate = [q] /\ forall t, apply_gate gate t = s t q) \/
  (exists a b, qubits gate = [a; b] /\ forall t, apply_gate gate t = cnot t a b) \/
  (forall t, apply_gate gate t = t).
Proof.
  unfold apply_gate.
  destruct (name gate =? "h")%string.
  { destruct (qubits gate) as [|q [|q' l]]; eauto 10. }
  destruct (name gate =? "s")%string.
  { destruct (qubits gate) as [|q [|q' l]]; eauto 10. }
  destruct (name gate =? "cx")%string; auto.
  destruct (qubits gate) as [|q [|q' [|q'' l]]]; eauto 10.
Qed.

Lemma apply_gate_twf m n (gate : instr C) t :
  twf m n t -> twf m n (apply_gate gate t).
Proof.
  intros H.
  destruct (apply_gate_cases gate)
    as [(q & _ & E)|[(q & _ & E)|[(a & b & _ & E)|E]]];
    rewrite E; auto using twf_h, twf_s, twf_cnot.
Qed.

Lemma gate_okb_ok n (gate : instr C) : gate_ok n gate -> gate_okb n gate = true.
Proof.
  intros [Hb Hd]. unfold gate_okb. apply andb_true_iff. split.
  - apply forallb_forall. intros q Hq. apply Nat.ltb_lt. auto.
  - destruct (qubits gate) as [|a [|b [|c l]]]; auto.
    apply negb_true_iff, Nat.eqb_neq. intros ->.
    inversion Hd as [|? ? Hn _]. apply Hn. left. reflexivity.
Qed.

Lemma den_t_ok m n (gate : instr C) t :
  twf m n t -> gate_okb n gate = true -> den_t m n gate t = apply_gate gate t.
Proof.
  intros H Hg. unfold den_t. apply twfb_spec in H. now rewrite H, Hg.
Qed.

Lemma den_t_skip m n (gate : instr C) t :
  twfb m n t && gate_okb n gate = false -> den_t m n gate t = t.
Proof. intros H. unfold den_t. now rewrite H. Qed.

Lemma den_t_h m n q :
  then_t (den_t m n (qc_h (C:=C) q)) (den_t m n (qc_h (C:=C) q)) = (fun t => t).
Proof.
  apply functional_extensionality. intros t. unfold then_t.
  destruct (twfb m n t && gate_okb n (qc_h (C:=C) q)) eqn:E.
  - apply andb_true_iff in E. destruct E as [Ht Hg].
    apply twfb_spec in Ht.
    rewrite (@den_t_ok m n (qc_h q) t Ht Hg).
    rewrite den_t_ok; auto; [|apply apply_gate_twf; auto].
    cbn. apply (@h_h m n); auto.
    unfold gate_okb in Hg. cbn [qc_h qubits forallb] in Hg.
    rewrite !andb_true_r in Hg. now apply Nat.ltb_lt.
  - rewrite (@den_t_skip m n _ _ E). exact (@den_t_skip m n _ _ E).
Qed.

Lemma apply_gate_commute m n (g1 g2 : instr C) t :
  twf m n t -> gate_okb n g1 = true -> gate_okb n g2 = true ->
  (forall q, In q (qubits g1) -> ~ In q (qubits g2)) ->
  apply_gate g1 (apply_gate g2 t) = apply_gate g2 (apply_gate g1 t).
Proof.
  intros H H1 H2 Hd. unfold gate_okb in H1, H2.
  assert (Hne : forall x y, In x (qubits g1) -> In y (qubits g2) -> x <> y)
    by (intros x y Hx Hy ->; exact (Hd _ Hx Hy)).
  destruct (apply_gate_cases g1)
    as [(q1 & E1 & A1)|[(q1 & E1 & A1)|[(a1 & b1 & E1 & A1)|A1]]];
    destruct (apply_gate_cases g2)
      as [(q2 & E2 & A2)|[(q2 & E2 & A2)|[(a2 & b2 & E2 & A2)|A2]]];
    rewrite ?A1, ?A2; try reflexivity;
    rewrite ?E1, ?E2 in *; cbn [forallb] in H1, H2;
    repeat match goal with
           | H : _ && _ = true |- _ => apply andb_true_iff in H; destruct H
           | H : (_ <? _) = true |- _ => apply Nat.ltb_lt in H
           | H : negb (_ =? _) = true |- _ => apply negb_true_iff, Nat.eqb_neq in H
           end.
  - apply (@h_h_commute m n); auto. apply Hne; simpl; auto.
  - apply (@h_s_commute m n); auto. apply Hne; simpl; auto.
  - apply (@h_cnot_commute m n); auto; apply Hne; simpl; auto.
  - symmetry. apply (@h_s_commute m n); auto.
    apply not_eq_sym, Hne; simpl; auto.
  - apply (@s_s_commute m n); auto. apply Hne; simpl; auto.
  - apply (@s_cnot_commute m n); auto; apply Hne; simpl; auto.
  - symmetry. apply (@h_cnot_commute m n); auto;
      apply not_eq_sym, Hne; simpl; auto.
  - symmetry. apply (@s_cnot_commute m n); auto;
      apply not_eq_sym, Hne; simpl; auto.
  - apply (@cnot_cnot_commute m n); auto; apply Hne; simpl; auto.
Qed.

Lemma den_t_commute m n (g1 g2 : instr C) :
  (forall q, In q (qubits g1) -> ~ In q (qubits g2)) ->
  then_t (den_t m n g1) (den_t m n g2) = then_t (den_t m n g2) (den_t m n g1).
Proof.
  intros Hd. apply functional_extensionality. intros t. unfold then_t.
  destruct (twfb m n t) eqn:Et.
  2:{ assert (Ht : forall g : instr C, den_t m n g t = t).
      { intros g. apply den_t_skip. now rewrite Et. }
      now rewrite !Ht. }
  pose proof Et as Ht. apply twfb_spec in Ht.
  destruct (gate_okb n g1) eqn:E1; destruct (gate_okb n g2) eqn:E2.
  - rewrite (@den_t_ok m n g1 t Ht E1), (@den_t_ok m n g2 t Ht E2).
    rewrite !den_t_ok; auto using apply_gate_twf.
    symmetry. now apply (@apply_gate_commute m n).
  - assert (H2 : forall u, den_t m n g2 u = u).
    { intros u. apply den_t_skip. rewrite E2. apply andb_false_r. }
    now rewrite !H2.
  - assert (H1 : forall u, den_t m n g1 u = u).
    { intros u. apply den_t_skip. rewrite E1. apply andb_false_r. }
    now rewrite !H1.
  - assert (H1 : forall u, den_t m n g1 u = u).
    { intros u. apply den_t_skip. rewrite E1. apply andb_false_r. }
    assert (H2 : forall u, den_t m n g2 u = u).
    { intros u. apply den_t_skip. rewrite E2. apply andb_false_r. }
    now rewrite !H1, !H2.
Qed.

Lemma sem_replay m n (qc : circuit C) :
  Forall (gate_ok n) qc ->
  forall t, twf m n t ->
            sem then_t (fun t => t) (den_t m n) qc t = replay qc t.
Proof.
  induction 1 as [|gate qc Hg _ IH]; intros t Ht; [reflexivity|].
  cbn [sem fold_right]. unfold then_t at 1.
  rewrite den_t_ok; auto using gate_okb_ok.
  apply IH. now apply apply_gate_twf.
Qed.

(** the cleanup does not change the arrays that the circuit computes *)
Lemma cleanup_replay m n size (data qc : circuit C) t :
  Forall clifford_gate data -> hruns_ok data -> Forall (gate_ok n) data ->
  twf m n t -> cleanup size data = Ok qc ->
  replay qc t = replay data t /\ Forall (gate_ok n) qc.
Proof.
  intros Hcl Hruns Hok Ht E.
  destruct (@cleanup_ok C (tableau -> tableau) then_t (fun t => t) (den_t m n)
              (fun a b c => eq_refl) (fun a => eq_refl) (fun a => eq_refl)
              (den_t_h m n) (@den_t_commute m n) size data Hcl Hruns)
    as (qc' & E' & Hsem & Hin).
  rewrite E in E'. injection E' as <-.
  assert (Hok' : Forall (gate_ok n) qc).
  { apply Forall_forall. intros x Hx. rewrite Forall_forall in Hok. auto. }
  split; auto.
  rewrite <- (sem_replay Hok' Ht), <- (sem_replay Hok Ht). now rewrite Hsem.
Qed.

(** X9: the operators that [sim_cliff_diag] returns are the input operators
    updated gate by gate along the circuit that it returns *)
Theorem sim_cliff_diag_replay {NP : Numpy} n paulis (qc : circuit C) diag :
  on_qubits n paulis -> sim_cliff_diag paulis = Ok (qc, diag) ->
  diag = paulis_of (replay qc (tab0 paulis)).
Proof.
  intros Hq E.
  destruct (sim_cliff_diag_parts Hq E) as (w & Ew & Ec & Ht & -> & _).
  destruct Ht as (_ & _ & Er & Hok).
  destruct (shape_diag_work _ Ew) as (Hcl & Hruns & _).
  destruct (@cleanup_replay (length paulis) n _ _ _ (tab0 paulis) Hcl Hruns Hok
              (twf_tab0 Hq) Ec) as [Hrep _].
  now rewrite Hrep, <- Er.
Qed.

End GateOperators.

(** ** More on [walk_paulis] *)

Lemma get_overflow s k : String.length s <= k -> String.get k s = None.
Proof.
  revert k. induction s as [|c s IH]; intros k Hk; simpl.
  - reflexivity.
  - destruct k as [|k]; simpl in *; [lia|]. apply IH. lia.
Qed.

Lemma get_in_range s k : k < String.length s -> exists c, String.get k s = Some c.
Proof.
  revert k. induction s as [|c s IH]; intros k Hk; simpl in *; [lia|].
  destruct k as [|k]; eauto. apply IH. lia.
Qed.

Lemma ends_with_same_length start lbl :
  String.length start = String.length lbl -> ends_with start lbl -> lbl = start.
Proof.
  intros Hl [_ H]. apply get_correct. intros k.
  destruct (Nat.lt_ge_cases k (String.length start)) as [Hk|Hk].
  - rewrite <- (H k Hk). f_equal. lia.
  - rewrite !get_overflow by lia. reflexivity.
Qed.

Lemma ends_with_refl s : ends_with s s.
Proof. split; auto. intros k _. f_equal. lia. Qed.

Lemma ends_with_empty lbl : ends_with "" lbl.
Proof. split; simpl; [lia|]. intros k Hk. lia. Qed.

Lemma ends_with_cons c start lbl :
  String.length start < String.length lbl ->
  (ends_with (String c start) lbl <->
   String.get (String.length lbl - String.length start - 1) lbl = Some c /\
   ends_with start lbl).
Proof.
  intros Hl. unfold ends_with. cbn [String.length]. split.
  - intros [_ H]. split; [|split; [lia|]].
    + pose proof (H 0 ltac:(lia)) as H0. cbn [String.get] in H0.
      rewrite <- H0. f_equal. lia.
    + intros k Hk. pose proof (H (S k) ltac:(lia)) as H1. cbn [String.get] in H1.
      rewrite <- H1. f_equal. lia.
  - intros [Hc [_ H]]. split; [lia|]. intros [|k] Hk; cbn [String.get].
    + rewrite <- Hc. f_equal. lia.
    + rewrite <- (H k ltac:(lia)). f_equal. lia.
Qed.

Lemma contains_get c s : contains c s = true <-> exists k, String.get k s = Some c.
Proof.
  induction s as [|d s IH]; simpl.
  - split; [discriminate|]. intros [k Hk]. discriminate.
  - rewrite orb_true_iff, IH. split.
    + intros [E|[k Hk]].
      * apply Ascii.eqb_eq in E. subst. exists 0. reflexivity.
      * exists (S k). exact Hk.
    + intros [[|k] Hk]; simpl in Hk.
      * left. injection Hk as ->. apply Ascii.eqb_refl.
      * right. eauto.
Qed.

Lemma length_append s s' :
  String.length (s ++ s') = String.length s + String.length s'.
Proof. induction s as [|c s IH]; simpl; auto. Qed.

Lemma length_string_rev s : String.length (string_rev s) = String.length s.
Proof.
  induction s as [|c s IH]; simpl; auto.
  rewrite length_append, IH. simpl. lia.
Qed.

Lemma contains_append c s s' :
  contains c (s ++ s') = contains c s || contains c s'.
Proof.
  induction s as [|d s IH]; simpl; auto. now rewrite IH, orb_assoc.
Qed.

Lemma contains_string_rev c s : contains c (string_rev s) = contains c s.
Proof.
  induction s as [|d s IH]; simpl; auto.
  rewrite contains_append, IH. simpl. rewrite orb_false_r. apply orb_comm.
Qed.

Lemma str_find_lt c s : contains c s = true -> str_find c s < String.length s.
Proof.
  induction s as [|d s IH]; simpl; [discriminate|].
  destruct (Ascii.eqb d c); simpl; [lia|]. intros H. apply IH in H. lia.
Qed.

Lemma rotating_qubit_lt start :
  contains "Z" start = true ->
  str_find "Z" (string_rev start) < String.length start.
Proof.
  intros H. rewrite <- (length_string_rev start). apply str_find_lt.
  now rewrite contains_string_rev.
Qed.

(** the label of a diagonal term *)
Lemma length_string_of_list l : String.length (string_of_list_ascii l) = length l.
Proof. induction l; simpl; auto. Qed.

Lemma get_string_of_list l k : String.get k (string_of_list_ascii l) = nth_error l k.
Proof.
  revert k. induction l as [|c l IH]; intros [|k]; simpl; auto.
Qed.

Lemma zipw_diag_chars x z c :
  forallb negb x = true -> In c (zipw pauli_char x z) ->
  c = "I"%char \/ c = "Z"%char.
Proof.
  revert z. induction x as [|a x IH]; intros [|b z]; simpl; try tauto.
  intros H. apply andb_true_iff in H. destruct H as [Ha Hx].
  destruct a; [discriminate|].
  intros [<-|Hin]; [destruct b; auto|]. eapply IH; eauto.
Qed.

Lemma label_diag nq p :
  length (px p) = nq -> length (pz p) = nq -> diagonal p -> pphase p = 0%Z ->
  String.length (to_label p) = nq /\ only_IZ (to_label p).
Proof.
  intros Hx Hz Hd Hp. unfold to_label. rewrite Hp. simpl. split.
  - rewrite length_string_of_list, length_rev, length_zipw. lia.
  - intros k c Hk. rewrite get_string_of_list in Hk.
    apply nth_error_In in Hk. apply in_rev in Hk.
    eapply zipw_diag_chars; eauto.
Qed.

Section WalkMore.

Context {C : Type} {FL : Float C}.

Lemma walk_leaf_fold (f : PauliOp C -> bool) (gate : PauliOp C -> instr C) (d : PauliOp C) l :
  forall a (st : list nat * circuit C),
    fold_left (fun (st : list nat * circuit C) (ip : nat * PauliOp C) =>
                 if f (snd ip) then (fst st ++ [fst ip], snd st ++ [gate (snd ip)]) else st)
              (enum_from a l) st =
    (fst st ++ filter (fun i => f (nth (i - a) l d)) (seq a (length l)),
     snd st ++ map (fun i => gate (nth (i - a) l d))
                   (filter (fun i => f (nth (i - a) l d)) (seq a (length l)))).
Proof.
  induction l as [|x l IH]; intros a [v qc].
  - simpl. now rewrite !app_nil_r.
  - rewrite enum_from_cons. cbn [fold_left fst snd]. rewrite IH.
    change (seq a (length (x :: l))) with (a :: seq (S a) (length l)).
    rewrite filter_cons', Nat.sub_diag. change (nth 0 (x :: l) d) with x.
    assert (Hf : filter (fun i => f (nth (i - a) (x :: l) d)) (seq (S a) (length l)) =
                 filter (fun i => f (nth (i - S a) l d)) (seq (S a) (length l))).
    { apply filter_ext_in'. intros i Hi. apply in_seq in Hi.
      replace (i - a) with (S (i - S a)) by lia. reflexivity. }
    rewrite Hf.
    set (v' := filter (fun i => f (nth (i - S a) l d)) (seq (S a) (length l))).
    assert (Hm : map (fun i => gate (nth (i - a) (x :: l) d)) v' =
                 map (fun i => gate (nth (i - S a) l d)) v').
    { apply map_ext_in. intros i Hi. apply filter_In in Hi. destruct Hi as [Hi _].
      apply in_seq in Hi. replace (i - a) with (S (i - S a)) by lia. reflexivity. }
    destruct (f x); cbn [fst snd].
    + rewrite map_cons, Nat.sub_diag. change (nth 0 (x :: l) d) with x.
      rewrite Hm. now rewrite <- !app_assoc.
    + now rewrite Hm.
Qed.

Lemma walk_leaf_struct (dp : list (PauliOp C)) start rq (qc : circuit C) :
  let v := filter (fun i => (to_label (primitive (term_at dp i)) =? start)%string) (seq 0 (length dp)) in
  walk_leaf dp start rq qc =
  (v, qc ++ map (fun i => qc_rz (cmul (of_int 2) (coeff (term_at dp i))) rq) v).
Proof.
  unfold walk_leaf. change (combine (seq 0 (length dp)) dp) with (enum_from 0 dp).
  rewrite (walk_leaf_fold (fun p => (to_label (primitive p) =? start)%string)
             (fun p => qc_rz (cmul (of_int 2) (coeff p)) rq)
             (mkPauliOp (mkPauli [] [] 0) (of_int 0))).
  cbn [fst snd app]. unfold term_at.
  assert (E : filter (fun i => (to_label (primitive (nth (i - 0) dp (mkPauliOp (mkPauli [] [] 0) (of_int 0))))
                                =? start)%string) (seq 0 (length dp)) =
              filter (fun i => (to_label (primitive (nth i dp (mkPauliOp (mkPauli [] [] 0) (of_int 0))))
                                =? start)%string) (seq 0 (length dp))).
  { apply filter_ext_in'. intros i _. now rewrite Nat.sub_0_r. }
  rewrite E. f_equal. f_equal. apply map_ext. intros i. now rewrite Nat.sub_0_r.
Qed.

Lemma ladder_rzs nq (theta : nat -> C) q v :
  q < nq -> ladder nq (map (fun i => qc_rz (theta i) q) v).
Proof.
  intros Hq. induction v as [|i v IH]; simpl; [constructor|].
  change (ladder nq ([qc_rz (theta i) q] ++ map (fun i => qc_rz (theta i) q) v)).
  apply ladder_app; auto. now constructor.
Qed.

Lemma filter_rzs (theta : nat -> C) (q : nat -> nat) v :
  filter is_rz (map (fun i => qc_rz (theta i) (q i)) v) =
  map (fun i => qc_rz (theta i) (q i)) v.
Proof. apply filter_all. intros x Hx. apply in_map_iff in Hx. now destruct Hx as (i & <- & _). Qed.

Lemma visits_union (dp : list (PauliOp C)) nq start v1 v2 :
  (forall p, In p dp -> String.length (to_label (primitive p)) = nq /\ only_IZ (to_label (primitive p))) ->
  String.length start < nq ->
  visits dp (String "I" start) v1 -> visits dp (String "Z" start) v2 ->
  visits dp start (v1 ++ v2).
Proof.
  intros Hdp Hlen [N1 I1] [N2 I2].
  assert (Hl : forall i, i < length dp ->
                         String.length (to_label (primitive (term_at dp i))) = nq /\
                         only_IZ (to_label (primitive (term_at dp i)))).
  { intros i Hi. apply Hdp. unfold term_at. now apply nth_In. }
  split.
  - apply NoDup_app; auto. intros i H1 H2.
    apply I1 in H1. apply I2 in H2.
    destruct H1 as (Hi & E1 & _). destruct H2 as (_ & E2 & _).
    destruct (Hl i Hi) as [Hn _].
    apply ends_with_cons in E1; [|lia]. apply ends_with_cons in E2; [|lia].
    destruct E1 as [E1 _]. destruct E2 as [E2 _]. congruence.
  - intros i. rewrite in_app_iff, I1, I2. split.
    + intros [(Hi & E & Hz)|(Hi & E & Hz)]; destruct (Hl i Hi) as [Hn _];
        apply ends_with_cons in E; try lia; tauto.
    + intros (Hi & E & Hz). destruct (Hl i Hi) as [Hn Hiz].
      destruct (@get_in_range (to_label (primitive (term_at dp i)))
                  (String.length (to_label (primitive (term_at dp i))) - String.length start - 1))
        as [c Hc]; [lia|].
      destruct (Hiz _ _ Hc) as [-> | ->]; [left|right];
        (split; [exact Hi|]; split; [|exact Hz]);
        apply ends_with_cons; try lia; auto.
Qed.

Lemma walk_struct (dp : list (PauliOp C)) nq fuel :
  (forall p, In p dp -> String.length (to_label (primitive p)) = nq /\ only_IZ (to_label (primitive p))) ->
  forall start (qc : circuit C) r,
    String.length start <= nq ->
    walk fuel dp nq start qc = Ok r ->
    exists added,
      snd r = qc ++ added /\ ladder nq added /\ (fst r = [] -> added = []) /\
      visits dp start (fst r) /\
      filter is_rz added = map (fun i => rz_of (term_at dp i)) (fst r).
Proof.
  intros Hdp.
  assert (Hl : forall i, i < length dp ->
                         String.length (to_label (primitive (term_at dp i))) = nq /\
                         only_IZ (to_label (primitive (term_at dp i)))).
  { intros i Hi. apply Hdp. unfold term_at. now apply nth_In. }
  induction fuel as [|fuel IH]; intros start qc r Hlen; cbn [walk]; [discriminate|].
  destruct (contains "Z" start) eqn:Ez.
  - destruct (Nat.eqb_spec (String.length start) nq) as [En|Hne].
    + (* a leaf *)
      intros [= <-]. rewrite walk_leaf_struct. cbn [fst snd].
      set (v := filter _ (seq 0 (length dp))).
      assert (Hv : forall i, In i v -> i < length dp /\ to_label (primitive (term_at dp i)) = start).
      { intros i Hi. apply filter_In in Hi. destruct Hi as [Hi E].
        apply in_seq in Hi. apply String.eqb_eq in E. split; [lia|exact E]. }
      eexists. split; [reflexivity|]. split; [|split; [|split]].
      * apply ladder_rzs. rewrite <- En. now apply rotating_qubit_lt.
      * intros ->. reflexivity.
      * split.
        -- apply NoDup_filter, seq_NoDup.
        -- intros i. split.
           ++ intros Hi. destruct (Hv i Hi) as [Hlt E]. split; auto.
              rewrite E. split; [apply ends_with_refl|]. unfold has_Z. now rewrite E.
           ++ intros (Hi & E & _). apply filter_In. split; [apply in_seq; lia|].
              apply String.eqb_eq. apply ends_with_same_length; auto.
              destruct (Hl i Hi) as [Hn _]. lia.
      * rewrite (filter_rzs (fun i => cmul (of_int 2) (coeff (term_at dp i)))
                            (fun _ => str_find "Z" (string_rev start))).
        apply map_ext_in. intros i Hi. destruct (Hv i Hi) as [_ E].
        unfold rz_of. now rewrite E.
    + (* one more character, with a CNOT pair around the branch of Z *)
      assert (Hlt : String.length start < nq) by lia.
      pose proof (rotating_qubit_lt _ Ez) as Hrq.
      destruct (walk fuel dp nq (String "I" start) qc) as [r1|] eqn:E1;
        cbn [bind]; [|discriminate].
      destruct (walk fuel dp nq (String "Z" start) _) as [r2|] eqn:E2;
        cbn [bind]; [|discriminate].
      destruct (IH (String "I" start) _ _ ltac:(simpl; lia) E1) as (a1 & S1 & L1 & N1 & V1 & R1).
      destruct (IH (String "Z" start) _ _ ltac:(simpl; lia) E2) as (a2 & S2 & L2 & N2 & V2 & R2).
      destruct (fst r2) as [|x xs] eqn:Ev.
      * rewrite (N2 eq_refl), app_nil_r in S2. rewrite S2.
        unfold pop_last. destruct (snd r1 ++ [_]) eqn:El.
        { destruct (snd r1); discriminate. }
        rewrite <- El. rewrite removelast_last. intros [= <-]. cbn [fst snd].
        exists a1. split; [exact S1|]. split; [exact L1|]. split; [exact N1|]. split; auto.
        rewrite <- (app_nil_r (fst r1)). eapply visits_union; eauto.
      * intros [= <-]. cbn [fst snd].
        exists (a1 ++ qc_cnot (String.length start) (str_find "Z" (string_rev start))
                   :: a2 ++ [qc_cnot (String.length start) (str_find "Z" (string_rev start))]).
        split; [|split; [|split; [|split]]].
        -- rewrite S2, S1. rewrite <- !app_assoc. reflexivity.
        -- apply ladder_app; auto. apply ladder_cnot; auto; lia.
        -- intros E. apply app_eq_nil in E. destruct E; discriminate.
        -- rewrite <- Ev in *. eapply visits_union; eauto.
        -- rewrite filter_app. cbn [filter is_rz qc_cnot name String.eqb Ascii.eqb Bool.eqb].
           rewrite filter_app. cbn [filter is_rz qc_cnot name String.eqb Ascii.eqb Bool.eqb].
           rewrite app_nil_r, R1, R2, map_app. reflexivity.
  - destruct (Nat.ltb_spec (String.length start) nq) as [Hlt|Hge].
    + destruct (walk fuel dp nq (String "I" start) qc) as [r1|] eqn:E1;
        cbn [bind]; [|discriminate].
      destruct (walk fuel dp nq (String "Z" start) _) as [r2|] eqn:E2;
        cbn [bind]; [|discriminate].
      destruct (IH (String "I" start) _ _ ltac:(simpl; lia) E1) as (a1 & S1 & L1 & N1 & V1 & R1).
      destruct (IH (String "Z" start) _ _ ltac:(simpl; lia) E2) as (a2 & S2 & L2 & N2 & V2 & R2).
      intros [= <-]. cbn [fst snd]. exists (a1 ++ a2).
      split; [|split; [|split; [|split]]].
      * rewrite S2, S1. now rewrite <- app_assoc.
      * now apply ladder_app.
      * intros E. apply app_eq_nil in E. destruct E as [Ea Eb].
        now rewrite (N1 Ea), (N2 Eb).
      * eapply visits_union; eauto.
      * now rewrite filter_app, R1, R2, map_app.
    + intros [= <-]. cbn [fst snd]. exists []. split; [now rewrite app_nil_r|].
      split; [constructor|]. split; auto. split; [|reflexivity]. split; [constructor|].
      intros i. split; [intros []|]. intros (Hi & E & Hz). exfalso.
      destruct (Hl i Hi) as [Hn _].
      apply ends_with_same_length in E; [|lia].
      unfold has_Z in Hz. rewrite E in Hz. congruence.
Qed.

Lemma map_filter_index A B (f : A -> bool) (g : A -> B) d l :
  forall a,
    map (fun i => g (nth (i - a) l d))
        (filter (fun i => f (nth (i - a) l d)) (seq a (length l))) =
    map g (filter f l).
Proof.
  induction l as [|x l IH]; intros a; [reflexivity|].
  change (seq a (length (x :: l))) with (a :: seq (S a) (length l)).
  rewrite !filter_cons', Nat.sub_diag. change (nth 0 (x :: l) d) with x.
  assert (Hf : filter (fun i => f (nth (i - a) (x :: l) d)) (seq (S a) (length l)) =
               filter (fun i => f (nth (i - S a) l d)) (seq (S a) (length l))).
  { apply filter_ext_in'. intros i Hi. apply in_seq in Hi.
    replace (i - a) with (S (i - S a)) by lia. reflexivity. }
  rewrite Hf.
  set (v' := filter (fun i => f (nth (i - S a) l d)) (seq (S a) (length l))).
  assert (Hm : map (fun i => g (nth (i - a) (x :: l) d)) v' =
               map (fun i => g (nth (i - S a) l d)) v').
  { apply map_ext_in. intros i Hi. apply filter_In in Hi. destruct Hi as [Hi _].
    apply in_seq in Hi. replace (i - a) with (S (i - S a)) by lia. reflexivity. }
  destruct (f x).
  - rewrite !map_cons, Nat.sub_diag. change (nth 0 (x :: l) d) with x.
    rewrite Hm. unfold v'. now rewrite IH.
  - rewrite Hm. unfold v'. now rewrite IH.
Qed.

Lemma ladder_gate_ok nq (a : circuit C) : ladder nq a -> Forall (gate_ok nq) a.
Proof.
  induction 1 as [|theta q Hq|a b _ IHa _ IHb|c t a Hc Ht Hct _ IH].
  - constructor.
  - constructor; [|constructor]. split; simpl.
    + intros x [<-|[]]. exact Hq.
    + repeat constructor. intros [].
  - apply Forall_app. auto.
  - constructor; [now apply gate_ok_cnot|].
    apply Forall_app. split; auto. constructor; [now apply gate_ok_cnot|constructor].
Qed.

Lemma diag_terms_labels nq (dp : list (PauliOp C)) :
  diag_terms nq dp ->
  forall p, In p dp -> String.length (to_label (primitive p)) = nq /\
                       only_IZ (to_label (primitive p)).
Proof.
  intros H p Hp. destruct (H p Hp) as (Hx & Hz & Hd & Hph). now apply label_diag.
Qed.

(** the body of [walk_paulis]: the circuit of [walk] and the gates of the
    global phase *)
Lemma walk_paulis_struct nq (dp : list (PauliOp C)) qc :
  diag_terms nq dp -> walk_paulis dp = Ok qc ->
  exists body v,
    qc = body ++ global_phase_gates nq dp /\ ladder nq body /\
    visits dp ""%string v /\
    filter is_rz body = map (fun i => rz_of (term_at dp i)) v /\
    (truthy (global_phase nq dp) = true -> 0 < nq).
Proof.
  intros Hd. unfold walk_paulis. destruct dp as [|p0 dp']; [discriminate|].
  assert (Hn : num_qubits (primitive p0) = nq).
  { unfold num_qubits. apply (Hd p0). left. reflexivity. }
  rewrite Hn.
  destruct (walk (S nq) (p0 :: dp') nq "" []) as [r|] eqn:E; cbn [bind]; [|discriminate].
  destruct (@walk_struct (p0 :: dp') nq (S nq) (diag_terms_labels Hd) ""%string [] r
              (Nat.le_0_l nq) E)
    as (added & S1 & L1 & _ & V1 & R1).
  cbn [app] in S1. rewrite S1.
  unfold global_phase_gates. fold (global_phase nq (p0 :: dp')).
  destruct (truthy (global_phase nq (p0 :: dp'))) eqn:Et.
  - destruct (Nat.eqb_spec nq 0) as [E0|Hne]; [discriminate|].
    intros [= <-]. exists added, (fst r).
    split; [reflexivity|]. split; [exact L1|]. split; [exact V1|].
    split; [exact R1|]. intros _. lia.
  - intros [= <-]. exists added, (fst r). rewrite app_nil_r.
    split; [reflexivity|]. split; [exact L1|]. split; [exact V1|].
    split; [exact R1|]. discriminate.
Qed.

(** X14: every term with a Pauli-Z factor gets one rotation, by twice its
    coefficient on its lowest qubit with a Z, and no other rotation is
    appended: the RZ gates of the circuit are those of the terms, up to
    their order *)
Theorem walk_paulis_rotations nq (dp : list (PauliOp C)) qc :
  diag_terms nq dp -> walk_paulis dp = Ok qc ->
  Permutation (filter is_rz qc) (map rz_of (filter has_Z dp)).
Proof.
  intros Hd E.
  destruct (walk_paulis_struct Hd E) as (body & v & -> & _ & [Nv Iv] & Rz & _).
  rewrite filter_app.
  assert (Ht : filter is_rz (global_phase_gates nq dp) = []).
  { unfold global_phase_gates. destruct (truthy _); reflexivity. }
  rewrite Ht, app_nil_r, Rz.
  rewrite <- (@map_filter_index _ _ has_Z rz_of
                (mkPauliOp (mkPauli [] [] 0) (of_int 0)) dp 0).
  assert (Hp : Permutation v
                 (filter (fun i => has_Z (term_at dp i)) (seq 0 (length dp)))).
  { apply NoDup_Permutation; auto.
    - apply NoDup_filter, seq_NoDup.
    - intros i. rewrite Iv, filter_In, in_seq. split.
      + intros (Hi & _ & Hz). split; [lia|exact Hz].
      + intros [Hi Hz]. split; [lia|]. split; [apply ends_with_empty|exact Hz]. }
  apply (Permutation_map (fun i => rz_of (term_at dp i))) in Hp.
  etransitivity; [exact Hp|].
  unfold term_at.
  match goal with
  | |- Permutation ?a ?b => replace b with a; [reflexivity|]
  end.
  rewrite (filter_ext_in' (fun i => has_Z (nth i dp (mkPauliOp (mkPauli [] [] 0) (of_int 0))))
             (fun i => has_Z (nth (i - 0) dp (mkPauliOp (mkPauli [] [] 0) (of_int 0))))).
  - apply map_ext. intros i. now rewrite Nat.sub_0_r.
  - intros i _. now rewrite Nat.sub_0_r.
Qed.

(** the qubits of [walk_paulis]: within the register of the terms, and a
    CNOT on two different qubits *)
Lemma walk_paulis_register nq (dp : list (PauliOp C)) qc :
  diag_terms nq dp -> walk_paulis dp = Ok qc -> Forall (gate_ok nq) qc.
Proof.
  intros Hd E.
  destruct (walk_paulis_struct Hd E) as (body & v & -> & L & _ & _ & Hn).
  apply Forall_app. split; [now apply ladder_gate_ok|].
  unfold global_phase_gates. destruct (truthy _); [|constructor].
  specialize (Hn eq_refl).
  repeat constructor; simpl; try (intros x [<-|[]]; exact Hn); intros [].
Qed.

Section Ladder.

Variable M : Type.
Variable mul : M -> M -> M.
Variable one : M.
Variable den : instr C -> M.

Hypothesis mul_assoc : forall a b c, mul a (mul b c) = mul (mul a b) c.
Hypothesis mul_one_l : forall a, mul one a = a.
Hypothesis mul_one_r : forall a, mul a one = a.
Hypothesis cnot_involutive :
  forall c t, mul (den (qc_cnot c t)) (den (qc_cnot c t)) = one.
Hypothesis rz_ignored : forall theta q, den (qc_rz theta q) = one.

Lemma sem_append (c1 c2 : circuit C) :
  sem mul one den (c1 ++ c2) = mul (sem mul one den c1) (sem mul one den c2).
Proof.
  induction c1 as [|x c1 IH]; simpl.
  - now rewrite mul_one_l.
  - now rewrite IH, mul_assoc.
Qed.

Lemma ladder_sem nq (a : circuit C) : ladder nq a -> sem mul one den a = one.
Proof.
  induction 1 as [|theta q Hq|a b _ IHa _ IHb|c t a Hc Ht Hct _ IH].
  - reflexivity.
  - simpl. now rewrite rz_ignored, mul_one_l.
  - now rewrite sem_append, IHa, IHb, mul_one_l.
  - change (qc_cnot c t :: a ++ [qc_cnot c t])
      with ([qc_cnot (C:=C) c t] ++ a ++ [qc_cnot c t]).
    rewrite !sem_append, IH. simpl. rewrite !mul_one_r, mul_one_l.
    apply cnot_involutive.
Qed.

(** X15: with the rotations left out, the CNOT gates of [walk_paulis] cancel:
    in every monoid of operators where a CNOT gate is its own inverse,
    the circuit has the operator of the gates of the global phase *)
Theorem walk_paulis_cnots_cancel nq (dp : list (PauliOp C)) qc :
  diag_terms nq dp -> walk_paulis dp = Ok qc ->
  sem mul one den qc = sem mul one den (global_phase_gates nq dp).
Proof.
  intros Hd E.
  destruct (walk_paulis_struct Hd E) as (body & v & -> & L & _).
  now rewrite sem_append, (ladder_sem L), mul_one_l.
Qed.

End Ladder.

End WalkMore.

(** ** The register of the master circuit *)

Section Register.

Context {C : Type} {FL : Float C} {NP : Numpy}.

Lemma on_qubits_paulis_of m n t : twf m n t -> on_qubits n (paulis_of t).
Proof.
  intros H. unfold on_qubits, paulis_of. apply Forall_map, Forall_forall.
  intros i Hi. apply in_range in Hi. unfold nrows in Hi.
  pose proof H as (HX & HZ & _). pose proof HX as [Hm _]. rewrite Hm in Hi.
  simpl. split; eapply wf_row; eauto; lia.
Qed.

Lemma In_zipw A B D (f : A -> B -> D) l l' x :
  In x (zipw f l l') -> exists a b, In a l /\ In b l' /\ x = f a b.
Proof.
  revert l'. induction l as [|a l IH]; intros [|b l']; simpl; try tauto.
  intros [<-|H].
  - exists a, b. auto.
  - destruct (IH _ H) as (a' & b' & Ha & Hb & ->). exists a', b'. auto.
Qed.

Lemma inverse_register n (qc : circuit C) :
  Forall (gate_ok n) qc -> Forall (gate_ok n) (inverse qc).
Proof.
  intros H. unfold inverse. apply Forall_map, Forall_rev.
  eapply Forall_impl; [|exact H]. intros gate Hg. unfold gate_ok, inverse_gate in *.
  destruct (name gate =? "s")%string; [exact Hg|].
  destruct (name gate =? "sdg")%string; [exact Hg|].
  destruct ((name gate =? "rz")%string || (name gate =? "p")%string); exact Hg.
Qed.

Lemma group_circuit_register n (group : list (PauliOp C)) c :
  on_qubits n (map primitive group) -> group_circuit group = Ok c ->
  Forall (gate_ok n) c.
Proof.
  intros Hq E. apply group_circuit_spec in E.
  destruct E as (dq & dps & wq & E1 & E2 & ->).
  destruct (sim_cliff_diag_parts Hq E1) as (w & _ & _ & Ht & Ed & Hok).
  pose proof (sim_cliff_diag_returns_diagonal Hq E1) as Hdiag.
  destruct Ht as (_ & Htw & _).
  pose proof (on_qubits_paulis_of Htw) as Hqd. rewrite <- Ed in Hqd.
  assert (Hd : diag_terms n (zipw new_pauli group dps)).
  { intros p Hp. apply In_zipw in Hp. destruct Hp as (a & b & _ & Hb & ->).
    unfold on_qubits in Hqd. rewrite Forall_forall in Hqd.
    destruct (Hqd b Hb) as [Hx Hz]. simpl. repeat split; auto.
    apply (Hdiag b Hb). }
  apply Forall_app. split; [exact Hok|]. apply Forall_app. split.
  - eapply walk_paulis_register; eauto.
  - now apply inverse_register.
Qed.

Lemma run_register n (paulis : list (PauliOp C)) mc :
  on_qubits n (map primitive paulis) -> run paulis = Ok mc ->
  Forall (gate_ok n) mc.
Proof.
  intros Hq. unfold run.
  destruct (mapM group_circuit (commuting_subsets paulis)) as [circuits|] eqn:E;
    cbn [bind]; [|discriminate].
  apply mapM_Forall2 in E.
  assert (Hall : forall c, In c circuits -> Forall (gate_ok n) c).
  { assert (Hs : forall s, In s (commuting_subsets paulis) ->
                           on_qubits n (map primitive s)).
    { intros s0 Hs0. now destruct (@subset_well_formed C n paulis s0 Hq Hs0) as (_ & H & _). }
    revert E Hs. generalize (commuting_subsets paulis). intros groups E Hs.
    intros c Hc. induction E as [|g c' gs cs Hg _ IH]; [destruct Hc|].
    destruct Hc as [<-|Hc].
    - eapply group_circuit_register; [|exact Hg]. apply Hs. left. reflexivity.
    - apply IH; auto. intros s0 Hs0. apply Hs. right. exact Hs0. }
  destruct (Nat.lt_ge_cases (length circuits) 21) as [Hlt|Hge].
  - rewrite master_circuit_fails by auto. discriminate.
  - rewrite master_circuit_ok by auto. intros [= <-].
    assert (Ht : Forall (gate_ok n) (trotter_step circuits)).
    { unfold trotter_step. apply Forall_concat, Forall_map, Forall_forall.
      intros i Hi. apply Hall, nth_In. apply order_bound in Hi. lia. }
    repeat (apply Forall_app; split; auto).
Qed.

(** X16: the master circuit stays within the register of the terms: every
    gate acts on qubits below the number of qubits of the terms, and no
    gate names a qubit twice *)
Theorem master_circuit_register n contents (paulis : list (PauliOp C)) mc :
  parse contents = Ok paulis -> on_qubits n (map primitive paulis) ->
  master_circuit_of_file contents = Ok mc ->
  forall gate, In gate mc ->
    (forall q, In q (qubits gate) -> q < n) /\ NoDup (qubits gate).
Proof.
  intros Hp Hq. unfold master_circuit_of_file. rewrite Hp. cbn [bind]. intros E gate Hg.
  pose proof (@run_register n paulis mc Hq E) as H. rewrite Forall_forall in H.
  exact (H gate Hg).
Qed.

(** X17: the hard-coded order reads the circuits 0 to 20 only: the circuits of
    further subsets do not reach the master circuit *)
Theorem master_circuit_ignores_rest (circuits more : list (circuit C)) :
  21 <= length circuits ->
  master_circuit (circuits ++ more) = master_circuit circuits.
Proof.
  intros H. rewrite !master_circuit_ok by (rewrite ?length_app; lia).
  assert (E : trotter_step (circuits ++ more) = trotter_step circuits).
  { unfold trotter_step. f_equal. apply map_ext_in. intros i Hi.
    apply order_bound in Hi. apply app_nth1. lia. }
  now rewrite E.
Qed.

End Register.

(** ** More on the cleanup *)

Section CleanupMore.

Context {C : Type}.

Lemma In_enum_nth_error A (l : list A) i x :
  In (i, x) (enum_from 0 l) -> nth_error l i = Some x.
Proof.
  intros H. apply (@In_keep A [] l i x). unfold keep. apply filter_In. split; auto.
Qed.

Lemma filter_map_comm A B (f : A -> B) (P : B -> bool) l :
  filter P (map f l) = map f (filter (fun x => P (f x)) l).
Proof.
  induction l as [|x l IH]; simpl; auto.
  destruct (P (f x)); simpl; now rewrite IH.
Qed.

Lemma nth_repeat_None size q : nth q (repeat (@None nat) size) None = None.
Proof. revert q. induction size as [|n IH]; intros [|q]; simpl; auto. Qed.

(** the indices collected by the scan are positions of Hadamard gates,
    and they are collected in pairs *)
Lemma scan_collects_h size (data : circuit C) :
  (forall a, In a (snd (scan size data)) ->
             exists gate, nth_error data a = Some gate /\ is_h gate = true) /\
  (forall q a, nth q (fst (scan size data)) None = Some a ->
               exists gate, nth_error data a = Some gate /\ is_h gate = true) /\
  Nat.Even (length (snd (scan size data))).
Proof.
  induction data as [|gate p IH] using rev_ind.
  - unfold scan. simpl. split; [intros a []|]. split; [|exists 0; reflexivity].
    intros q a H. rewrite nth_repeat_None in H. discriminate.
  - rewrite scan_snoc. destruct (scan size p) as [lh R]. cbn [fst snd] in IH.
    destruct IH as (HR & Hlh & Hev).
    assert (Hlift : forall a, (exists g, nth_error p a = Some g /\ is_h g = true) ->
                              exists g, nth_error (p ++ [gate]) a = Some g /\ is_h g = true).
    { intros a (g0 & E & Hh). exists g0. split; auto.
      rewrite nth_error_app1; auto. apply nth_error_Some. congruence. }
    assert (Hnew : is_h gate = true ->
                   exists g, nth_error (p ++ [gate]) (length p) = Some g /\ is_h g = true).
    { intros Hh. exists gate. split; auto.
      rewrite nth_error_app2, Nat.sub_diag; auto. }
    unfold scan_step. fold (is_h gate). destruct (is_h gate) eqn:Hh.
    + destruct (nth (hd 0 (qubits gate)) lh None) as [a|] eqn:Eq; cbn [fst snd].
      * split; [|split].
        -- intros x Hx. apply in_app_or in Hx. destruct Hx as [Hx|[<-|[<-|[]]]]; eauto.
        -- intros q x Hx. eauto.
        -- rewrite length_app. simpl. destruct Hev as [k Hk]. exists (S k). lia.
      * split; [|split]; auto.
        intros q x Hx. apply nth_set_nth_Some in Hx.
        destruct Hx as [[_ ->]|[_ Hx]]; eauto.
    + cbn [fst snd]. split; [|split]; auto.
      intros q x Hx. rewrite nth_reset in Hx.
      destruct (existsb (Nat.eqb q) (qubits gate)); [discriminate|]. eauto.
Qed.

Lemma sem_parity q (c : circuit C) :
  sem xorb false (fun gate => is_h gate && (hd 0 (qubits gate) =? q)) c =
  Nat.odd (h_on q c).
Proof.
  unfold h_on. induction c as [|gate c IH]; [reflexivity|].
  cbn [sem fold_right filter]. fold (sem xorb false
    (fun gate => is_h gate && (hd 0 (qubits gate) =? q)) c). rewrite IH.
  destruct (is_h gate && (hd 0 (qubits gate) =? q)); cbn [length xorb].
  - rewrite Nat.odd_succ, <- Nat.negb_odd. reflexivity.
  - reflexivity.
Qed.

(** X12: on a circuit of H, S and CNOT gates on the qubits of the register,
    without three Hadamard gates in a row on a qubit, the cleanup returns;
    it removes Hadamard gates only, the other gates stay as they are and
    in order, and on every qubit the number of Hadamard gates changes by
    an even number *)
Theorem cleanup_removes_hadamard_pairs size (data : circuit C) :
  (forall gate q, In gate data -> In q (qubits gate) -> q < size) ->
  Forall clifford_gate data -> hruns_ok data ->
  exists qc, cleanup size data = Ok qc /\
             filter not_h qc = filter not_h data /\
             forall q, Nat.odd (h_on q qc) = Nat.odd (h_on q data).
Proof.
  intros _ Hcl Hruns.
  destruct (@scan_inv_holds C unit (fun _ _ => tt) tt (fun _ => tt)
              (fun _ _ _ => eq_refl) (fun a => match a with tt => eq_refl end)
              (fun a => match a with tt => eq_refl end)
              (fun _ => eq_refl) (fun _ _ _ => eq_refl)
              size data Hcl Hruns) as (Ha & Hb & _).
  destruct (scan_collects_h size data) as (HR & _ & _).
  set (R := snd (scan size data)) in *.
  assert (Hmem : forall x, In x (rev (sort R)) <-> In x R).
  { intros x. rewrite <- in_rev. split; intros Hx.
    - eapply Permutation_in; [apply sort_perm|exact Hx].
    - eapply Permutation_in; [symmetry; apply sort_perm|exact Hx]. }
  assert (Ec : cleanup size data = Ok (map snd (keep R data))).
  { unfold cleanup. change (h_to_remove size data) with R.
    rewrite pop_all.
    - now rewrite (@keep_ext _ (rev (sort R)) R data Hmem).
    - now apply desc_rev_sort.
    - intros d Hd. apply Ha, Hmem, Hd. }
  exists (map snd (keep R data)). split; [exact Ec|]. split.
  - rewrite filter_map_comm. unfold keep. rewrite filter_filter'.
    rewrite (filter_ext_in' _ (fun ig => not_h (snd ig))).
    + rewrite <- filter_map_comm. now rewrite map_snd_enum_from.
    + intros [i x] Hin. cbn [fst snd].
      destruct (existsb (Nat.eqb i) R) eqn:E; [|reflexivity].
      apply existsb_eqb_In in E. destruct (HR i E) as (g0 & E0 & Hh).
      apply In_enum_nth_error in Hin. rewrite Hin in E0. injection E0 as <-.
      unfold not_h. rewrite Hh. reflexivity.
  - intros q.
    destruct (@cleanup_ok C bool xorb false
                (fun gate => is_h gate && (hd 0 (qubits gate) =? q))
                (fun a b c => eq_sym (xorb_assoc_reverse a b c))
                xorb_false_l xorb_false_r
                (fun q0 => xorb_nilpotent _)
                (fun g1 g2 _ => xorb_comm _ _)
                size data Hcl Hruns) as (qc' & Ec' & Hsem & _).
    rewrite Ec in Ec'. injection Ec' as <-.
    rewrite <- !sem_parity. exact Hsem.
Qed.

(** *** Outside that: three Hadamard gates in a row *)

Lemma scan_repeat_h size q k :
  q < size ->
  scan size (repeat (qc_h (C:=C) q) (S k)) =
  (set_nth q (Some 0) (repeat None size), flat_map (fun i => [0; i]) (seq 1 k)).
Proof.
  intros Hq. induction k as [|k IH].
  - unfold scan. cbn [repeat enum_from length seq combine fold_left scan_step
                        qc_h name qubits hd].
    change (("h" =? "h")%string) with true. cbv iota.
    now rewrite nth_repeat_None.
  - replace (repeat (qc_h (C:=C) q) (S (S k))) with (repeat (qc_h (C:=C) q) (S k) ++ [qc_h q]).
    2:{ rewrite <- repeat_cons. reflexivity. }
    rewrite scan_snoc, IH. unfold scan_step. cbn [qc_h name qubits hd].
    change (("h" =? "h")%string) with true. cbv iota.
    rewrite nth_set_nth_eq by (now rewrite repeat_length).
    rewrite repeat_length. rewrite seq_S, flat_map_app. reflexivity.
Qed.

Lemma insert_after_zeros a j l :
  1 <= a -> insert_sorted a (repeat 0 j ++ l) = repeat 0 j ++ insert_sorted a l.
Proof.
  intros Ha. induction j as [|j IH]; simpl; auto.
  destruct (Nat.leb_spec a 0); [lia|]. now rewrite IH.
Qed.

Lemma sort_pairs a j :
  1 <= a ->
  sort (flat_map (fun i => [0; i]) (seq a j)) = repeat 0 j ++ seq a j.
Proof.
  revert a. induction j as [|j IH]; intros a Ha; [reflexivity|].
  cbn [seq flat_map app sort fold_right].
  change (fold_right insert_sorted [] (flat_map (fun i => [0; i]) (seq (S a) j)))
    with (sort (flat_map (fun i => [0; i]) (seq (S a) j))).
  rewrite IH by lia. rewrite insert_after_zeros by lia.
  assert (E : insert_sorted a (seq (S a) j) = a :: seq (S a) j).
  { destruct j; simpl; auto. destruct (Nat.leb_spec a (S a)); [reflexivity|lia]. }
  rewrite E. destruct j; reflexivity.
Qed.

Lemma forM_app A S (body : A -> S -> result S) l l' s :
  forM (l ++ l') body s = (s' <- forM l body s ;; forM l' body s').
Proof.
  revert s. induction l as [|a l IH]; intros s; simpl; auto.
  destruct (body a s); simpl; auto.
Qed.

Lemma rev_repeat_same A (a : A) j : rev (repeat a j) = repeat a j.
Proof.
  induction j as [|j IH]; [reflexivity|].
  cbn [repeat rev]. rewrite IH. symmetry. apply repeat_cons.
Qed.

Lemma firstn_repeat_S A (a : A) j : firstn j (repeat a (S j)) = repeat a j.
Proof.
  induction j as [|j IH]; [reflexivity|].
  change (repeat a (S (S j))) with (a :: repeat a (S j)).
  cbn [firstn]. rewrite IH. reflexivity.
Qed.

Lemma pop_repeat_last A (a : A) j : pop j (repeat a (S j)) = Ok (repeat a j).
Proof.
  unfold pop. rewrite repeat_length.
  destruct (Nat.ltb_spec j (S j)); [|lia]. f_equal.
  rewrite skipn_all2 by (rewrite repeat_length; lia). rewrite app_nil_r.
  apply firstn_repeat_S.
Qed.

Lemma pops_down A (a : A) j :
  forM (rev (seq 1 j)) (fun i d => pop i d) (repeat a (S j)) = Ok [a].
Proof.
  induction j as [|j IH]; [reflexivity|].
  rewrite seq_S, rev_app_distr. cbn [rev app forM Nat.add].
  rewrite pop_repeat_last. cbn [bind]. exact IH.
Qed.

(** X13: the scan does not forget a Hadamard gate that it has paired: on three
    or more Hadamard gates in a row on one qubit the first index is
    collected once for every later gate, and popping it again from the
    emptied list raises an IndexError *)
Theorem cleanup_three_hadamards size q k :
  q < size -> 3 <= k ->
  cleanup size (repeat (qc_h (C:=C) q) k) = Raise IndexError.
Proof.
  intros Hq Hk. destruct k as [|k]; [lia|].
  unfold cleanup. change (h_to_remove size (repeat (qc_h (C:=C) q) (S k)))
    with (snd (scan size (repeat (qc_h (C:=C) q) (S k)))).
  rewrite scan_repeat_h by auto. cbn [snd].
  rewrite sort_pairs by lia.
  rewrite rev_app_distr, rev_repeat_same, forM_app, pops_down. cbn [bind].
  destruct k as [|[|k]]; try lia. reflexivity.
Qed.

End CleanupMore.

(** ** More on the parser *)

Section ParseMore.

Context {C : Type} {FL : Float C}.

Lemma parse_line_returns line :
  well_formed_line line -> exists term : PauliOp C, parse_line line = Ok term.
Proof.
  intros (sign & pref & d & lbl & Es & [c Ec] & [p Ep]).
  unfold parse_line. rewrite Es, Ep. cbn [bind]. rewrite Ec. cbn [bind]. eauto.
Qed.

Lemma parse_line_unpack line :
  length (split_on " " (strip line)) <> 4 ->
  parse_line (C:=C) line = Raise ValueError.
Proof.
  intros H. unfold parse_line.
  destruct (split_on " " (strip line)) as [|a [|b [|c [|d [|e l]]]]];
    try reflexivity. simpl in H. congruence.
Qed.

Lemma mapM_first_raise A B (f : A -> result B) l1 x l2 e :
  (forall a, In a l1 -> exists b, f a = Ok b) -> f x = Raise e ->
  mapM f (l1 ++ x :: l2) = Raise e.
Proof.
  intros H Hx. induction l1 as [|a l1 IH]; simpl.
  - now rewrite Hx.
  - destruct (H a (or_introl eq_refl)) as [b ->]. cbn [bind].
    rewrite IH; [reflexivity|]. intros a0 Ha0. apply H. right. exact Ha0.
Qed.

(** X18: a non-empty line that does not split into four fields stops the
    parser with a ValueError, when the lines before it are well formed:
    the unpacking of the fields fails *)
Theorem parse_wrong_field_count contents before line after :
  filter nonempty (splitlines contents) = before ++ line :: after ->
  (forall l, In l before -> well_formed_line (C:=C) l) ->
  length (split_on " " (strip line)) <> 4 ->
  parse (C:=C) contents = Raise ValueError.
Proof.
  intros E Hb Hl. unfold parse. rewrite E. apply mapM_first_raise.
  - intros l Hin. apply parse_line_returns. now apply Hb.
  - now apply parse_line_unpack.
Qed.

End ParseMore.

(** ** Different operators stay different *)

Section Injective.

Context {C : Type}.

Lemma gate_okb_bounds n (gate : instr C) :
  gate_okb n gate = true ->
  (forall q, In q (qubits gate) -> q < n) /\
  (forall a b, qubits gate = [a; b] -> a <> b).
Proof.
  unfold gate_okb. intros H. apply andb_true_iff in H. destruct H as [H1 H2]. split.
  - intros q Hq. rewrite forallb_forall in H1. apply Nat.ltb_lt. auto.
  - intros a b E. rewrite E in H2. apply negb_true_iff, Nat.eqb_neq in H2. exact H2.
Qed.

Lemma apply_gate_rows m n (gate : instr C) t t' a a' :
  twf m n t -> twf m n t' -> gate_okb n gate = true -> a < m -> a' < m ->
  rows_agree n t a t' a' ->
  rows_agree n (apply_gate gate t) a (apply_gate gate t') a'.
Proof.
  intros H H' Hg Ha Ha' [HX HZ].
  destruct (@gate_okb_bounds n gate Hg) as [Hb Hd].
  destruct (apply_gate_cases gate)
    as [(q & E & A)|[(q & E & A)|[(c & d & E & A)|A]]]; rewrite !A.
  - assert (Hq : q < n) by (apply Hb; rewrite E; left; reflexivity).
    split; intros b Hlt; tab_rw m n; destruct (b =? q); auto.
  - assert (Hq : q < n) by (apply Hb; rewrite E; left; reflexivity).
    split; intros b Hlt; tab_rw m n; destruct (b =? q); auto.
    now rewrite HX, HZ.
  - assert (Hc : c < n) by (apply Hb; rewrite E; simpl; auto).
    assert (Hd' : d < n) by (apply Hb; rewrite E; simpl; auto).
    split; intros b Hlt; tab_rw m n.
    + destruct (b =? d); auto. now rewrite !HX.
    + destruct (b =? c); auto. now rewrite !HZ.
  - split; auto.
Qed.

Lemma apply_gate_four m n (gate : instr C) t :
  twf m n t -> gate_okb n gate = true ->
  apply_gate gate (apply_gate gate (apply_gate gate (apply_gate gate t))) = t.
Proof.
  intros H Hg. destruct (@gate_okb_bounds n gate Hg) as [Hb Hd].
  destruct (apply_gate_cases gate)
    as [(q & E & A)|[(q & E & A)|[(c & d & E & A)|A]]]; rewrite !A; auto.
  - assert (Hq : q < n) by (apply Hb; rewrite E; left; reflexivity).
    rewrite (@h_h m n) by auto using twf_h. now apply (@h_h m n).
  - assert (Hq : q < n) by (apply Hb; rewrite E; left; reflexivity).
    now apply (@s_s_s_s m n).
  - assert (Hc : c < n) by (apply Hb; rewrite E; simpl; auto).
    assert (Hd' : d < n) by (apply Hb; rewrite E; simpl; auto).
    pose proof (Hd c d E) as Hcd.
    rewrite (@cnot_cnot m n) by auto using twf_cnot. now apply (@cnot_cnot m n).
Qed.

Lemma unreplay_twf m n (qc : circuit C) t : twf m n t -> twf m n (unreplay qc t).
Proof.
  intros H. induction qc as [|gate qc IH]; simpl; auto using apply_gate_twf.
Qed.

Lemma unreplay_replay m n (qc : circuit C) :
  Forall (gate_ok n) qc -> forall t, twf m n t -> unreplay qc (replay qc t) = t.
Proof.
  induction 1 as [|gate qc Hg _ IH]; intros t Ht; [reflexivity|].
  cbn [replay fold_left unreplay fold_right].
  change (fold_left (fun t0 gate0 => apply_gate gate0 t0) qc (apply_gate gate t))
    with (replay qc (apply_gate gate t)).
  change (fold_right (fun gate0 t0 => apply_gate gate0 (apply_gate gate0 (apply_gate gate0 t0)))
                     (replay qc (apply_gate gate t)) qc)
    with (unreplay qc (replay qc (apply_gate gate t))).
  rewrite IH by (now apply apply_gate_twf).
  apply (@apply_gate_four m n); auto using gate_okb_ok.
Qed.

Lemma unreplay_rows m n (qc : circuit C) t a a' :
  Forall (gate_ok n) qc -> twf m n t -> a < m -> a' < m ->
  rows_agree n t a t a' -> rows_agree n (unreplay qc t) a (unreplay qc t) a'.
Proof.
  intros Hok Ht Ha Ha' Hr. induction Hok as [|gate qc Hg _ IH]; [exact Hr|].
  cbn [unreplay fold_right].
  change (fold_right (fun gate0 t0 => apply_gate gate0 (apply_gate gate0 (apply_gate gate0 t0)))
                     t qc) with (unreplay qc t).
  pose proof (unreplay_twf qc Ht) as Hu. pose proof (gate_okb_ok Hg) as Hb.
  repeat (apply (@apply_gate_rows m n); auto using apply_gate_twf).
Qed.

Lemma replay_twf m n (qc : circuit C) t : twf m n t -> twf m n (replay qc t).
Proof.
  revert t. induction qc as [|gate qc IH]; intros t H; simpl; auto.
  apply IH. now apply apply_gate_twf.
Qed.

Lemma nth_paulis_of m n t i :
  twf m n t -> i < m ->
  nth i (paulis_of t) (mkPauli [] [] 0) =
  mkPauli (row (tZ t) i) (row (tX t) i) (if nth i (tS t) false then 2 else 0)%Z.
Proof.
  intros H Hi. unfold paulis_of.
  assert (Hn : nrows (tX t) = m) by (unfold nrows; apply H). rewrite Hn.
  unfold range. rewrite Nat.sub_0_r.
  rewrite (nth_indep _ _ (mkPauli (row (tZ t) m) (row (tX t) m)
                                  (if nth m (tS t) false then 2 else 0)%Z))
    by (now rewrite length_map, length_seq).
  rewrite (map_nth (fun i => mkPauli (row (tZ t) i) (row (tX t) i)
                                     (if nth i (tS t) false then 2 else 0)%Z)
                   (seq 0 m) m i).
  now rewrite seq_nth.
Qed.

Lemma row_ext m n M M' a a' :
  wf m n M -> wf m n M' -> a < m -> a' < m ->
  (forall b, b < n -> get M a b = get M' a' b) -> row M a = row M' a'.
Proof.
  intros H H' Ha Ha' Hg. apply (@list_ext_nth _ false).
  - now rewrite (wf_row H Ha), (wf_row H' Ha').
  - rewrite (wf_row H Ha). intros b Hb. now apply Hg.
Qed.

Lemma sim_cliff_diag_same_rows {NP : Numpy} n paulis (qc : circuit C) diag i j :
  on_qubits n paulis -> sim_cliff_diag paulis = Ok (qc, diag) ->
  i < length paulis -> j < length paulis ->
  pz (nth i diag (mkPauli [] [] 0)) = pz (nth j diag (mkPauli [] [] 0)) ->
  px (nth i paulis (mkPauli [] [] 0)) = px (nth j paulis (mkPauli [] [] 0)) /\
  pz (nth i paulis (mkPauli [] [] 0)) = pz (nth j paulis (mkPauli [] [] 0)).
Proof.
  intros Hq E Hi Hj Hz.
  destruct (sim_cliff_diag_parts Hq E) as (w & _ & _ & Ht & Ed & _).
  pose proof (sim_cliff_diag_returns_diagonal Hq E) as Hdiag.
  destruct Ht as (_ & H2 & Er & Hok).
  set (m := length paulis) in *.
  assert (Hni : In (nth i diag (mkPauli [] [] 0)) diag).
  { apply nth_In. rewrite Ed. unfold paulis_of.
    rewrite length_map. unfold range, nrows. rewrite length_seq, Nat.sub_0_r.
    destruct H2 as ((-> & _) & _). exact Hi. }
  assert (Hnj : In (nth j diag (mkPauli [] [] 0)) diag).
  { apply nth_In. rewrite Ed. unfold paulis_of.
    rewrite length_map. unfold range, nrows. rewrite length_seq, Nat.sub_0_r.
    destruct H2 as ((-> & _) & _). exact Hj. }
  pose proof (Hdiag _ Hni) as Di. pose proof (Hdiag _ Hnj) as Dj.
  rewrite Ed in Hz, Di, Dj.
  rewrite (@nth_paulis_of m n (wT2 w) i H2 Hi) in Hz, Di.
  rewrite (@nth_paulis_of m n (wT2 w) j H2 Hj) in Hz, Dj. cbn [pz px] in Hz, Di, Dj.
  unfold diagonal in Di, Dj. cbn [px] in Di, Dj.
  pose proof (twf_X H2) as HX2. pose proof (twf_Z H2) as HZ2.
  assert (Hrows : rows_agree n (wT2 w) i (wT2 w) j).
  { split; intros b Hb.
    - rewrite forallb_forall in Di, Dj.
      assert (Gi : get (tX (wT2 w)) i b = false).
      { destruct (get (tX (wT2 w)) i b) eqn:G; auto.
        assert (Hin : In true (row (tX (wT2 w)) i)).
        { rewrite <- G. apply nth_In. rewrite (wf_row HX2 Hi). exact Hb. }
        apply Di in Hin. discriminate. }
      assert (Gj : get (tX (wT2 w)) j b = false).
      { destruct (get (tX (wT2 w)) j b) eqn:G; auto.
        assert (Hin : In true (row (tX (wT2 w)) j)).
        { rewrite <- G. apply nth_In. rewrite (wf_row HX2 Hj). exact Hb. }
        apply Dj in Hin. discriminate. }
      now rewrite Gi, Gj.
    - unfold get. now rewrite Hz. }
  rewrite Er in Hrows.
  pose proof (twf_tab0 Hq) as H0.
  apply (@unreplay_rows m n (wqc w)) in Hrows; auto using replay_twf.
  rewrite (@unreplay_replay m n (wqc w) Hok _ H0) in Hrows.
  destruct Hrows as [RX RZ].
  split.
  - apply (@row_ext m n (tX (tab0 paulis)) (tX (tab0 paulis)) i j) in RX;
      try apply H0; auto.
    unfold row, tab0 in RX. cbn [tX] in RX.
    rewrite <- !(map_nth px) in *. exact RX.
  - apply (@row_ext m n (tZ (tab0 paulis)) (tZ (tab0 paulis)) i j) in RZ;
      try apply H0; auto.
    unfold row, tab0 in RZ. cbn [tZ] in RZ.
    rewrite <- !(map_nth pz) in *. exact RZ.
Qed.

(** X10: two input operators with different Pauli strings get different
    diagonal strings: the operators that [sim_cliff_diag] returns for them
    differ in their Z components *)
Theorem sim_cliff_diag_injective {NP : Numpy} n paulis (qc : circuit C) diag i j :
  on_qubits n paulis -> sim_cliff_diag paulis = Ok (qc, diag) ->
  i < length paulis -> j < length paulis ->
  px (nth i paulis (mkPauli [] [] 0)) <> px (nth j paulis (mkPauli [] [] 0)) \/
  pz (nth i paulis (mkPauli [] [] 0)) <> pz (nth j paulis (mkPauli [] [] 0)) ->
  pz (nth i diag (mkPauli [] [] 0)) <> pz (nth j diag (mkPauli [] [] 0)).
Proof.
  intros Hq E Hi Hj Hne Hz.
  destruct (@sim_cliff_diag_same_rows _ n paulis qc diag i j Hq E Hi Hj Hz) as [Ex Ez].
  destruct Hne as [Hne|Hne]; contradiction.
Qed.

End Injective.

(** ** The cleanup leaves no pair of Hadamard gates *)

Section CleanupComplete.

Context {C : Type}.

Lemma hcount_fold (A L : circuit C) :
  hcount (A ++ L) = fold_left hcount_step L (hcount A).
Proof. unfold hcount. apply fold_left_app. Qed.

Lemma hcount_step_pointwise (f f' : nat -> nat) (gate : instr C) q :
  f q = f' q -> hcount_step f gate q = hcount_step f' gate q.
Proof.
  intros E. unfold hcount_step. destruct (is_h gate).
  - destruct (q =? hd 0 (qubits gate)); now rewrite E.
  - destruct (existsb (Nat.eqb q) (qubits gate)); auto.
Qed.

Lemma fold_pointwise (L : circuit C) q :
  forall f f', f q = f' q ->
               fold_left hcount_step L f q = fold_left hcount_step L f' q.
Proof.
  induction L as [|x L IH]; intros f f' E; simpl; auto.
  apply IH. now apply hcount_step_pointwise.
Qed.

Lemma hcount_step_untouched (f : nat -> nat) (gate : instr C) q :
  clifford_gate gate -> ~ In q (qubits gate) -> hcount_step f gate q = f q.
Proof.
  intros [[q' ->]|[[q' ->]|(a & b & ->)]] Hn; unfold hcount_step; simpl in *.
  - destruct (Nat.eqb_spec q q'); auto. subst. tauto.
  - destruct (Nat.eqb_spec q q'); auto. subst. tauto.
  - destruct (Nat.eqb_spec q a); [subst; tauto|].
    destruct (Nat.eqb_spec q b); [subst; tauto|]. reflexivity.
Qed.

Lemma hcount_untouched (A B : circuit C) q :
  Forall clifford_gate B -> (forall x, In x B -> ~ In q (qubits x)) ->
  hcount (A ++ B) q = hcount A q.
Proof.
  intros Hcl Hn. rewrite hcount_fold. generalize (hcount A). intros f.
  revert f. induction Hcl as [|x B Hx _ IH]; intros f; simpl; auto.
  rewrite IH by (intros y Hy; apply Hn; right; exact Hy).
  apply hcount_step_untouched; auto. apply Hn. left. reflexivity.
Qed.

Lemma hcount_drop_h (A B : circuit C) q q0 :
  q <> q0 -> hcount (A ++ qc_h q0 :: B) q = hcount (A ++ B) q.
Proof.
  intros Hne. rewrite !hcount_fold. simpl. apply fold_pointwise.
  unfold hcount_step. simpl. destruct (Nat.eqb_spec q q0); [contradiction|reflexivity].
Qed.

Lemma hruns1_nil : hruns1 (@nil (instr C)).
Proof.
  intros p t E q. symmetry in E. apply app_eq_nil in E. destruct E as [-> _].
  unfold hcount. simpl. lia.
Qed.

Lemma hruns1_snoc (c : circuit C) gate :
  hruns1 c -> (forall q, hcount (c ++ [gate]) q <= 1) -> hruns1 (c ++ [gate]).
Proof.
  intros Hc Hg p t E q.
  destruct t as [|x t] using rev_ind.
  - rewrite app_nil_r in E. subst p. apply Hg.
  - clear IHt. rewrite app_assoc in E. apply app_inj_tail in E. destruct E as [E _].
    eapply Hc; eauto.
Qed.

Lemma hruns1_remove (A B : circuit C) q0 :
  hruns1 (A ++ qc_h q0 :: B) -> Forall clifford_gate B ->
  (forall x, In x B -> ~ In q0 (qubits x)) -> hruns1 (A ++ B).
Proof.
  intros H Hcl Hn p t E q. symmetry in E. apply app_eq_app in E.
  destruct E as (l & [[-> ->]|[-> ->]]).
  - (* the prefix ends in B *)
    rewrite Forall_app in Hcl. destruct Hcl as [Hcl _].
    destruct (Nat.eq_dec q q0) as [->|Hne].
    + rewrite hcount_untouched; auto.
      * apply (H A (qc_h q0 :: l ++ t)). reflexivity.
      * intros x Hx. apply Hn, in_or_app. auto.
    + rewrite <- (hcount_drop_h A l Hne).
      apply (H (A ++ qc_h q0 :: l) t). now rewrite <- app_assoc.
  - (* the prefix ends in A *)
    apply (H p (l ++ qc_h q0 :: B)). now rewrite <- app_assoc.
Qed.

Lemma scan_length size (p : circuit C) : length (fst (scan size p)) = size.
Proof.
  induction p as [|gate p IH] using rev_ind.
  - unfold scan. simpl. apply repeat_length.
  - rewrite scan_snoc. destruct (scan size p) as [lh R]. cbn [fst] in IH.
    unfold scan_step. destruct (name gate =? "h")%string.
    + destruct (nth (hd 0 (qubits gate)) lh None); cbn [fst]; auto.
      now rewrite length_set_nth.
    + cbn [fst]. generalize (qubits gate). intros qs. revert lh IH.
      induction qs as [|x qs IHq]; intros lh IH; simpl; auto.
      apply IHq. now rewrite length_set_nth.
Qed.

Lemma scan_done_holds size (data : circuit C) :
  Forall clifford_gate data -> hruns_ok data ->
  (forall gate q, In gate data -> In q (qubits gate) -> q < size) ->
  scan_done size data.
Proof.
  induction data as [|gate p IH] using rev_ind; intros Hcl Hruns Hsz.
  - unfold scan_done, scan. simpl. split; [apply hruns1_nil|].
    intros q H. unfold hcount in H. simpl in H. discriminate.
  - pose proof Hcl as Hcl0.
    apply Forall_app in Hcl. destruct Hcl as [Hclp Hg].
    inversion Hg as [|? ? Hgate _]; subst.
    pose proof (@hruns_ok_prefix C p [gate] Hruns) as Hrp.
    specialize (IH Hclp Hrp (fun g q Hin => Hsz g q (in_or_app _ _ _ (or_introl Hin)))).
    pose proof (@scan_inv_holds C unit (fun _ _ => tt) tt (fun _ => tt)
                  (fun _ _ _ => eq_refl) (fun a => match a with tt => eq_refl end)
                  (fun a => match a with tt => eq_refl end)
                  (fun _ => eq_refl) (fun _ _ _ => eq_refl)
                  size p Hclp Hrp) as Hinv.
    pose proof (scan_length size p) as Hlen.
    unfold scan_done in *. rewrite scan_snoc.
    destruct (scan size p) as [lh R]. cbn [fst snd] in *.
    destruct IH as [K1 K2]. destruct Hinv as (Ha & Hb & _ & Hd).
    cbn [fst snd] in Ha, Hb, Hd.
    assert (Hsnoc : keep R (p ++ [gate]) = keep R p ++ [(length p, gate)])
      by (apply keep_snoc_notin; auto).
    assert (Hother : is_h gate = false ->
              hruns1 (map snd (keep R (p ++ [gate]))) /\
              forall q, hcount (map snd (keep R (p ++ [gate]))) q = 1 ->
                exists a,
                  nth q (fold_left (fun lh q => set_nth q None lh) (qubits gate) lh) None
                  = Some a /\ ~ In a R).
    { intros Hh. rewrite Hsnoc, map_app. cbn [map snd].
      assert (Hc : forall q, hcount (map snd (keep R p) ++ [gate]) q =
                             if existsb (Nat.eqb q) (qubits gate) then 0
                             else hcount (map snd (keep R p)) q)
        by (intros q; now apply hcount_snoc_other).
      split.
      - apply hruns1_snoc; auto. intros q. rewrite Hc.
        destruct (existsb (Nat.eqb q) (qubits gate)); [lia|].
        apply (K1 _ [] (eq_sym (app_nil_r _))).
      - intros q Hq. rewrite Hc in Hq.
        destruct (existsb (Nat.eqb q) (qubits gate)) eqn:Ex; [discriminate|].
        destruct (K2 q Hq) as (a & Ea & Hna). exists a. split; auto.
        now rewrite nth_reset, Ex. }
    destruct Hgate as [[q0 ->]|[[q0 ->]|(a & b & ->)]].
    + unfold scan_step. cbn [name qc_h qubits hd].
      change (("h" =? "h")%string) with true. cbv iota.
      destruct (nth q0 lh None) as [a|] eqn:Eq0; cbn [fst snd].
      * (* the second Hadamard gate of a pair *)
        destruct (Hd q0 a Eq0) as (He & _ & H2 & H3).
        assert (Hcnt : hcount p q0 <= 1).
        { pose proof (Hruns (p ++ [qc_h q0]) [] ltac:(now rewrite app_nil_r) q0) as Hle.
          rewrite hcount_snoc_h, Nat.eqb_refl in Hle. lia. }
        assert (Hnin : ~ In a R) by (intros Hin; specialize (H2 Hin); lia).
        destruct (H3 Hnin) as (A & B & EA & HB).
        assert (Hk : keep (R ++ [a; length p]) (p ++ [qc_h q0]) = A ++ B).
        { rewrite keep_pair, EA. apply filter_remove_index.
          rewrite <- EA. apply NoDup_keep. }
        assert (HclB : Forall clifford_gate (map snd B)).
        { apply Forall_forall. intros x Hx. apply in_map_iff in Hx.
          destruct Hx as ([i y] & <- & Hin).
          assert (Hin' : In (i, y) (keep R p)).
          { rewrite EA. apply in_or_app. right. right. exact Hin. }
          apply In_keep in Hin'. destruct Hin' as [E _].
          rewrite Forall_forall in Hclp. apply Hclp. eapply nth_error_In; eauto. }
        assert (HnB : forall x, In x (map snd B) -> ~ In q0 (qubits x)).
        { intros x Hx. apply in_map_iff in Hx. destruct Hx as (ig & <- & Hin). auto. }
        rewrite EA in K1, K2. rewrite map_app in K1, K2. cbn [map snd] in K1, K2.
        rewrite Hk, map_app. split.
        -- eapply hruns1_remove; eauto.
        -- intros q Hq. destruct (Nat.eq_dec q q0) as [->|Hne].
           ++ exfalso. rewrite hcount_untouched in Hq by auto.
              pose proof (K1 (map snd A ++ [qc_h q0]) (map snd B)
                            ltac:(now rewrite <- app_assoc) q0) as Hle.
              rewrite hcount_snoc_h, Nat.eqb_refl in Hle. lia.
           ++ rewrite <- (hcount_drop_h (map snd A) (map snd B) Hne) in Hq.
              destruct (K2 q Hq) as (a' & Ea' & Hna'). exists a'. split; auto.
              destruct (Hd q a' Ea') as (He' & _).
              intros Hin. apply in_app_or in Hin.
              destruct Hin as [Hin|[<-|[<-|[]]]]; auto.
              ** rewrite He in He'. injection He' as E'. apply Hne. now symmetry.
              ** assert (length p < length p) by (apply nth_error_Some; congruence). lia.
      * (* a first Hadamard gate *)
        assert (Hq0 : q0 < size).
        { apply (Hsz (qc_h q0) q0); [apply in_or_app; right|]; left; reflexivity. }
        rewrite Hsnoc, map_app. cbn [map snd].
        assert (H0 : hcount (map snd (keep R p)) q0 = 0).
        { pose proof (K1 _ [] (eq_sym (app_nil_r _)) q0) as Hle.
          destruct (Nat.eq_dec (hcount (map snd (keep R p)) q0) 1) as [E1|]; [|lia].
          destruct (K2 q0 E1) as (a & Ea & _). congruence. }
        split.
        -- apply hruns1_snoc; auto. intros q. rewrite hcount_snoc_h.
           destruct (Nat.eqb_spec q q0) as [E|]; [rewrite E; lia|].
           apply (K1 _ [] (eq_sym (app_nil_r _))).
        -- intros q Hq. rewrite hcount_snoc_h in Hq.
           destruct (Nat.eqb_spec q q0) as [E|Hne].
           ++ rewrite E. exists (length p). split.
              ** apply nth_set_nth_eq. lia.
              ** intros Hin. specialize (Ha _ Hin). lia.
           ++ destruct (K2 q Hq) as (a & Ea & Hna). exists a. split; auto.
              rewrite nth_set_nth_neq; auto.
    + apply Hother. reflexivity.
    + apply Hother. reflexivity.
Qed.

(** on a circuit of H, S and CNOT gates on the qubits of the scan without
    three Hadamard gates in a row, the cleanup is complete *)
Lemma cleanup_leaves_no_pair size (data : circuit C) :
  Forall clifford_gate data -> hruns_ok data ->
  (forall gate q, In gate data -> In q (qubits gate) -> q < size) ->
  exists qc, cleanup size data = Ok qc /\
             forall p t, qc = p ++ t -> forall q, hcount p q <= 1.
Proof.
  intros Hcl Hruns Hsz.
  destruct (@scan_inv_holds C unit (fun _ _ => tt) tt (fun _ => tt)
              (fun _ _ _ => eq_refl) (fun a => match a with tt => eq_refl end)
              (fun a => match a with tt => eq_refl end)
              (fun _ => eq_refl) (fun _ _ _ => eq_refl)
              size data Hcl Hruns) as (Ha & Hb & _).
  destruct (scan_done_holds Hcl Hruns Hsz) as [K1 _].
  set (R := snd (scan size data)) in *.
  assert (Hmem : forall x, In x (rev (sort R)) <-> In x R).
  { intros x. rewrite <- in_rev. split; intros Hx.
    - eapply Permutation_in; [apply sort_perm|exact Hx].
    - eapply Permutation_in; [symmetry; apply sort_perm|exact Hx]. }
  exists (map snd (keep R data)). split; [|exact K1].
  unfold cleanup. change (h_to_remove size data) with R.
  rewrite pop_all.
  - now rewrite (@keep_ext _ (rev (sort R)) R data Hmem).
  - now apply desc_rev_sort.
  - intros d Hd. apply Ha, Hmem, Hd.
Qed.

(** X11: the cleanup of [sim_cliff_diag] is complete: in the circuit that it
    returns no qubit meets two Hadamard gates in a row, with no other
    gate on that qubit in between *)
Theorem sim_cliff_diag_no_hadamard_pair {NP : Numpy} n paulis (qc : circuit C) diag :
  on_qubits n paulis -> sim_cliff_diag paulis = Ok (qc, diag) ->
  forall p t, qc = p ++ t -> forall q, hcount p q <= 1.
Proof.
  intros Hq E.
  destruct (sim_cliff_diag_parts Hq E) as (w & Ew & Ec & Ht & _).
  destruct (shape_diag_work _ Ew) as (Hcl & Hruns & _).
  destruct Ht as (_ & _ & _ & Hok).
  destruct (@cleanup_leaves_no_pair n (wqc w) Hcl Hruns) as (qc' & Ec' & H).
  - intros gate q Hg Hin. rewrite Forall_forall in Hok. now apply (Hok gate Hg).
  - rewrite Ec in Ec'. injection Ec' as <-. exact H.
Qed.

End CleanupComplete.

(** * The theorems at sample inputs *)

Lemma rank_le_nrows m n M r : m <= r -> rank_le m n M r.
Proof.
  intros H. exists m, (fun i b => get M i b). split; auto.
  intros a Ha. exists (fun i => i =? a). intros b _. now rewrite xsum_single.
Qed.

Lemma ranks_ok_by_rows {NP : Numpy} n (paulis : list (PauliOp Q)) :
  forallb (fun subset => length subset <=? matrix_rank (XZ (map primitive subset)))
          (commuting_subsets paulis) = true ->
  ranks_ok n paulis.
Proof.
  intros H subset Hin. rewrite forallb_forall in H. specialize (H _ Hin).
  apply Nat.leb_le in H. unfold rank_ok. apply rank_le_nrows.
  now rewrite length_map.
Qed.

Lemma two_commuting_ok :
  two_commuting <> [] /\ on_qubits 2 two_commuting /\
  pairwise_commute two_commuting /\ rank_ok 2 two_commuting.
Proof.
  split; [discriminate|]. split; [repeat constructor|]. split.
  - intros p q [<-|[<-|[]]] [<-|[<-|[]]]; reflexivity.
  - apply rank_le_nrows. vm_compute. lia.
Qed.

(** C2, as the claim has it, fails: the empty list is a list of pairwise
    commuting operators, and on it [sim_cliff_diag] raises an IndexError
    at [paulis[0]]. *)
Lemma sim_cliff_diag_empty_list :
  pairwise_commute [] /\
  @sim_cliff_diag Q exact_rank [] = Raise IndexError.
Proof.
  split; [intros p q []|reflexivity].
Qed.

(** the rank matters as well: with a rank below the rank over GF(2) the
    diagonalization of the X part stops early and the first assertion
    fails, on two commuting operators *)
Lemma sim_cliff_diag_low_rank :
  pairwise_commute two_commuting /\
  @sim_cliff_diag Q rank_zero two_commuting =
  Raise (AssertionError "Failed Clifford diagonalization").
Proof.
  split; [|vm_compute; reflexivity].
  intros p q [<-|[<-|[]]] [<-|[<-|[]]]; reflexivity.
Qed.

Lemma sim_cliff_diag_diagonalizes_witness :
  0 < 2 /\ two_commuting <> [] /\ on_qubits 2 two_commuting /\
  pairwise_commute two_commuting /\ rank_ok 2 two_commuting /\
  exists (qc : circuit Q) diag,
    sim_cliff_diag two_commuting = Ok (qc, diag) /\
    length diag = length two_commuting /\ on_qubits 2 diag /\
    (forall p, In p diag -> diagonal p) /\
    (forall gate, In gate qc -> cnot_h_s gate).
Proof.
  destruct two_commuting_ok as (H1 & H2 & H3 & H4).
  assert (H0 : 0 < 2) by lia.
  repeat (split; [assumption|]).
  exact (@sim_cliff_diag_diagonalizes Q exact_rank 2 two_commuting H0 H1 H2 H3 H4).
Defined.

Lemma sweep_rows_exception_unreachable_witness :
  (twf 2 2 (tab0 two_commuting) /\ 0 < 2 /\ 1 < 2 /\
   rows_commute (tab0 two_commuting) 0 1 /\
   (sweep_t (tab0 two_commuting) 0 1 mod 4 = 0 \/
    sweep_t (tab0 two_commuting) 0 1 mod 4 = 2)%Z) /\
  (on_qubits 2 two_commuting /\ pairwise_commute two_commuting /\
   sim_cliff_diag (C:=Q) two_commuting <> Raise SweepRowsUnexpected).
Proof.
  destruct two_commuting_ok as (H1 & H2 & H3 & H4).
  destruct (@sweep_rows_exception_unreachable Q exact_rank) as [Ha Hb].
  assert (Ht : twf 2 2 (tab0 two_commuting)) by (now apply twf_tab0).
  assert (Hc : rows_commute (tab0 two_commuting) 0 1) by reflexivity.
  split.
  - split; [exact Ht|]. split; [lia|]. split; [lia|]. split; [exact Hc|].
    apply (Ha 2 2 (tab0 two_commuting) 0 1 Ht); [lia | lia | exact Hc].
  - split; [exact H2|]. split; [exact H3|]. exact (Hb 2 two_commuting H2 H3).
Defined.

Lemma cleanup_preserves_operator_witness :
  (forall a b c : tableau -> tableau,
      then_t a (then_t b c) = then_t (then_t a b) c) /\
  (forall a : tableau -> tableau, then_t (fun t => t) a = a) /\
  (forall a : tableau -> tableau, then_t a (fun t => t) = a) /\
  (forall q, then_t (den_t 3 3 (qc_h (C:=Q) q)) (den_t 3 3 (qc_h (C:=Q) q)) =
             (fun t => t)) /\
  (forall g1 g2 : instr Q,
      (forall q, In q (qubits g1) -> ~ In q (qubits g2)) ->
      then_t (den_t 3 3 g1) (den_t 3 3 g2) = then_t (den_t 3 3 g2) (den_t 3 3 g1)) /\
  exists w : work (C:=Q),
    diag_work three_commuting = Ok w /\
    h_to_remove 3 (wqc w) = [4; 5; 7; 8] /\
    exists qc, cleanup 3 (wqc w) = Ok qc /\
               sem then_t (fun t => t) (den_t 3 3) qc =
               sem then_t (fun t => t) (den_t 3 3) (wqc w).
Proof.
  assert (L1 : forall a b c : tableau -> tableau,
             then_t a (then_t b c) = then_t (then_t a b) c) by reflexivity.
  assert (L2 : forall a : tableau -> tableau, then_t (fun t => t) a = a) by reflexivity.
  assert (L3 : forall a : tableau -> tableau, then_t a (fun t => t) = a) by reflexivity.
  pose proof (@den_t_h Q 3 3) as L4.
  pose proof (@den_t_commute Q 3 3) as L5.
  repeat (split; [assumption|]).
  destruct (diag_work (C:=Q) three_commuting) as [w|e] eqn:E;
    [|vm_compute in E; discriminate].
  exists w. split; [reflexivity|]. split.
  - vm_compute in E. injection E as <-. vm_compute. reflexivity.
  - exact (@cleanup_preserves_operator Q exact_rank (tableau -> tableau) then_t
             (fun t => t) (den_t 3 3) L1 L2 L3 L4 L5 3 three_commuting w E).
Defined.

(** *** The file of 21 terms, no two of which commute *)

Lemma anticommuting_parsed : parse anticommuting_file = Ok anticommuting_terms.
Proof. vm_compute. reflexivity. Qed.

Lemma anticommuting_groups : length (commuting_subsets anticommuting_terms) = 21.
Proof. vm_compute. reflexivity. Qed.

Lemma anticommuting_terms_ok :
  0 < 10 /\ on_qubits 10 (map primitive anticommuting_terms) /\
  ranks_ok 10 anticommuting_terms.
Proof.
  split; [lia|]. split.
  - unfold on_qubits. vm_compute. repeat constructor.
  - apply ranks_ok_by_rows. vm_compute. reflexivity.
Qed.

Lemma master_circuit_structure_witness :
  0 < 10 /\ on_qubits 10 (map primitive anticommuting_terms) /\
  ranks_ok 10 anticommuting_terms /\
  length (commuting_subsets anticommuting_terms) = 21 /\
  exists circuits,
    Forall2 group_circuit_of (commuting_subsets anticommuting_terms) circuits /\
    run anticommuting_terms =
      Ok (concat (repeat (concat (map (fun i => nth i circuits []) order)) 2)) /\
    order = [6; 7; 9; 1; 11; 18; 4; 13; 12; 0; 19; 15; 17; 3; 5; 2; 20; 10; 8; 16; 14] /\
    forall k, k < 21 -> count_occ Nat.eq_dec (order ++ order) k = 2.
Proof.
  destruct anticommuting_terms_ok as (H1 & H2 & H3).
  pose proof anticommuting_groups as H4.
  repeat (split; [assumption|]).
  exact (@master_circuit_structure Q rational exact_rank 10 anticommuting_terms
           H1 H2 H3 H4).
Defined.


Lemma master_circuit_gates_witness :
  exists mc,
    master_circuit_of_file (C:=Q) anticommuting_file = Ok mc /\
    forall gate, In gate mc -> allowed_gate emitted_names gate.
Proof.
  destruct (master_circuit_of_file (C:=Q) anticommuting_file) as [mc|e] eqn:E;
    [|vm_compute in E; discriminate].
  exists mc. split; [reflexivity|].
  exact (@master_circuit_gates Q rational exact_rank anticommuting_file mc E).
Defined.

(** C5, as the claim has it, fails: the master circuit of the file of 21
    terms holds the gate sdg, the inverse of an S gate of a diagonalizing
    circuit, which is none of h, s, rz, p, x and no CNOT. *)
Lemma master_circuit_holds_sdg :
  exists mc gate,
    master_circuit_of_file (C:=Q) anticommuting_file = Ok mc /\ In gate mc /\
    ~ allowed_gate stated_names gate.
Proof.
  destruct (master_circuit_of_file (C:=Q) anticommuting_file) as [mc|e] eqn:E;
    [|vm_compute in E; discriminate].
  exists mc, (Instr "sdg"%string [] [0]). split; [reflexivity|]. split.
  - vm_compute in E. injection E as <-.
    repeat first [left; reflexivity | right].
  - intros [[H _]|[H _]]; [|discriminate].
    destruct H as [H|[H|[H|[H|[H|[]]]]]]; discriminate.
Qed.

(** *** A file of 276 lines in one commuting subset *)

Lemma diagonal_file_parsed :
  exists terms : list (PauliOp Q),
    parse diagonal_file = Ok terms /\ length terms = 276 /\
    length (commuting_subsets terms) = 1.
Proof.
  destruct (parse (C:=Q) diagonal_file) as [terms|e] eqn:E;
    [|vm_compute in E; discriminate].
  exists terms. split; [reflexivity|].
  vm_compute in E. injection E as <-. split; vm_compute; reflexivity.
Qed.


(** *** A file of three lines *)

Lemma parse_lines_witness :
  (forall c : Q, cmul (of_int (-1)) c = cneg c) /\
  (forall c : Q, cmul (of_int 1) c = c) /\
  (forall line, In line (filter nonempty (splitlines three_lines)) ->
                well_formed_line (C:=Q) line) /\
  length (filter nonempty (splitlines three_lines)) = 3 /\
  exists terms : list (PauliOp Q),
    parse three_lines = Ok terms /\
    Forall2 parsed_as (filter nonempty (splitlines three_lines)) terms /\
    length terms = length (filter nonempty (splitlines three_lines)) /\
    map coeff terms = [(1 # 2)%Q; (-1 # 4)%Q; (1 # 8)%Q].
Proof.
  assert (L0 : length (filter nonempty (splitlines three_lines)) = 3)
    by (vm_compute; reflexivity).
  assert (L1 : forall c : Q, cmul (of_int (-1)) c = cneg c)
    by (intros [[|p|p] d]; reflexivity).
  assert (L2 : forall c : Q, cmul (of_int 1) c = c)
    by (intros [[|p|p] d]; reflexivity).
  assert (L3 : forall line, In line (filter nonempty (splitlines three_lines)) ->
                            well_formed_line (C:=Q) line).
  { intros line Hin. vm_compute in Hin.
    repeat destruct Hin as [<-|Hin]; try contradiction;
      (eexists _, _, _, _; split; [vm_compute; reflexivity|];
       split; eexists; vm_compute; reflexivity). }
  repeat (split; [assumption|]).
  destruct (@parse_lines Q rational L1 L2 three_lines L3) as (terms & Ep & HF & Hlen).
  exists terms. split; [exact Ep|]. split; [exact HF|]. split; [exact Hlen|].
  vm_compute in Ep. injection Ep as <-. reflexivity.
Defined.

(** * The further properties at sample inputs *)

Lemma two_commuting_twf : twf 2 2 (tab0 two_commuting).
Proof. apply twf_tab0. repeat constructor. Qed.

Lemma first_fit_refused_earlier_witness :
  nth_error (commuting_subsets x_and_z) 0 = Some [nth 0 x_and_z (mkPauliOp (mkPauli [] [] 0) 0%Q)] /\
  nth_error (commuting_subsets x_and_z) 1 = Some [nth 1 x_and_z (mkPauliOp (mkPauli [] [] 0) 0%Q)] /\
  0 < 1 /\
  exists q, In q [nth 0 x_and_z (mkPauliOp (mkPauli [] [] 0) 0%Q)] /\
            commutes (primitive (nth 1 x_and_z (mkPauliOp (mkPauli [] [] 0) 0%Q)))
                     (primitive q) = false.
Proof.
  split; [reflexivity|]. split; [reflexivity|]. split; [lia|].
  apply (@first_fit_refused_earlier Q x_and_z 0 1
           [nth 0 x_and_z (mkPauliOp (mkPauli [] [] 0) 0%Q)]
           [nth 1 x_and_z (mkPauliOp (mkPauli [] [] 0) 0%Q)]);
    [reflexivity | reflexivity | lia | left; reflexivity].
Defined.

Lemma commuting_subsets_all_commute_witness :
  two_commuting_terms <> [] /\ commuting_group two_commuting_terms /\
  commuting_subsets two_commuting_terms = [two_commuting_terms].
Proof.
  assert (H1 : two_commuting_terms <> []) by discriminate.
  assert (H2 : commuting_group two_commuting_terms).
  { intros p q [<-|[<-|[]]] [<-|[<-|[]]]; reflexivity. }
  split; [exact H1|]. split; [exact H2|].
  exact (@commuting_subsets_all_commute Q two_commuting_terms H1 H2).
Defined.

Lemma commuting_subsets_none_commute_witness :
  none_commute x_and_z /\
  commuting_subsets x_and_z = map (fun p => [p]) x_and_z.
Proof.
  assert (H : none_commute x_and_z).
  { intros l1 p l2 q l3 E. unfold x_and_z in E.
    destruct l1 as [|a l1]; simpl in E.
    - injection E as <- E. destruct l2 as [|b l2]; simpl in E.
      + injection E as <- _. reflexivity.
      + injection E as _ E. destruct l2; discriminate.
    - injection E as _ E. destruct l1 as [|b l1]; simpl in E.
      + injection E as _ E. destruct l2; discriminate.
      + injection E as _ E. destruct l1; discriminate. }
  split; [exact H|]. exact (@commuting_subsets_none_commute Q x_and_z H).
Defined.

Lemma updates_undo_witness :
  twf 2 2 (tab0 two_commuting) /\
  (forall i, i < 2 -> h (h (tab0 two_commuting) i) i = tab0 two_commuting /\
                      s (s (s (s (tab0 two_commuting) i) i) i) i = tab0 two_commuting) /\
  (forall i j, i < 2 -> j < 2 -> i <> j ->
               cnot (cnot (tab0 two_commuting) i j) i j = tab0 two_commuting).
Proof.
  split; [exact two_commuting_twf|].
  exact (@updates_undo 2 2 (tab0 two_commuting) two_commuting_twf).
Defined.

Lemma three_cnots_swap_cols_witness :
  twf 2 2 (tab0 two_commuting) /\ 0 < 2 /\ 1 < 2 /\ 0 <> 1 /\
  cnot (cnot (cnot (tab0 two_commuting) 0 1) 1 0) 0 1 =
  swap_cols_t (tab0 two_commuting) 0 1.
Proof.
  split; [exact two_commuting_twf|]. split; [lia|]. split; [lia|]. split; [lia|].
  apply (@three_cnots_swap_cols 2 2); [exact two_commuting_twf | lia | lia | lia].
Defined.

Lemma cz_symmetric_witness :
  twf 2 2 (tab0 two_commuting) /\ 0 < 2 /\ 1 < 2 /\ 0 <> 1 /\
  cz (tab0 two_commuting) 0 1 = cz (tab0 two_commuting) 1 0.
Proof.
  split; [exact two_commuting_twf|]. split; [lia|]. split; [lia|]. split; [lia|].
  apply (@cz_symmetric 2 2); [exact two_commuting_twf | lia | lia | lia].
Defined.

Lemma updates_keep_symplectic_product_witness :
  twf 2 2 (tab0 two_commuting) /\ 0 < 2 /\ 1 < 2 /\
  (forall i, i < 2 ->
             sp 2 (h (tab0 two_commuting) i) 0 1 = sp 2 (tab0 two_commuting) 0 1 /\
             sp 2 (s (tab0 two_commuting) i) 0 1 = sp 2 (tab0 two_commuting) 0 1) /\
  (forall i j, i < 2 -> j < 2 -> i <> j ->
               sp 2 (cnot (tab0 two_commuting) i j) 0 1 = sp 2 (tab0 two_commuting) 0 1 /\
               sp 2 (cz (tab0 two_commuting) i j) 0 1 = sp 2 (tab0 two_commuting) 0 1).
Proof.
  split; [exact two_commuting_twf|]. split; [lia|]. split; [lia|].
  apply (@updates_keep_symplectic_product 2 2 (tab0 two_commuting) 0 1);
    [exact two_commuting_twf | lia | lia].
Defined.

Lemma sweep_rows_raises_iff_witness :
  twf 2 2 (tab0 two_commuting) /\ 0 < 2 /\ 1 < 2 /\
  (sweep_rows (tab0 two_commuting) 0 1 = Raise SweepRowsUnexpected <->
   commutes (mkPauli (row (tZ (tab0 two_commuting)) 0) (row (tX (tab0 two_commuting)) 0) 0)
            (mkPauli (row (tZ (tab0 two_commuting)) 1) (row (tX (tab0 two_commuting)) 1) 0)
   = false).
Proof.
  split; [exact two_commuting_twf|]. split; [lia|]. split; [lia|].
  apply (@sweep_rows_raises_iff 2 2); [exact two_commuting_twf | lia | lia].
Defined.

Lemma sim_cliff_diag_replay_witness :
  exists (qc : circuit Q) diag,
    on_qubits 2 two_commuting /\
    sim_cliff_diag two_commuting = Ok (qc, diag) /\
    diag = paulis_of (replay qc (tab0 two_commuting)).
Proof.
  assert (Hq : on_qubits 2 two_commuting) by (repeat constructor).
  destruct (sim_cliff_diag (C:=Q) two_commuting) as [[qc diag]|e] eqn:E;
    [|vm_compute in E; discriminate].
  exists qc, diag. split; [exact Hq|]. split; [reflexivity|].
  exact (@sim_cliff_diag_replay Q exact_rank 2 two_commuting qc diag Hq E).
Defined.

Lemma master_circuit_register_witness :
  exists mc,
    parse anticommuting_file = Ok anticommuting_terms /\
    on_qubits 10 (map primitive anticommuting_terms) /\
    master_circuit_of_file (C:=Q) anticommuting_file = Ok mc /\
    forall gate, In gate mc ->
      (forall q, In q (qubits gate) -> q < 10) /\ NoDup (qubits gate).
Proof.
  pose proof anticommuting_parsed as Hp.
  assert (Hq : on_qubits 10 (map primitive anticommuting_terms)).
  { unfold on_qubits. vm_compute. repeat constructor. }
  destruct (master_circuit_of_file (C:=Q) anticommuting_file) as [mc|e] eqn:E;
    [|vm_compute in E; discriminate].
  exists mc. split; [exact Hp|]. split; [exact Hq|]. split; [reflexivity|].
  exact (@master_circuit_register Q rational exact_rank 10 anticommuting_file
           anticommuting_terms mc Hp Hq E).
Defined.

Lemma master_circuit_ignores_rest_witness :
  21 <= length (repeat (@nil (instr Q)) 21) /\
  master_circuit (repeat (@nil (instr Q)) 21 ++ [[qc_h 0]]) =
  master_circuit (repeat (@nil (instr Q)) 21).
Proof.
  assert (H : 21 <= length (repeat (@nil (instr Q)) 21)) by (simpl; lia).
  split; [exact H|].
  exact (@master_circuit_ignores_rest Q (repeat [] 21) [[qc_h 0]] H).
Defined.

Lemma four_diagonal_terms : diag_terms 2 four_diagonal.
Proof.
  intros p [<-|[<-|[<-|[<-|[]]]]]; repeat split; reflexivity.
Qed.

Lemma walk_paulis_rotations_witness :
  exists qc,
    diag_terms 2 four_diagonal /\ walk_paulis four_diagonal = Ok qc /\
    Permutation (filter is_rz qc) (map rz_of (filter has_Z four_diagonal)).
Proof.
  destruct (walk_paulis four_diagonal) as [qc|e] eqn:E;
    [|vm_compute in E; discriminate].
  exists qc. split; [exact four_diagonal_terms|]. split; [reflexivity|].
  exact (@walk_paulis_rotations Q rational 2 four_diagonal qc four_diagonal_terms E).
Defined.

Lemma walk_paulis_cnots_cancel_witness :
  exists qc,
    (forall a b c, xorb a (xorb b c) = xorb (xorb a b) c) /\
    (forall a, xorb false a = a) /\ (forall a, xorb a false = a) /\
    (forall c t, xorb (cx_parity (qc_cnot c t)) (cx_parity (qc_cnot c t)) = false) /\
    (forall theta q, cx_parity (qc_rz theta q) = false) /\
    diag_terms 2 four_diagonal /\ walk_paulis four_diagonal = Ok qc /\
    sem xorb false cx_parity qc =
    sem xorb false cx_parity (global_phase_gates 2 four_diagonal).
Proof.
  assert (L1 : forall a b c, xorb a (xorb b c) = xorb (xorb a b) c)
    by (intros [] [] []; reflexivity).
  assert (L2 : forall a, xorb false a = a) by (intros []; reflexivity).
  assert (L3 : forall a, xorb a false = a) by (intros []; reflexivity).
  assert (L4 : forall c t, xorb (cx_parity (qc_cnot c t)) (cx_parity (qc_cnot c t)) = false)
    by reflexivity.
  assert (L5 : forall (theta : Q) q, cx_parity (qc_rz theta q) = false) by reflexivity.
  destruct (walk_paulis four_diagonal) as [qc|e] eqn:E;
    [|vm_compute in E; discriminate].
  exists qc. repeat (split; [assumption|]).
  split; [exact four_diagonal_terms|]. split; [reflexivity|].
  exact (@walk_paulis_cnots_cancel Q rational bool xorb false cx_parity
           L1 L2 L3 L4 L5 2 four_diagonal qc four_diagonal_terms E).
Defined.

Lemma cleanup_removes_hadamard_pairs_witness :
  exists w : work (C:=Q),
    diag_work three_commuting = Ok w /\
    (forall gate q, In gate (wqc w) -> In q (qubits gate) -> q < 3) /\
    Forall clifford_gate (wqc w) /\ hruns_ok (wqc w) /\
    h_to_remove 3 (wqc w) = [4; 5; 7; 8] /\
    exists qc, cleanup 3 (wqc w) = Ok qc /\
               filter not_h qc = filter not_h (wqc w) /\
               forall q, Nat.odd (h_on q qc) = Nat.odd (h_on q (wqc w)).
Proof.
  assert (Hq : on_qubits 3 three_commuting) by (repeat constructor).
  destruct (diag_work (C:=Q) three_commuting) as [w|e] eqn:E;
    [|vm_compute in E; discriminate].
  destruct (shape_diag_work _ E) as (Hcl & Hruns & _).
  destruct (@track_diag_work Q exact_rank 3 three_commuting w Hq E)
    as (_ & _ & _ & Hok).
  assert (Hreg : forall gate q, In gate (wqc w) -> In q (qubits gate) -> q < 3).
  { intros gate q Hg Hin. rewrite Forall_forall in Hok.
    destruct (Hok gate Hg) as [Hlt _]. now apply Hlt. }
  exists w. split; [reflexivity|]. split; [exact Hreg|].
  split; [exact Hcl|]. split; [exact Hruns|]. split.
  - vm_compute in E. injection E as <-. vm_compute. reflexivity.
  - exact (@cleanup_removes_hadamard_pairs Q 3 (wqc w) Hreg Hcl Hruns).
Defined.

Lemma cleanup_three_hadamards_witness :
  0 < 1 /\ 3 <= 3 /\ cleanup 1 (repeat (qc_h (C:=Q) 0) 3) = Raise IndexError.
Proof.
  split; [lia|]. split; [lia|].
  apply (@cleanup_three_hadamards Q 1 0 3); lia.
Defined.

Lemma parse_wrong_field_count_witness :
  filter nonempty (splitlines three_fields) =
    ["+ 0.5 * IIIIIIIIIX"%string] ++ "- 0.25 IIIIIIIIYZ"%string :: [] /\
  (forall l, In l ["+ 0.5 * IIIIIIIIIX"%string] -> well_formed_line (C:=Q) l) /\
  length (split_on " " (strip "- 0.25 IIIIIIIIYZ")) <> 4 /\
  parse (C:=Q) three_fields = Raise ValueError.
Proof.
  assert (H1 : filter nonempty (splitlines three_fields) =
               ["+ 0.5 * IIIIIIIIIX"%string] ++ "- 0.25 IIIIIIIIYZ"%string :: [])
    by (vm_compute; reflexivity).
  assert (H2 : forall l, In l ["+ 0.5 * IIIIIIIIIX"%string] -> well_formed_line (C:=Q) l).
  { intros l [<-|[]]. eexists _, _, _, _. split; [vm_compute; reflexivity|].
    split; eexists; vm_compute; reflexivity. }
  assert (H3 : length (split_on " " (strip "- 0.25 IIIIIIIIYZ")) <> 4)
    by (vm_compute; lia).
  split; [exact H1|]. split; [exact H2|]. split; [exact H3|].
  exact (@parse_wrong_field_count Q rational three_fields _ _ _ H1 H2 H3).
Defined.

Lemma sim_cliff_diag_injective_witness :
  exists (qc : circuit Q) diag,
    on_qubits 2 two_commuting /\
    sim_cliff_diag two_commuting = Ok (qc, diag) /\
    0 < length two_commuting /\ 1 < length two_commuting /\
    (px (nth 0 two_commuting (mkPauli [] [] 0)) <>
       px (nth 1 two_commuting (mkPauli [] [] 0)) \/
     pz (nth 0 two_commuting (mkPauli [] [] 0)) <>
       pz (nth 1 two_commuting (mkPauli [] [] 0))) /\
    pz (nth 0 diag (mkPauli [] [] 0)) <> pz (nth 1 diag (mkPauli [] [] 0)).
Proof.
  assert (Hq : on_qubits 2 two_commuting) by (repeat constructor).
  assert (H0 : 0 < length two_commuting) by (simpl; lia).
  assert (H1 : 1 < length two_commuting) by (simpl; lia).
  assert (Hne : px (nth 0 two_commuting (mkPauli [] [] 0)) <>
                  px (nth 1 two_commuting (mkPauli [] [] 0)) \/
                pz (nth 0 two_commuting (mkPauli [] [] 0)) <>
                  pz (nth 1 two_commuting (mkPauli [] [] 0)))
    by (first [left; simpl; discriminate | right; simpl; discriminate]).
  destruct (sim_cliff_diag (C:=Q) two_commuting) as [[qc diag]|e] eqn:E;
    [|vm_compute in E; discriminate].
  exists qc, diag. split; [exact Hq|]. split; [reflexivity|].
  split; [exact H0|]. split; [exact H1|]. split; [exact Hne|].
  exact (@sim_cliff_diag_injective Q exact_rank 2 two_commuting qc diag 0 1
           Hq E H0 H1 Hne).
Defined.

Lemma sim_cliff_diag_no_hadamard_pair_witness :
  exists (qc : circuit Q) diag,
    on_qubits 2 two_commuting /\
    sim_cliff_diag two_commuting = Ok (qc, diag) /\
    forall p t, qc = p ++ t -> forall q, hcount p q <= 1.
Proof.
  assert (Hq : on_qubits 2 two_commuting) by (repeat constructor).
  destruct (sim_cliff_diag (C:=Q) two_commuting) as [[qc diag]|e] eqn:E;
    [|vm_compute in E; discriminate].
  exists qc, diag. split; [exact Hq|]. split; [reflexivity|].
  exact (@sim_cliff_diag_no_hadamard_pair Q exact_rank 2 two_commuting qc diag Hq E).
Defined.
